(** * SPCChart: the segmentation and signal-detection engine of [spc.js]

    A shallow embedding of the data-processing half of [spc.js]
    ([createProcess], [calculateSignals], [summaryStatistics],
    [incrementSignal], [clearSignal], [addSignalToTracker],
    [configureProperties], [getSignals], [signalIsBelow], the segmentation
    prefix and the click handlers of [displayChart], and the [SignalEnum]
    catalog), followed by the properties of that engine.

    Conventions of the embedding.
    - Array indices and the [cap] field are JavaScript numbers that hold
      integers, possibly negative ([-1] is the "no cap" marker): [Z].
    - A data point is [{Date, Count}].  [Date] is held by its time value, an
      integer; it is the key used by [in datesToExclude] and by the
      [signals] object.  [Count] is a number; numbers are read as exact
      rationals ([Q]), the usual idealisation of IEEE doubles.
    - [undefined] results of [d3.mean] / [d3.deviation] and absent fields
      are [None]; a comparison against [undefined] (NaN) is [false].
    - A standard deviation is a square root; it is held by its radicand
      ([sigma]) and comparisons against [mean + sd * k] are decided exactly
      on squares.  [gt_sigma_real] and [lt_sigma_real] relate them to the
      inequalities over the reals.
    - Objects mutated in place (the [processes] array, the [signals] object
      of a process, the [signalTracker] object) are threaded explicitly.
    - [TypeError] is the exception JavaScript raises on a property access
      on [undefined]; [OutOfFuel] only means that the step budget handed to
      the interpreter of the [while] loop and of the recursion was too small.
*)

From Stdlib Require Import ZArith QArith Qreals Reals Lqa Lra Lia List.
From stdpp Require Import base decidable countable gmap list sorting.
Import ListNotations.

Local Open Scope Z_scope.

(** ** Results of effectful code *)

Inductive result (A : Type) : Type :=
| Ok (a : A)
| TypeError
| OutOfFuel.
Arguments Ok {A} a.
Arguments TypeError {A}.
Arguments OutOfFuel {A}.

#[global] Instance result_bind : MBind result :=
  fun (A B : Type) (k : A -> result B) (m : result A) =>
    match m with
    | Ok a => k a
    | TypeError => TypeError
    | OutOfFuel => OutOfFuel
    end.

#[global] Instance result_ret : MRet result := fun (A : Type) (a : A) => Ok a.

(** [returns f r]: run with any large enough budget, [f] returns [r]. *)
Definition returns {A : Type} (f : nat -> result A) (r : A) : Prop :=
  exists fuel0 : nat, forall fuel : nat, (fuel0 <= fuel)%nat -> f fuel = Ok r.

(** [raises f]: run with any large enough budget, [f] throws. *)
Definition raises {A : Type} (f : nat -> result A) : Prop :=
  exists fuel0 : nat, forall fuel : nat, (fuel0 <= fuel)%nat -> f fuel = TypeError.

(** ** Numbers *)

Definition Qltb (x y : Q) : bool := negb (Qle_bool y x).

(** The square root of [radicand]: the shape of every value that
    [d3.deviation] returns. *)
Record sigma : Type := Sqrt { radicand : Q }.

(** [gt_sigma v m s k] decides [v > m + s * k], for [k >= 0]. *)
Definition gt_sigma (v m : Q) (s : sigma) (k : Q) : bool :=
  Qltb 0 (v - m) && Qltb (k * k * radicand s) ((v - m) * (v - m)).

(** [lt_sigma v m s k] decides [v < m - s * k], for [k >= 0]. *)
Definition lt_sigma (v m : Q) (s : sigma) (k : Q) : bool :=
  Qltb (v - m) 0 && Qltb (k * k * radicand s) ((v - m) * (v - m)).

(** The real number a [sigma] stands for. *)
Definition sigmaR (s : sigma) : R := sqrt (Q2R (radicand s)).

(** ** Data model *)

Record point : Type := { Date : Z; Count : Q }.

(** Array read [a[i]]: [undefined] outside [0 .. length-1]. *)
Definition get {A : Type} (a : list A) (i : Z) : option A :=
  if i <? 0 then None else a !! Z.to_nat i.

(** [a.slice(start, end)], with JavaScript's handling of negative and
    overlong bounds. *)
Definition slice {A : Type} (a : list A) (start stop : Z) : list A :=
  let n := Z.of_nat (length a) in
  let from := if start <? 0 then Z.max (n + start) 0 else Z.min start n in
  let to := if stop <? 0 then Z.max (n + stop) 0 else Z.min stop n in
  take (Z.to_nat (to - from)) (drop (Z.to_nat from) a).

(** *** The signal catalog [SignalEnum] *)

Inductive SignalId : Type :=
| EIGHT_OVER_MEAN
| EIGHT_UNDER_MEAN
| TWO_OVER_TWO
| TWO_UNDER_TWO
| THREE_OVER_ONE_FIVE
| THREE_UNDER_ONE_FIVE
| ONE_OVER_THREE
| ONE_UNDER_THREE.

#[global] Instance SignalId_eq_dec : EqDecision SignalId.
Proof. solve_decision. Defined.

Definition SignalId_code (s : SignalId) : positive :=
  match s with
  | EIGHT_OVER_MEAN => 1
  | EIGHT_UNDER_MEAN => 2
  | TWO_OVER_TWO => 3
  | TWO_UNDER_TWO => 4
  | THREE_OVER_ONE_FIVE => 5
  | THREE_UNDER_ONE_FIVE => 6
  | ONE_OVER_THREE => 7
  | ONE_UNDER_THREE => 8
  end%positive.

Definition SignalId_decode (p : positive) : option SignalId :=
  match p with
  | 1 => Some EIGHT_OVER_MEAN
  | 2 => Some EIGHT_UNDER_MEAN
  | 3 => Some TWO_OVER_TWO
  | 4 => Some TWO_UNDER_TWO
  | 5 => Some THREE_OVER_ONE_FIVE
  | 6 => Some THREE_UNDER_ONE_FIVE
  | 7 => Some ONE_OVER_THREE
  | 8 => Some ONE_UNDER_THREE
  | _ => None
  end%positive.

#[global] Program Instance SignalId_countable : Countable SignalId :=
  {| encode := SignalId_code; decode := SignalId_decode |}.
Next Obligation. by intros []. Qed.

(** The keys of [SignalEnum] in the order [for (let i in SignalEnum)]
    visits them (insertion order). *)
Definition SignalEnum : list SignalId :=
  [ EIGHT_OVER_MEAN; EIGHT_UNDER_MEAN; TWO_OVER_TWO; TWO_UNDER_TWO;
    THREE_OVER_ONE_FIVE; THREE_UNDER_ONE_FIVE; ONE_OVER_THREE;
    ONE_UNDER_THREE ].

(** Field ["length"]. *)
Definition sig_length (s : SignalId) : Z :=
  match s with
  | EIGHT_OVER_MEAN | EIGHT_UNDER_MEAN => 8
  | TWO_OVER_TWO | TWO_UNDER_TWO => 2
  | THREE_OVER_ONE_FIVE | THREE_UNDER_ONE_FIVE => 3
  | ONE_OVER_THREE | ONE_UNDER_THREE => 1
  end.

(** Field ["index"]. *)
Definition sig_index (s : SignalId) : Z :=
  match s with
  | EIGHT_OVER_MEAN => 4
  | EIGHT_UNDER_MEAN => 3
  | TWO_OVER_TWO => 6
  | TWO_UNDER_TWO => 1
  | THREE_OVER_ONE_FIVE => 5
  | THREE_UNDER_ONE_FIVE => 2
  | ONE_OVER_THREE => 7
  | ONE_UNDER_THREE => 0
  end.

(** [v > mean + sd * k]; NaN as soon as [mean] or [sd] is [undefined]. *)
Definition over (k : Q) (v : Q) (mean : option Q) (sd : option sigma) : bool :=
  match mean, sd with
  | Some m, Some s => gt_sigma v m s k
  | _, _ => false
  end.

(** [v < mean - sd * k]. *)
Definition under (k : Q) (v : Q) (mean : option Q) (sd : option sigma) : bool :=
  match mean, sd with
  | Some m, Some s => lt_sigma v m s k
  | _, _ => false
  end.

(** Field ["rule"].  The two 8-run rules never read [sd]. *)
Definition rule (s : SignalId) (v : Q) (mean : option Q) (sd : option sigma) : bool :=
  match s with
  | EIGHT_OVER_MEAN => match mean with Some m => Qltb m v | None => false end
  | EIGHT_UNDER_MEAN => match mean with Some m => Qltb v m | None => false end
  | TWO_OVER_TWO => over 2 v mean sd
  | TWO_UNDER_TWO => under 2 v mean sd
  | THREE_OVER_ONE_FIVE => over (3 # 2) v mean sd
  | THREE_UNDER_ONE_FIVE => under (3 # 2) v mean sd
  | ONE_OVER_THREE => over 3 v mean sd
  | ONE_UNDER_THREE => under 3 v mean sd
  end.

(** *** Processes *)

Record process : Type := Process {
  startIndex : Z;
  endIndex : Z;
  cap : Z;
  pmean : option Q;                (* field [mean] *)
  psd : option sigma;              (* field [sd] *)
  signals : gmap Z SignalId;
  startDate : option Z;
  endDate : option Z
}.

Definition set_endIndex (e : Z) (p : process) : process :=
  {| startIndex := startIndex p; endIndex := e; cap := cap p;
     pmean := pmean p; psd := psd p; signals := signals p;
     startDate := startDate p; endDate := endDate p |}.

Definition set_signals (sg : gmap Z SignalId) (p : process) : process :=
  {| startIndex := startIndex p; endIndex := endIndex p; cap := cap p;
     pmean := pmean p; psd := psd p; signals := sg;
     startDate := startDate p; endDate := endDate p |}.

Definition set_dates (sd ed : Z) (p : process) : process :=
  {| startIndex := startIndex p; endIndex := endIndex p; cap := cap p;
     pmean := pmean p; psd := psd p; signals := signals p;
     startDate := Some sd; endDate := Some ed |}.

Record stats : Type := { stats_mean : option Q; stats_sd : option sigma }.

Definition set_stats (st : stats) (p : process) : process :=
  {| startIndex := startIndex p; endIndex := endIndex p; cap := cap p;
     pmean := stats_mean st; psd := stats_sd st; signals := signals p;
     startDate := startDate p; endDate := endDate p |}.

(** In-place update of [processes[i]]; [i] is in range wherever it is
    used. *)
Definition modify (i : nat) (f : process -> process) (ps : list process) : list process :=
  match ps !! i with
  | Some p => <[i := f p]> ps
  | None => ps
  end.

(** ** Statistics *)

Definition sumQ (l : list Q) : Q := foldr Qplus 0%Q l.

(** [d3.mean(data, d => d.Count)]: [undefined] on an empty array. *)
Definition mean (data : list point) : option Q :=
  match data with
  | [] => None
  | _ => Some (sumQ (map Count data) / inject_Z (Z.of_nat (length data)))%Q
  end.

(** The unbiased sample variance under [d3.deviation]. *)
Definition variance (m : Q) (data : list point) : Q :=
  (sumQ (map (fun d => (Count d - m) * (Count d - m)) data)
   / inject_Z (Z.of_nat (length data) - 1))%Q.

(** [d3.deviation(data, d => d.Count)]: [undefined] on fewer than two
    values. *)
Definition sd (data : list point) : option sigma :=
  match mean data with
  | Some m => if (length data <? 2)%nat then None else Some (Sqrt (variance m data))
  | None => None
  end.

Definition isEmpty (obj : gset Z) : bool := bool_decide (obj = ∅).

(** The [for (let i = start; i < end; i++)] loop of [summaryStatistics],
    [cnt] iterations from [i]; it throws on [data[i]] undefined. *)
Fixpoint collect (data : list point) (datesToExclude : gset Z)
    (cnt : nat) (i : Z) (tmpData : list point) : result (list point) :=
  match cnt with
  | O => Ok tmpData
  | S cnt' =>
      match get data i with
      | None => TypeError
      | Some d =>
          collect data datesToExclude cnt' (i + 1)
            (if bool_decide (Date d ∈ datesToExclude) then tmpData else tmpData ++ [d])
      end
  end.

(** [stats] keeps its initial [{mean: 0, sd: 0}] when the loop of the
    second branch has no iteration. *)
Definition summaryStatistics (data : list point) (datesToExclude : gset Z)
    (start end_ : Z) : result stats :=
  let stop := end_ + 1 in
  if isEmpty datesToExclude then
    Ok {| stats_mean := mean (slice data start stop);
          stats_sd := sd (slice data start stop) |}
  else if start <? stop then
    tmpData ← collect data datesToExclude (Z.to_nat (stop - start)) start [];
    Ok {| stats_mean := mean tmpData; stats_sd := sd tmpData |}
  else Ok {| stats_mean := Some 0%Q; stats_sd := Some (Sqrt 0) |}.

(** ** Processes and run trackers *)

Definition createProcess (processes : list process) (index : Z) (cap : Z)
    : list process :=
  let endIndex := index + sig_length EIGHT_OVER_MEAN in
  let endIndex := if (cap >? -1) && (endIndex >? cap) then cap else endIndex in
  let processes := processes ++ [Process index endIndex cap None None ∅ None None] in
  if (1 <? length processes)%nat
  then modify (length processes - 2) (set_endIndex (index - 1)) processes
  else processes.

(** One step of the [forEach] of [addSignalToTracker]. *)
Definition record_signal (signalType : SignalId) (signals : gmap Z SignalId) (d : Z)
    : gmap Z SignalId :=
  match signals !! d with
  | Some old =>
      if sig_length signalType <? sig_length old
      then <[d := signalType]> signals
      else signals
  | None => <[d := signalType]> signals
  end.

Definition addSignalToTracker (signals : gmap Z SignalId)
    (signalTracker : gmap SignalId (list Z)) (signalType : SignalId)
    : result (gmap Z SignalId) :=
  match signalTracker !! signalType with
  | None => TypeError
  | Some run =>
      if sig_length signalType <=? Z.of_nat (length run)
      then Ok (foldl (record_signal signalType) signals run)
      else Ok signals
  end.

Definition clearSignal (signals : gmap Z SignalId)
    (signalTracker : gmap SignalId (list Z)) (signalType : SignalId)
    : result (gmap Z SignalId * gmap SignalId (list Z)) :=
  signals ← addSignalToTracker signals signalTracker signalType;
  Ok (signals, <[signalType := []]> signalTracker).

(** [new Date(id) < new Date(autoDetectUntil)]; an [undefined] bound is an
    invalid date and compares [false]. *)
Definition date_lt (id : Z) (autoDetectUntil : option Z) : bool :=
  match autoDetectUntil with
  | Some u => id <? u
  | None => false
  end.

Definition incrementSignal (signalTracker : gmap SignalId (list Z))
    (signalType : SignalId) (id : Z) (processes : list process) (index : Z)
    (autoDetectProcess : bool) (autoDetectUntil : option Z)
    : result (gmap SignalId (list Z) * list process * bool) :=
  match signalTracker !! signalType with
  | None => TypeError
  | Some run =>
      let run := run ++ [id] in
      let signalTracker := <[signalType := run]> signalTracker in
      if (bool_decide (signalType = EIGHT_OVER_MEAN)
          || bool_decide (signalType = EIGHT_UNDER_MEAN))
         && (Z.of_nat (length run) =? sig_length EIGHT_OVER_MEAN)
         && autoDetectProcess && date_lt id autoDetectUntil
      then Ok (signalTracker, createProcess processes index (-1), true)
      else Ok (signalTracker, processes, false)
  end.

(** [processes[i]], an exception when it is read as an object and is
    [undefined]. *)
Definition the_process (processes : list process) (i : nat) : result process :=
  match processes !! i with
  | Some p => Ok p
  | None => TypeError
  end.

(** The tracker after [for (let i in SignalEnum) signalTracker[...] = []]. *)
Definition fresh_tracker : gmap SignalId (list Z) :=
  foldl (fun tr s => <[s := []]> tr) ∅ SignalEnum.

(** ** The detector: [calculateSignals] *)

Section Engine.
(** The arguments that [calculateSignals] hands on unchanged. *)
Variable data : list point.
Variable autoDetectProcess : bool.
Variable autoDetectUntil : option Z.
Variable datesToExclude : gset Z.

(** The local [process] is an alias of [processes[pIndex]]: every read
    and write of it goes through the array. *)
Variable pIndex : nat.

(** [for (let i in SignalEnum)] at the point [d = data[j]], over the
    rules still to visit; the boolean is [processFound]. *)
Fixpoint scanRules (sigs : list SignalId) (d : point) (j : Z)
    (processes : list process) (signalTracker : gmap SignalId (list Z))
    : result (list process * gmap SignalId (list Z) * bool) :=
  match sigs with
  | [] => Ok (processes, signalTracker, false)
  | sig :: sigs' =>
      process ← the_process processes pIndex;
      if rule sig (Count d) (pmean process) (psd process) then
        '(signalTracker, processes, processFound) ←
          incrementSignal signalTracker sig (Date d) processes j
            (if j =? startIndex process then false else autoDetectProcess)
            autoDetectUntil;
        if processFound : bool then Ok (processes, signalTracker, true)
        else scanRules sigs' d j processes signalTracker
      else
        '(signals, signalTracker) ← clearSignal (signals process) signalTracker sig;
        scanRules sigs' d j (modify pIndex (set_signals signals) processes) signalTracker
  end.

(** [for (var j = process.endIndex; j >= process.startIndex; --j)], with
    [cnt] indices still to visit from [j] downwards. *)
Fixpoint scan (cnt : nat) (j : Z)
    (processes : list process) (signalTracker : gmap SignalId (list Z))
    : result (list process * gmap SignalId (list Z) * bool) :=
  match cnt with
  | O => Ok (processes, signalTracker, false)
  | S cnt' =>
      match get data j with
      | None => TypeError
      | Some d =>
          if bool_decide (Date d ∈ datesToExclude)
          then scan cnt' (j - 1) processes signalTracker
          else
            '(processes, signalTracker, processFound) ←
              scanRules SignalEnum d j processes signalTracker;
            if processFound : bool then Ok (processes, signalTracker, true)
            else scan cnt' (j - 1) processes signalTracker
      end
  end.

(** The guard of the [while] loop. *)
Definition continue (processFound : bool) (process : process) : bool :=
  negb processFound
  && (endIndex process <? Z.of_nat (length data) - 1)
  && ((cap process =? -1) || (endIndex process <? cap process)).

(** One iteration of the [while] loop. *)
Definition iteration (processes : list process)
    : result (list process * gmap SignalId (list Z) * bool) :=
  let processes :=
    modify pIndex (fun p => set_signals ∅ (set_endIndex (endIndex p + 1) p)) processes in
  process ← the_process processes pIndex;
  stats ← summaryStatistics data datesToExclude (startIndex process) (endIndex process);
  let processes := modify pIndex (set_stats stats) processes in
  '(processes, signalTracker, processFound) ←
    scan (Z.to_nat (endIndex process - startIndex process + 1)) (endIndex process)
      processes fresh_tracker;
  if processFound : bool then
    process ← the_process processes pIndex;
    stats ← summaryStatistics data datesToExclude (startIndex process) (endIndex process);
    Ok (modify pIndex (set_stats stats) processes, signalTracker, true)
  else Ok (processes, signalTracker, false).

(** The [while] loop; each iteration costs one unit of [fuel]. *)
Fixpoint loop (fuel : nat) (processes : list process)
    (signalTracker : gmap SignalId (list Z)) (processFound : bool)
    : result (list process * gmap SignalId (list Z) * bool) :=
  process ← the_process processes pIndex;
  if continue processFound process then
    match fuel with
    | O => OutOfFuel
    | S fuel' =>
        '(processes, signalTracker, processFound) ← iteration processes;
        loop fuel' processes signalTracker processFound
    end
  else Ok (processes, signalTracker, processFound).

(** The final flush, over the rules still to visit. *)
Fixpoint flush (sigs : list SignalId) (processes : list process)
    (signalTracker : gmap SignalId (list Z)) : result (list process) :=
  match sigs with
  | [] => Ok processes
  | val :: sigs' =>
      if bool_decide (is_Some (signalTracker !! val)) then
        process ← the_process processes pIndex;
        signals ← addSignalToTracker (signals process) signalTracker val;
        flush sigs' (modify pIndex (set_signals signals) processes) signalTracker
      else flush sigs' processes signalTracker
  end.

(** The body of [calculateSignals] up to the recursive call. *)
Definition detect (fuel : nat) (processes : list process)
    : result (list process * bool) :=
  _ ← the_process processes pIndex;
  let processes := modify pIndex (set_signals ∅) processes in
  let processes :=
    modify pIndex
      (fun p => set_endIndex
                  (if endIndex p >=? Z.of_nat (length data)
                   then Z.of_nat (length data) - 2
                   else endIndex p - 1) p) processes in
  '(processes, signalTracker, processFound) ← loop fuel processes ∅ false;
  processes ← flush SignalEnum processes signalTracker;
  Ok (processes, processFound).
End Engine.

(** [calculateSignals(data, processes, pIndex, autoDetectProcess,
    autoDetectUntil, datesToExclude)]; a recursive call costs one unit of
    [fuel], and the [while] loop of a call runs on what is left. *)
Fixpoint calculateSignals (fuel : nat) (data : list point) (processes : list process)
    (pIndex : nat) (autoDetectProcess : bool) (autoDetectUntil : option Z)
    (datesToExclude : gset Z) : result (list process) :=
  match fuel with
  | O => OutOfFuel
  | S fuel' =>
      '(processes, processFound) ←
        detect data autoDetectProcess autoDetectUntil datesToExclude pIndex fuel' processes;
      if (processFound : bool) || (Z.of_nat pIndex <? Z.of_nat (length processes) - 1)
      then calculateSignals fuel' data processes (pIndex + 1)
             autoDetectProcess autoDetectUntil datesToExclude
      else Ok processes
  end.

(** ** Entry points *)

(** The keys of the [properties] bag that the engine reads. *)
Record properties : Type := {
  manualProcesses : list Z;
  autoDetectProcess : bool;
  autoDetectUntil : option Z;      (* [None]: key absent *)
  datesToExclude : gset Z
}.

(** [d3.max]: [undefined] on an empty array. *)
Definition d3_max (l : list Z) : option Z :=
  match l with
  | [] => None
  | x :: l' => Some (foldl Z.max x l')
  end.

(** Defaults for absent keys, [manualProcesses] sorted ascending. *)
Definition configureProperties (props : properties) (data : list point) : properties :=
  {| manualProcesses := merge_sort Z.le (manualProcesses props);
     autoDetectProcess := autoDetectProcess props;
     autoDetectUntil :=
       match autoDetectUntil props with
       | Some u => Some u
       | None => d3_max (map Date data)
       end;
     datesToExclude := datesToExclude props |}.

Definition getSignals (fuel : nat) (data : list point) (props : properties)
    : result (list process) :=
  let props := configureProperties props data in
  let processes := createProcess [] 0 (-1) in
  calculateSignals fuel data processes 0
    (autoDetectProcess props) (autoDetectUntil props) (datesToExclude props).

(** The loop of [displayChart] over [properties.manualProcesses]. *)
Fixpoint manualBreaks (data : list point) (manual : list Z) (prev : Z)
    (processes : list process) : list process :=
  match manual with
  | [] => processes
  | p :: manual' =>
      let processes := createProcess processes prev (p - 1) in
      let processes :=
        match manual' with
        | [] => createProcess processes p (Z.of_nat (length data) - 1)
        | _ => processes
        end in
      manualBreaks data manual' p processes
  end.

(** The initial process list of [displayChart]. *)
Definition initialProcesses (data : list point) (props : properties) : list process :=
  if (length (manualProcesses props) =? 0)%nat || autoDetectProcess props
  then createProcess [] 0 (-1)
  else manualBreaks data (manualProcesses props) 0 [].

Definition by_date (a b : point) : Prop := Date a <= Date b.

#[global] Instance by_date_dec : RelDecision by_date.
Proof. intros a b. unfold by_date. apply _. Defined.

(** [process.startDate = data[process.startIndex].Date] and the same for
    [endDate], for each process in turn. *)
Fixpoint processDates (data : list point) (processes : list process)
    : result (list process) :=
  match processes with
  | [] => Ok []
  | process :: processes' =>
      match get data (startIndex process), get data (endIndex process) with
      | Some ds, Some de =>
          processes' ← processDates data processes';
          Ok (set_dates (Date ds) (Date de) process :: processes')
      | _, _ => TypeError
      end
  end.

(** The data processing of [displayChart]: everything but the drawing. *)
Definition displayChart (fuel : nat) (data : list point) (props : properties)
    : result (list process) :=
  let props := configureProperties props data in
  let data := merge_sort by_date data in
  let processes := initialProcesses data props in
  processes ← calculateSignals fuel data processes 0
    (autoDetectProcess props) (autoDetectUntil props) (datesToExclude props);
  processDates data processes.

(** ** Vocabulary of the properties *)

(** The catalog in the order of the table: ascending severity rank. *)
Definition catalog_by_rank : list SignalId :=
  [ ONE_UNDER_THREE; TWO_UNDER_TWO; THREE_UNDER_ONE_FIVE; EIGHT_UNDER_MEAN;
    EIGHT_OVER_MEAN; THREE_OVER_ONE_FIVE; TWO_OVER_TWO; ONE_OVER_THREE ].

(** Every rule has its (possibly empty) run in the tracker: the state of
    [signalTracker] after the reset that opens an iteration. *)
Definition tracker_full (tr : gmap SignalId (list Z)) : Prop :=
  forall sig : SignalId, is_Some (tr !! sig).

Definition is_eight (sig : SignalId) : bool :=
  bool_decide (sig = EIGHT_OVER_MEAN) || bool_decide (sig = EIGHT_UNDER_MEAN).

(** The test of [incrementSignal] on the run just extended. *)
Definition breaks (sig : SignalId) (run : list Z) (id : Z)
    (auto : bool) (until : option Z) : bool :=
  is_eight sig && (Z.of_nat (length run) =? sig_length EIGHT_OVER_MEAN)
  && auto && date_lt id until.

(** What [addSignalToTracker] does to [signals] for the run [run]. *)
Definition record_run (sig : SignalId) (sg : gmap Z SignalId) (run : list Z)
    : gmap Z SignalId :=
  if sig_length sig <=? Z.of_nat (length run)
  then foldl (record_signal sig) sg run
  else sg.

(** *** The scan as the current process sees it

    During one scan the current process keeps its [startIndex], [mean] and
    [sd]; only its [signals] and the tracker move, until a break index is
    found.  [rulesL] and [scanL] are [scanRules] and [scan] on that view
    ([scanRules_local], [scan_local]). *)
Section Local.
Variable data : list point.
Variable auto : bool.
Variable until : option Z.
Variable excl : gset Z.
Variable s : Z.
Variable m : option Q.
Variable sdv : option sigma.

Fixpoint rulesL (sigs : list SignalId) (d : point) (j : Z)
    (sg : gmap Z SignalId) (tr : gmap SignalId (list Z))
    : gmap Z SignalId * gmap SignalId (list Z) * bool :=
  match sigs with
  | [] => (sg, tr, false)
  | sig :: sigs' =>
      if rule sig (Count d) m sdv then
        let run := tr !!! sig ++ [Date d] in
        if breaks sig run (Date d) (if j =? s then false else auto) until
        then (sg, <[sig := run]> tr, true)
        else rulesL sigs' d j sg (<[sig := run]> tr)
      else rulesL sigs' d j (record_run sig sg (tr !!! sig)) (<[sig := []]> tr)
  end.

Fixpoint scanL (cnt : nat) (j : Z)
    (sg : gmap Z SignalId) (tr : gmap SignalId (list Z))
    : result (gmap Z SignalId * gmap SignalId (list Z) * option Z) :=
  match cnt with
  | O => Ok (sg, tr, None)
  | S cnt' =>
      match get data j with
      | None => TypeError
      | Some d =>
          if bool_decide (Date d ∈ excl) then scanL cnt' (j - 1) sg tr
          else
            let '(sg', tr', found) := rulesL SignalEnum d j sg tr in
            if found : bool then Ok (sg', tr', Some j)
            else scanL cnt' (j - 1) sg' tr'
      end
  end.
End Local.

(** The process array after a scan of [processes[pIndex] = p] that left the
    signals [sg] and found the break [brk]. *)
Definition settle (pIndex : nat) (p : process) (ps : list process)
    (sg : gmap Z SignalId) (brk : option Z) : list process :=
  let ps' := <[pIndex := set_signals sg p]> ps in
  match brk with
  | Some j => createProcess ps' j (-1)
  | None => ps'
  end.

(** The final flush on the signals of the current process. *)
Definition flushL (sigs : list SignalId) (sg : gmap Z SignalId)
    (tr : gmap SignalId (list Z)) : gmap Z SignalId :=
  foldl (fun sg sig =>
           match tr !! sig with
           | Some run => record_run sig sg run
           | None => sg
           end) sg sigs.

(** What a break found by the scan guarantees. *)
Definition break_at (data : list point) (auto : bool) (until : option Z)
    (excl : gset Z) (s : Z) (m : option Q) (sdv : option sigma)
    (tr' : gmap SignalId (list Z)) (j : Z) : Prop :=
  j ≠ s ∧ auto = true ∧
  (∃ (d : point) (sig : SignalId) (run : list Z),
     get data j = Some d ∧ (Date d ∉ excl) ∧
     date_lt (Date d) until = true ∧
     (sig = EIGHT_OVER_MEAN ∨ sig = EIGHT_UNDER_MEAN) ∧
     rule sig (Count d) m sdv = true ∧
     tr' !! sig = Some run ∧ Z.of_nat (length run) = sig_length sig ∧
     last run = Some (Date d)).

Definition new_process (index cap : Z) : process :=
  let e := index + sig_length EIGHT_OVER_MEAN in
  Process index (if (cap >? -1) && (e >? cap) then cap else e) cap None None ∅ None None.

(** [sg], [tr] are what the last scan of the call on [p] left. *)
Definition last_scan (data : list point) (auto : bool) (until : option Z)
    (excl : gset Z) (sg : gmap Z SignalId) (tr : gmap SignalId (list Z))
    (p : process) : Prop :=
  ∃ m sdv e brk,
    scanL data auto until excl (startIndex p) m sdv
      (Z.to_nat (e - startIndex p + 1)) e ∅ fresh_tracker = Ok (sg, tr, brk) ∧
    match brk with
    | None => m = pmean p ∧ sdv = psd p ∧ e = endIndex p
    | Some j => endIndex p = j - 1
    end.

(** The signals a finished call leaves: the last scan, from the reset
    state, then the final flush.  Without a break the scan ran over the
    final segment with the final statistics. *)
Definition settled (data : list point) (auto : bool) (until : option Z)
    (excl : gset Z) (p : process) : Prop :=
  cap p = -1 ∧
  ∃ sg1 tr1, last_scan data auto until excl sg1 tr1 p ∧
             signals p = flushL SignalEnum sg1 tr1.

Fixpoint chain (from : Z) (ps : list process) (to : Z) : Prop :=
  match ps with
  | [] => False
  | p :: ps' =>
      startIndex p = from ∧
      match ps' with
      | [] => endIndex p = to
      | _ :: _ => from <= endIndex p ∧ chain (endIndex p + 1) ps' to
      end
  end.

Definition partitions (n : Z) (ps : list process) : Prop :=
  (∃ p, head ps = Some p ∧ startIndex p = 0) ∧
  (∀ i p q, ps !! i = Some p -> ps !! S i = Some q ->
            startIndex p <= endIndex p ∧ startIndex q = endIndex p + 1) ∧
  (∃ p, last ps = Some p ∧ endIndex p = n - 1) ∧
  (∀ k, 0 <= k < n ->
        ∃ i p, ps !! i = Some p ∧ startIndex p <= k <= endIndex p ∧
               ∀ i' p', ps !! i' = Some p' ->
                        startIndex p' <= k <= endIndex p' -> i' = i).

(** A break index: automatic detection is on and the point there is inside
    the detection window and not excluded. *)
Definition eligible (data : list point) (auto : bool) (until : option Z)
    (excl : gset Z) (j : Z) : Prop :=
  auto = true ∧
  ∃ d, get data j = Some d ∧ (Date d ∉ excl) ∧ date_lt (Date d) until = true.

(** ** Concrete series used as examples *)

(** The series with the given counts, dated 1, 2, 3, ... *)
Definition series (counts : list Q) : list point :=
  imap (fun i v => {| Date := Z.of_nat i + 1; Count := v |}) counts.

(** Sixteen points: eight at 10, then eight at 12. *)
Definition step_series : list point :=
  series (replicate 8 10%Q ++ replicate 8 12%Q).

(** Sixteen points: eight at 0, then 1, then seven at 100. *)
Definition uneven_series : list point :=
  series (replicate 8 0%Q ++ [1%Q] ++ replicate 7 100%Q).

(** Eighteen points: ten at 10, seven at 9, then 0. *)
Definition dip_series : list point :=
  series (replicate 10 10%Q ++ replicate 7 9%Q ++ [0%Q]).

(** The bounds of each process. *)
Definition bounds (ps : list process) : list (Z * Z) :=
  map (fun p => (startIndex p, endIndex p)) ps.

(** A process fresh from [createProcess]. *)
Definition blank (s e c : Z) : process := Process s e c None None ∅ None None.

(** No excluded date is a key of [sg] or sits in a run of [tr]. *)
Definition excl_free (excl : gset Z) (sg : gmap Z SignalId)
    (tr : gmap SignalId (list Z)) : Prop :=
  (∀ t, t ∈ excl -> sg !! t = None) ∧
  (∀ sig run t, tr !! sig = Some run -> t ∈ run -> t ∉ excl).

(** The non-excluded points at the indices [start .. end_]. *)
Definition in_range (data : list point) (excl : gset Z) (start end_ : Z) : list point :=
  filter (fun d => Date d ∉ excl)
    (take (Z.to_nat (end_ - start + 1)) (drop (Z.to_nat start) data)).

(** *** Where a scan breaks

    A break depends on the two 8-run rules alone, hence on the mean, the
    dates and the lengths of the two runs: [find_break] is the scan with
    everything else erased ([scanL_find_break]), and [seek] is the [while]
    loop on top of it ([loop_last]). *)
Section Breaks.
Variable data : list point.
Variable auto : bool.
Variable until : option Z.
Variable excl : gset Z.
Variable s : Z.

(** One non-excluded point: [ov], [un] are the outcomes of the two 8-run
    rules, [el] says whether a break is allowed here, [o], [u] are the
    lengths of the two runs. *)
Definition step8 (ov un el : bool) (o u : nat) : bool * nat * nat :=
  let o1 := if ov then S o else O in
  if ov && (o1 =? 8)%nat && el then (true, o1, u)
  else
    let u1 := if un then S u else O in
    if un && (u1 =? 8)%nat && el then (true, o1, u1) else (false, o1, u1).

Definition allowed (j : Z) (d : point) : bool :=
  (if j =? s then false else auto) && date_lt (Date d) until.

Fixpoint find_break (m : option Q) (cnt : nat) (j : Z) (o u : nat) : option Z :=
  match cnt with
  | O => None
  | S cnt' =>
      match get data j with
      | None => None
      | Some d =>
          if bool_decide (Date d ∈ excl) then find_break m cnt' (j - 1) o u
          else
            let '(found, o', u') :=
              step8 (rule EIGHT_OVER_MEAN (Count d) m None)
                    (rule EIGHT_UNDER_MEAN (Count d) m None)
                    (allowed j d) o u in
            if found : bool then Some j else find_break m cnt' (j - 1) o' u'
      end
  end.

(** The break index, if any, that the [while] loop finds when it starts
    with [endIndex = e]. *)
Fixpoint seek (fuel : nat) (e : Z) : option Z :=
  if e <? Z.of_nat (length data) - 1 then
    match fuel with
    | O => None
    | S fuel' =>
        match summaryStatistics data excl s (e + 1) with
        | Ok st =>
            match find_break (stats_mean st) (Z.to_nat (e + 1 - s + 1)) (e + 1) 0 0 with
            | Some j => Some j
            | None => seek fuel' (e + 1)
            end
        | _ => None
        end
    end
  else None.
End Breaks.

(** The series with the given dates and counts. *)
Definition points (dates : list Z) (counts : list Q) : list point :=
  zip_with (fun t v => {| Date := t; Count := v |}) dates counts.

(** ** Other functions of [spc.js] *)

(** [signalIsBelow(sig)]: [SignalEnum[sig].rule(0, 1, 0)]. *)
Definition signalIsBelow (sig : SignalId) : bool :=
  rule sig 0%Q (Some 1%Q) (Some (Sqrt 0)).

(** The [properties] bag with another [datesToExclude]. *)
Definition set_datesToExclude (excl : gset Z) (props : properties) : properties :=
  {| manualProcesses := manualProcesses props;
     autoDetectProcess := autoDetectProcess props;
     autoDetectUntil := autoDetectUntil props;
     datesToExclude := excl |}.

(** The [properties] bag with another [manualProcesses]. *)
Definition set_manualProcesses (manual : list Z) (props : properties) : properties :=
  {| manualProcesses := manual;
     autoDetectProcess := autoDetectProcess props;
     autoDetectUntil := autoDetectUntil props;
     datesToExclude := datesToExclude props |}.

(** The click handler of a data point, [d1] being the date it carries:
    what it does to [properties] before it redraws the chart. *)
Definition clickPoint (props : properties) (d1 : Z) : properties :=
  if bool_decide (d1 ∈ datesToExclude props)
  then set_datesToExclude (datesToExclude props ∖ {[d1]}) props
  else set_datesToExclude (datesToExclude props ∪ {[d1]}) props.

(** The click handler of the chart, [xDate] being the index that
    [d3.bisector(...).right(data, x, 1)] returned and [dates] the array
    [properties.dates]: what it does to [properties] before it redraws the
    chart (under automatic detection it only raises an alert). *)
Definition clickChart (props : properties) (dates : list Z) (xDate : Z) : properties :=
  if autoDetectProcess props then props
  else if bool_decide (xDate ∉ manualProcesses props)
          && (xDate <? Z.of_nat (length dates))
       then set_manualProcesses (manualProcesses props ++ [xDate]) props
       else props.

(** The [for (let v in properties.manualProcesses)] loop of the click
    handler of a breakpoint circle, [cnt] keys still to visit from [v]: a key
    that a [splice] has removed meanwhile is not visited, and the redraw
    after a [splice] sorts the array again. *)
Fixpoint removeLoop (val : Z) (cnt : nat) (v : nat) (manual : list Z) : list Z :=
  match cnt with
  | O => manual
  | S cnt' =>
      match manual !! v with
      | None => removeLoop val cnt' (S v) manual
      | Some b =>
          if b =? val
          then removeLoop val cnt' (S v) (merge_sort Z.le (delete v manual))
          else removeLoop val cnt' (S v) manual
      end
  end.

(** The click handler of the circle of the breakpoint [val]: what it does
    to [properties]. *)
Definition clickBreak (props : properties) (val : Z) : properties :=
  set_manualProcesses
    (removeLoop val (length (manualProcesses props)) 0 (manualProcesses props)) props.

(** Manual breakpoints as the chart click handler lets them be: distinct
    indices from 1 to the last index of a series of [n] points. *)
Definition valid_breaks (n : Z) (manual : list Z) : Prop :=
  NoDup manual ∧ Forall (fun p => 1 <= p < n) manual.

(** *** What the signals of a process say *)

(** The point [d] meets the rule of [sig]. *)
Definition sat (m : option Q) (sdv : option sigma) (sig : SignalId) (d : point) : Prop :=
  rule sig (Count d) m sdv = true.

(** [t] dates a point of a run of at least [sig_length sig] consecutive
    points of [pts] that all meet the rule of [sig]. *)
Definition in_run (m : option Q) (sdv : option sigma) (sig : SignalId)
    (pts : list point) (t : Z) : Prop :=
  ∃ l1 b l2, pts = l1 ++ b ++ l2 ∧ t ∈ map Date b ∧
             sig_length sig <= Z.of_nat (length b) ∧ Forall (sat m sdv sig) b.

(** The run of [sig] that is open after the points [l] were visited. *)
Definition cur (m : option Q) (sdv : option sigma) (sig : SignalId)
    (l : list point) : list point :=
  foldl (fun run d => if rule sig (Count d) m sdv then run ++ [d] else []) [] l.

(** The non-excluded points that a scan of [cnt] indices from [j] downwards
    visits, in the order of the visit. *)
Fixpoint visited (data : list point) (excl : gset Z) (cnt : nat) (j : Z) : list point :=
  match cnt with
  | O => []
  | S cnt' =>
      match get data j with
      | None => []
      | Some d =>
          (if bool_decide (Date d ∈ excl) then [] else [d])
            ++ visited data excl cnt' (j - 1)
      end
  end.

(** The points visited so far, rule by rule, after [d] was handed to [sig]. *)
Definition upd (P : SignalId -> list point) (sig : SignalId) (d : point)
    : SignalId -> list point :=
  fun s => if decide (s = sig) then P sig ++ [d] else P s.

(** The state of a scan, [P sig] being the points handed to [sig] so far:
    each tracker holds the open run of its rule; an entry of [signals] lies
    in a long enough run of its rule; and every long enough run that is
    closed has its points entered, under a rule at most as long. *)
Definition classified (m : option Q) (sdv : option sigma)
    (P : SignalId -> list point) (sg : gmap Z SignalId)
    (tr : gmap SignalId (list Z)) : Prop :=
  (∀ sig, tr !! sig = Some (map Date (cur m sdv sig (P sig)))) ∧
  (∀ t sig, sg !! t = Some sig -> in_run m sdv sig (P sig) t) ∧
  (∀ sig l1 b l2 t,
     P sig = l1 ++ b ++ l2 -> Forall (sat m sdv sig) b ->
     sig_length sig <= Z.of_nat (length b) -> t ∈ map Date b ->
     Forall (sat m sdv sig) l2
     ∨ ∃ sig', sg !! t = Some sig' ∧ sig_length sig' <= sig_length sig).

(** [t] is the date of a non-excluded point at an index of [lo .. hi]. *)
Definition dated (data : list point) (excl : gset Z) (lo hi : Z) (t : Z) : Prop :=
  ∃ k d, lo <= k <= hi ∧ get data k = Some d ∧ Date d = t ∧ (t ∉ excl).

(** Every date entered in [sg] or held in a run of [tr] meets [P]. *)
Definition all_dated (P : Z -> Prop) (sg : gmap Z SignalId)
    (tr : gmap SignalId (list Z)) : Prop :=
  (∀ t sig, sg !! t = Some sig -> P t) ∧
  (∀ sig run t, tr !! sig = Some run -> t ∈ run -> P t).

(** The [mean] and [sd] of [p] are the statistics of its range. *)
Definition stats_of (data : list point) (excl : gset Z) (p : process) : Prop :=
  summaryStatistics data excl (startIndex p) (endIndex p)
    = Ok {| stats_mean := pmean p; stats_sd := psd p |}.

(** What the call of [calculateSignals] on [p] left in it: the signals are
    those of its last scan, run from the reset state over
    [startIndex p .. e] against the statistics of that range, then flushed.
    Without a break the scan covered the final range of [p]; with a break
    at [j] it stopped there, and [p] was cut back to [j - 1]. *)
Definition scanned_by (data : list point) (auto : bool) (until : option Z)
    (excl : gset Z) (p : process) (brk : option Z) : Prop :=
  stats_of data excl p ∧
  ∃ st e sg tr,
    summaryStatistics data excl (startIndex p) e = Ok st ∧
    scanL data auto until excl (startIndex p) (stats_mean st) (stats_sd st)
      (Z.to_nat (e - startIndex p + 1)) e ∅ fresh_tracker = Ok (sg, tr, brk) ∧
    signals p = flushL SignalEnum sg tr ∧
    e <= Z.of_nat (length data) - 1 ∧ (cap p = -1 ∨ e <= cap p) ∧
    match brk with
    | None => endIndex p = e
    | Some j => endIndex p = j - 1
    end.

(** A list of processes each cut by the break that started the next one,
    but for the last, which no break cut. *)
Fixpoint scanned_chain (data : list point) (auto : bool) (until : option Z)
    (excl : gset Z) (ps : list process) : Prop :=
  match ps with
  | [] => False
  | p :: ps' =>
      match ps' with
      | [] => scanned_by data auto until excl p None
      | q :: _ =>
          scanned_by data auto until excl p (Some (startIndex q))
          ∧ scanned_chain data auto until excl ps'
      end
  end.

(** The signals of [p] are exact against its own [mean] and [sd] over the
    non-excluded points of its range. *)
Definition exact_signals (data : list point) (excl : gset Z) (p : process) : Prop :=
  let pts := in_range data excl (startIndex p) (endIndex p) in
  (∀ t sig, signals p !! t = Some sig -> in_run (pmean p) (psd p) sig pts t) ∧
  (∀ t sig, in_run (pmean p) (psd p) sig pts t ->
            ∃ sig', signals p !! t = Some sig' ∧ sig_length sig' <= sig_length sig).

(** *** Manual breakpoints *)

(** The process list that the loop of [displayChart] builds from the
    breakpoints [manual], the open process starting at [prev]. *)
Fixpoint manual_spec (n : Z) (prev : Z) (manual : list Z) : list process :=
  match manual with
  | [] => [new_process prev (n - 1)]
  | b :: rest => blank prev (b - 1) (b - 1) :: manual_spec n b rest
  end.

(** Strictly increasing from [prev] on. *)
Fixpoint increasing (prev : Z) (l : list Z) : Prop :=
  match l with
  | [] => True
  | b :: rest => prev < b ∧ increasing b rest
  end.

(** A capped process as the manual breakpoints make it. *)
Definition capped (n : Z) (p : process) : Prop :=
  0 <= startIndex p ∧ startIndex p <= endIndex p ∧ endIndex p <= cap p ∧ cap p <= n - 1.

(** [p'] is what a call of [calculateSignals] without detection makes of
    the capped process [p]. *)
Definition finished (data : list point) (until : option Z) (excl : gset Z)
    (p p' : process) : Prop :=
  startIndex p' = startIndex p ∧ cap p' = cap p ∧ endIndex p' = cap p ∧
  startDate p' = startDate p ∧ endDate p' = endDate p ∧
  scanned_by data false until excl p' None.

(** [p'] is [p] with the dates of its two ends. *)
Definition with_dates (data : list point) (p p' : process) : Prop :=
  ∃ ds de, get data (startIndex p) = Some ds ∧ get data (endIndex p) = Some de ∧
           p' = set_dates (Date ds) (Date de) p.

(** *** Series that differ at excluded points only *)

(** [data'] is [data] up to the counts of its excluded points. *)
Definition agree (excl : gset Z) (data data' : list point) : Prop :=
  Forall2 (fun d d' => Date d = Date d' ∧ (Date d ∉ excl -> d = d')) data data'.

(** * Properties *)

(** ** Numbers: the exact comparisons against the reals *)

Lemma Qltb_lt (x y : Q) : Qltb x y = true <-> (x < y)%Q.
Proof.
  unfold Qltb. rewrite negb_true_iff. split.
  - intros H. apply Qnot_le_lt. intros Hle. apply Qle_bool_iff in Hle. congruence.
  - intros H. destruct (Qle_bool y x) eqn:E; [|done].
    apply Qle_bool_iff in E. exfalso. eapply Qlt_not_le; eauto.
Qed.

Lemma Qltb_Rlt (x y : Q) : Qltb x y = true <-> (Q2R x < Q2R y)%R.
Proof. rewrite Qltb_lt. split; [apply Qlt_Rlt | apply Rlt_Qlt]. Qed.

Lemma sqrt_scaled_lt (r k a : R) :
  (0 <= k)%R -> ((sqrt r * k < a)%R <-> (0 < a)%R /\ (k * k * r < a * a)%R).
Proof.
  intros Hk. destruct (Rle_dec 0 r) as [Hr|Hr].
  - pose proof (sqrt_pos r) as Hs. pose proof (sqrt_sqrt r Hr) as Hss.
    remember (sqrt r) as t eqn:Ht. clear Ht. subst r.
    assert (Htk : (0 <= t * k)%R) by (apply Rmult_le_pos; assumption).
    replace (k * k * (t * t))%R with ((t * k) * (t * k))%R by ring.
    remember (t * k)%R as u eqn:Hu. clear Hu. split.
    + intros H. split; [lra|]. apply Rmult_le_0_lt_compat; lra.
    + intros [H1 H2]. destruct (Rlt_dec u a) as [|Hn]; [assumption|].
      exfalso. assert (a * a <= u * u)%R by (apply Rmult_le_compat; lra). lra.
  - rewrite sqrt_neg_0 by lra. rewrite Rmult_0_l. split.
    + intros H. split; [lra|].
      assert (0 <= k * k)%R by (apply Rmult_le_pos; assumption).
      assert (0 < a * a)%R by (apply Rmult_lt_0_compat; assumption).
      assert (k * k * r <= 0)%R; [|lra].
      rewrite <- (Rmult_0_r (k * k)). apply Rmult_le_compat_l; lra.
    + intros [H1 H2]. lra.
Qed.

(** [gt_sigma] is [v > mean + sd * k] over the reals. *)
Lemma gt_sigma_real (v m : Q) (s : sigma) (k : Q) :
  (0 <= k)%Q ->
  gt_sigma v m s k = true <-> (Q2R m + sigmaR s * Q2R k < Q2R v)%R.
Proof.
  intros Hk. apply Qle_Rle in Hk. rewrite RMicromega.Q2R_0 in Hk.
  unfold gt_sigma, sigmaR. rewrite andb_true_iff, !Qltb_Rlt.
  rewrite !Q2R_mult, !Q2R_minus, RMicromega.Q2R_0.
  pose proof (sqrt_scaled_lt (Q2R (radicand s)) (Q2R k) (Q2R v - Q2R m) Hk) as E.
  split; intros H; [apply E in H | apply E]; lra.
Qed.

(** [lt_sigma] is [v < mean - sd * k] over the reals. *)
Lemma lt_sigma_real (v m : Q) (s : sigma) (k : Q) :
  (0 <= k)%Q ->
  lt_sigma v m s k = true <-> (Q2R v < Q2R m - sigmaR s * Q2R k)%R.
Proof.
  intros Hk. apply Qle_Rle in Hk. rewrite RMicromega.Q2R_0 in Hk.
  unfold lt_sigma, sigmaR. rewrite andb_true_iff, !Qltb_Rlt.
  rewrite !Q2R_mult, !Q2R_minus, RMicromega.Q2R_0.
  pose proof (sqrt_scaled_lt (Q2R (radicand s)) (Q2R k) (Q2R m - Q2R v) Hk) as E.
  replace ((Q2R m - Q2R v) * (Q2R m - Q2R v))%R
    with ((Q2R v - Q2R m) * (Q2R v - Q2R m))%R in E by ring.
  destruct E as [E1 E2]. split; intros H.
  - assert (sqrt (Q2R (radicand s)) * Q2R k < Q2R m - Q2R v)%R; [|lra].
    apply E2. lra.
  - destruct E1; lra.
Qed.

Lemma Q2R_2 : Q2R 2 = 2%R.
Proof. unfold Q2R. simpl. lra. Qed.

Lemma Q2R_3 : Q2R 3 = 3%R.
Proof. unfold Q2R. simpl. lra. Qed.

Lemma Q2R_3_2 : Q2R (3 # 2) = 1.5%R.
Proof. unfold Q2R. simpl. lra. Qed.

(** ** The rule catalog *)


(** ** Records and array updates *)

Lemma set_signals_id (p : process) : set_signals (signals p) p = p.
Proof. by destruct p. Qed.

Lemma set_signals_twice (sg sg' : gmap Z SignalId) (p : process) :
  set_signals sg' (set_signals sg p) = set_signals sg' p.
Proof. done. Qed.

Lemma modify_lookup (i : nat) (f : process -> process) (ps : list process) (p : process) :
  ps !! i = Some p -> modify i f ps = <[i := f p]> ps.
Proof. intros H. unfold modify. by rewrite H. Qed.

Lemma the_process_lookup (ps : list process) (i : nat) (p : process) :
  ps !! i = Some p -> the_process ps i = Ok p.
Proof. intros H. unfold the_process. by rewrite H. Qed.

Lemma insert_lookup_same (i : nat) (p q : process) (ps : list process) :
  ps !! i = Some p -> <[i := q]> ps !! i = Some q.
Proof.
  intros H. apply list_lookup_insert_eq. by eapply lookup_lt_Some.
Qed.

Lemma length_createProcess (ps : list process) (index cap : Z) :
  length (createProcess ps index cap) = S (length ps).
Proof.
  unfold createProcess, modify.
  repeat case_match; rewrite ?length_insert, length_app; simpl; lia.
Qed.

(** ** The scan on the current process *)

Lemma tracker_full_insert (tr : gmap SignalId (list Z)) (sig : SignalId) (run : list Z) :
  tracker_full tr -> tracker_full (<[sig := run]> tr).
Proof.
  intros H sig'. destruct (decide (sig = sig')) as [->|Hne].
  - rewrite lookup_insert_eq. eauto.
  - rewrite lookup_insert_ne by done. apply H.
Qed.

Lemma tracker_full_fresh : tracker_full fresh_tracker.
Proof. intros []; vm_compute; eauto. Qed.

Lemma lookup_total_full (tr : gmap SignalId (list Z)) (sig : SignalId) :
  tracker_full tr -> tr !! sig = Some (tr !!! sig).
Proof.
  intros H. destruct (H sig) as [run E]. by rewrite lookup_total_alt, E.
Qed.

Lemma incrementSignal_local (tr : gmap SignalId (list Z)) (sig : SignalId) (id : Z)
    (ps : list process) (index : Z) (auto : bool) (until : option Z) :
  tracker_full tr ->
  incrementSignal tr sig id ps index auto until =
    let run := tr !!! sig ++ [id] in
    let found := breaks sig run id auto until in
    Ok (<[sig := run]> tr, if found then createProcess ps index (-1) else ps, found).
Proof.
  intros H. unfold incrementSignal, breaks, is_eight.
  rewrite (lookup_total_full tr sig H). simpl. by case_match.
Qed.

Lemma clearSignal_local (sg : gmap Z SignalId) (tr : gmap SignalId (list Z)) (sig : SignalId) :
  tracker_full tr ->
  clearSignal sg tr sig = Ok (record_run sig sg (tr !!! sig), <[sig := []]> tr).
Proof.
  intros H. unfold clearSignal, addSignalToTracker, record_run.
  rewrite (lookup_total_full tr sig H). by case_match.
Qed.

Lemma rulesL_full auto until s m sdv sigs d j sg tr sg' tr' found :
  tracker_full tr ->
  rulesL auto until s m sdv sigs d j sg tr = (sg', tr', found) ->
  tracker_full tr'.
Proof.
  revert sg tr. induction sigs as [|sig sigs IH]; intros sg tr Hf; simpl.
  - intros [= <- <- <-]. done.
  - repeat case_match; try (intros [= <- <- <-]); eauto using tracker_full_insert.
Qed.

Lemma scanRules_local auto until pIndex sigs d j ps tr p :
  tracker_full tr ->
  ps !! pIndex = Some p ->
  scanRules auto until pIndex sigs d j ps tr =
    let '(sg', tr', found) :=
      rulesL auto until (startIndex p) (pmean p) (psd p) sigs d j (signals p) tr in
    Ok (settle pIndex p ps sg' (if found then Some j else None), tr', found).
Proof.
  revert ps tr p. induction sigs as [|sig sigs IH]; intros ps tr p Hf Hp; simpl.
  - unfold settle. rewrite set_signals_id, list_insert_id; done.
  - rewrite (the_process_lookup _ _ _ Hp). simpl.
    destruct (rule sig (Count d) (pmean p) (psd p)).
    + rewrite incrementSignal_local by done. simpl.
      destruct (breaks _ _ _ _ _) eqn:Eb; simpl.
      * unfold settle. rewrite set_signals_id, list_insert_id; done.
      * apply IH; eauto using tracker_full_insert.
    + rewrite clearSignal_local by done. simpl.
      rewrite (modify_lookup _ _ _ _ Hp).
      rewrite (IH _ _ (set_signals (record_run sig (signals p) (tr !!! sig)) p));
        eauto using tracker_full_insert, insert_lookup_same.
      simpl. destruct (rulesL _ _ _ _ _ _ _ _ _ _) as [[sg' tr'] found].
      unfold settle. by rewrite list_insert_insert_eq.
Qed.

Lemma scan_local data auto until excl pIndex cnt j ps tr p :
  tracker_full tr ->
  ps !! pIndex = Some p ->
  scan data auto until excl pIndex cnt j ps tr =
    '(sg', tr', brk) ←
      scanL data auto until excl (startIndex p) (pmean p) (psd p) cnt j (signals p) tr;
    Ok (settle pIndex p ps sg' brk, tr', bool_decide (is_Some brk)).
Proof.
  revert j ps tr p. induction cnt as [|cnt IH]; intros j ps tr p Hf Hp; cbn [scan scanL].
  - simpl. unfold settle. rewrite set_signals_id, list_insert_id; done.
  - destruct (get data j) as [d|]; [|done].
    case_bool_decide; [by apply IH|].
    rewrite (scanRules_local _ _ _ _ _ _ _ _ p) by done.
    destruct (rulesL _ _ _ _ _ _ _ _ _ _) as [[sg' tr'] found] eqn:Er. simpl.
    destruct found; [done|].
    unfold settle at 1.
    rewrite (IH _ _ _ (set_signals sg' p));
      eauto using rulesL_full, insert_lookup_same.
    simpl. destruct (scanL _ _ _ _ _ _ _ _ _ _ _) as [[[sg'' tr''] brk]| |]; simpl; try done.
    unfold settle. by rewrite list_insert_insert_eq.
Qed.

Lemma flush_local pIndex sigs ps tr p :
  ps !! pIndex = Some p ->
  flush pIndex sigs ps tr = Ok (<[pIndex := set_signals (flushL sigs (signals p) tr) p]> ps).
Proof.
  revert ps p. induction sigs as [|sig sigs IH]; intros ps p Hp; simpl.
  - rewrite set_signals_id, list_insert_id; done.
  - case_bool_decide as Hs.
    + destruct Hs as [run Hrun].
      rewrite (the_process_lookup _ _ _ Hp). simpl.
      unfold addSignalToTracker, flushL. simpl. rewrite Hrun. unfold record_run.
      destruct (sig_length sig <=? Z.of_nat (length run)); simpl;
        rewrite (modify_lookup _ _ _ _ Hp);
        erewrite IH by eauto using insert_lookup_same;
        simpl; by rewrite list_insert_insert_eq.
    + rewrite (IH _ p Hp). unfold flushL. simpl.
      assert (tr !! sig = None) as ->; [|done].
      destruct (tr !! sig) eqn:E; [|done]. exfalso. apply Hs. eauto.
Qed.

Lemma breaks_true sig run id auto until :
  breaks sig run id auto until = true ->
  (sig = EIGHT_OVER_MEAN ∨ sig = EIGHT_UNDER_MEAN) ∧
  Z.of_nat (length run) = sig_length sig ∧ auto = true ∧ date_lt id until = true.
Proof.
  unfold breaks, is_eight. rewrite !andb_true_iff, orb_true_iff, !bool_decide_eq_true.
  intros [[[He Hl] Ha] Hd]. apply Z.eqb_eq in Hl.
  repeat split; try done. by destruct He as [-> | ->].
Qed.

Lemma rulesL_break auto until s m sdv sigs d j sg tr sg' tr' :
  rulesL auto until s m sdv sigs d j sg tr = (sg', tr', true) ->
  j ≠ s ∧ auto = true ∧ date_lt (Date d) until = true ∧
  ∃ (sig : SignalId) (run : list Z),
    (sig = EIGHT_OVER_MEAN ∨ sig = EIGHT_UNDER_MEAN) ∧
    rule sig (Count d) m sdv = true ∧
    tr' !! sig = Some run ∧ Z.of_nat (length run) = sig_length sig ∧
    last run = Some (Date d).
Proof.
  revert sg tr. induction sigs as [|sig sigs IH]; intros sg tr; simpl; [done|].
  destruct (rule sig (Count d) m sdv) eqn:Er; [|by apply IH].
  destruct (breaks _ _ _ _ _) eqn:Eb; [|by apply IH].
  intros [= <- <-]. apply breaks_true in Eb as (He & Hl & Ha & Hd).
  destruct (j =? s) eqn:Ej; [done|]. apply Z.eqb_neq in Ej.
  repeat split; try done. exists sig, (tr !!! sig ++ [Date d]).
  repeat split; try done.
  - by rewrite lookup_insert_eq.
  - by rewrite last_snoc.
Qed.

Lemma scanL_break data auto until excl s m sdv cnt j sg tr sg' tr' j' :
  scanL data auto until excl s m sdv cnt j sg tr = Ok (sg', tr', Some j') ->
  j - Z.of_nat cnt < j' <= j ∧ break_at data auto until excl s m sdv tr' j'.
Proof.
  revert j sg tr. induction cnt as [|cnt IH]; intros j sg tr; cbn [scanL]; [done|].
  destruct (get data j) as [d|] eqn:Ed; [|done].
  case_bool_decide as Hx.
  - intros H. apply IH in H as [? ?]. split; [lia|done].
  - destruct (rulesL _ _ _ _ _ _ _ _ _ _) as [[sg1 tr1] found] eqn:Er.
    destruct found.
    + intros [= <- <- <-]. apply rulesL_break in Er as (? & ? & ? & sig & run & ?).
      split; [lia|]. split; [done|]. split; [done|]. exists d, sig, run.
      destruct H2 as (? & ? & ? & ? & ?). repeat split; done.
    + intros H. apply IH in H as [? ?]. split; [lia|done].
Qed.

(** The scan cannot throw when every index it visits is in the series. *)
Lemma scanL_ok data auto until excl s m sdv cnt j sg tr :
  (cnt ≠ 0%nat -> 0 <= j - Z.of_nat cnt + 1 ∧ j < Z.of_nat (length data)) ->
  ∃ r, scanL data auto until excl s m sdv cnt j sg tr = Ok r.
Proof.
  revert j sg tr. induction cnt as [|cnt IH]; intros j sg tr H; cbn [scanL]; [eauto|].
  destruct H as [H0 Hn]; [done|].
  assert (Hg : is_Some (get data j)).
  { unfold get. destruct (j <? 0) eqn:E; [lia|]. apply lookup_lt_is_Some. lia. }
  destruct Hg as [d ->]. case_bool_decide.
  - apply IH; lia.
  - destruct (rulesL _ _ _ _ _ _ _ _ _ _) as [[sg1 tr1] found]. destruct found; [eauto|].
    apply IH; lia.
Qed.

Lemma scanL_fuel data auto until excl s m sdv cnt j sg tr :
  scanL data auto until excl s m sdv cnt j sg tr ≠ OutOfFuel.
Proof.
  revert j sg tr. induction cnt as [|cnt IH]; intros j sg tr; cbn [scanL]; [done|].
  destruct (get data j); [|done]. case_bool_decide; [apply IH|].
  destruct (rulesL _ _ _ _ _ _ _ _ _ _) as [[sg1 tr1] found]. destruct found; [done|apply IH].
Qed.

Lemma scanL_full data auto until excl s m sdv cnt j sg tr sg' tr' brk :
  tracker_full tr ->
  scanL data auto until excl s m sdv cnt j sg tr = Ok (sg', tr', brk) ->
  tracker_full tr'.
Proof.
  revert j sg tr. induction cnt as [|cnt IH]; intros j sg tr Hf; cbn [scanL].
  - by intros [= <- <- <-].
  - destruct (get data j); [|done]. case_bool_decide; [by apply IH|].
    destruct (rulesL _ _ _ _ _ _ _ _ _ _) as [[sg1 tr1] found] eqn:Er.
    apply rulesL_full in Er; [|done]. destruct found; [by intros [= <- <- <-]|by apply IH].
Qed.

(** ** Statistics never run out of budget, and never throw in range *)

Lemma collect_ok data excl cnt i tmp :
  0 <= i -> i + Z.of_nat cnt <= Z.of_nat (length data) ->
  ∃ r, collect data excl cnt i tmp = Ok r.
Proof.
  revert i tmp. induction cnt as [|cnt IH]; intros i tmp H0 Hn; simpl; [eauto|].
  assert (Hg : is_Some (get data i)).
  { unfold get. destruct (i <? 0) eqn:E; [lia|]. apply lookup_lt_is_Some. lia. }
  destruct Hg as [d ->]. apply IH; lia.
Qed.

Lemma collect_fuel data excl cnt i tmp : collect data excl cnt i tmp ≠ OutOfFuel.
Proof.
  revert i tmp. induction cnt as [|cnt IH]; intros i tmp; simpl; [done|].
  destruct (get data i); [apply IH|done].
Qed.

Lemma summaryStatistics_ok data excl start end_ :
  0 <= start -> end_ < Z.of_nat (length data) ->
  ∃ st, summaryStatistics data excl start end_ = Ok st.
Proof.
  intros H0 Hn. unfold summaryStatistics.
  destruct (isEmpty excl); [eauto|].
  destruct (start <? end_ + 1) eqn:E; [|eauto].
  destruct (collect_ok data excl (Z.to_nat (end_ + 1 - start)) start []) as [r ->];
    [lia|lia|]. simpl. eauto.
Qed.

Lemma summaryStatistics_fuel data excl start end_ :
  summaryStatistics data excl start end_ ≠ OutOfFuel.
Proof.
  unfold summaryStatistics. destruct (isEmpty excl); [done|].
  destruct (start <? end_ + 1); [|done].
  pose proof (collect_fuel data excl (Z.to_nat (end_ + 1 - start)) start []) as H.
  destruct (collect _ _ _ _ _); done.
Qed.

(** ** Where a scan breaks *)

(** The rules after the two 8-run rules never break and never touch the
    two 8-run trackers. *)
Lemma rulesL_others auto until s m sdv sigs d j sg tr sg' tr' found :
  Forall (fun sig => is_eight sig = false) sigs ->
  rulesL auto until s m sdv sigs d j sg tr = (sg', tr', found) ->
  found = false ∧
  tr' !!! EIGHT_OVER_MEAN = tr !!! EIGHT_OVER_MEAN ∧
  tr' !!! EIGHT_UNDER_MEAN = tr !!! EIGHT_UNDER_MEAN.
Proof.
  revert sg tr. induction sigs as [|sig sigs IH]; intros sg tr Hall; simpl.
  - by intros [= <- <- <-].
  - apply Forall_cons in Hall as [Hsig Hall].
    assert (Hne : sig ≠ EIGHT_OVER_MEAN ∧ sig ≠ EIGHT_UNDER_MEAN)
      by (split; intros ->; done).
    destruct Hne as [Hno Hnu].
    assert (Hb : ∀ run id a, breaks sig run id a until = false)
      by (intros; unfold breaks; by rewrite Hsig).
    rewrite Hb. intros H.
    destruct (rule sig (Count d) m sdv); apply IH in H as (-> & -> & ->); try done;
      by rewrite !lookup_total_insert_ne.
Qed.

Lemma rulesL_cons auto until s m sdv sig sigs d j sg tr :
  rulesL auto until s m sdv (sig :: sigs) d j sg tr =
    if rule sig (Count d) m sdv then
      if breaks sig (tr !!! sig ++ [Date d]) (Date d)
           (if j =? s then false else auto) until
      then (sg, <[sig := tr !!! sig ++ [Date d]]> tr, true)
      else rulesL auto until s m sdv sigs d j sg (<[sig := tr !!! sig ++ [Date d]]> tr)
    else rulesL auto until s m sdv sigs d j
           (record_run sig sg (tr !!! sig)) (<[sig := []]> tr).
Proof. done. Qed.

Lemma breaks_eight sig (run : list Z) id auto until s j d :
  is_eight sig = true -> id = Date d ->
  breaks sig run id (if j =? s then false else auto) until
    = (length run =? 8)%nat && allowed auto until s j d.
Proof.
  intros Hs ->. unfold breaks, allowed. rewrite Hs. cbn [andb].
  change (sig_length EIGHT_OVER_MEAN) with 8. rewrite <- andb_assoc. f_equal.
  destruct (Nat.eqb_spec (length run) 8);
    [apply Z.eqb_eq; lia | apply Z.eqb_neq; lia].
Qed.

(** Closes a leaf of [rulesL_step8]: the run lengths after the inserts. *)
Ltac run_lengths :=
  rewrite ?lookup_total_insert_eq, ?lookup_total_insert_ne by done;
  rewrite ?lookup_total_insert_eq, ?lookup_total_insert_ne by done;
  rewrite ?length_app; cbn [length];
  repeat match goal with x := _ |- _ => subst x end;
  repeat f_equal; lia.

Lemma rulesL_step8 auto until s m sdv d j sg tr sg' tr' found :
  rulesL auto until s m sdv SignalEnum d j sg tr = (sg', tr', found) ->
  step8 (rule EIGHT_OVER_MEAN (Count d) m None) (rule EIGHT_UNDER_MEAN (Count d) m None)
        (allowed auto until s j d)
        (length (tr !!! EIGHT_OVER_MEAN)) (length (tr !!! EIGHT_UNDER_MEAN))
    = (found, length (tr' !!! EIGHT_OVER_MEAN), length (tr' !!! EIGHT_UNDER_MEAN)).
Proof.
  assert (Hothers : Forall (fun sig => is_eight sig = false)
                      [TWO_OVER_TWO; TWO_UNDER_TWO; THREE_OVER_ONE_FIVE;
                       THREE_UNDER_ONE_FIVE; ONE_OVER_THREE; ONE_UNDER_THREE])
    by (repeat constructor).
  unfold SignalEnum. rewrite rulesL_cons.
  change (rule EIGHT_OVER_MEAN (Count d) m sdv) with (rule EIGHT_OVER_MEAN (Count d) m None).
  rewrite (breaks_eight EIGHT_OVER_MEAN _ _ _ _ _ _ d) by done.
  unfold step8. rewrite length_app. cbn [length].
  replace (length (tr !!! EIGHT_OVER_MEAN) + 1)%nat
    with (S (length (tr !!! EIGHT_OVER_MEAN))) by lia.
  set (o := length (tr !!! EIGHT_OVER_MEAN)).
  set (u := length (tr !!! EIGHT_UNDER_MEAN)).
  set (el := allowed auto until s j d).
  destruct (rule EIGHT_OVER_MEAN (Count d) m None) eqn:Eo; cbn [andb].
  - destruct ((S o =? 8)%nat && el) eqn:Eb1.
    { intros [= <- <- <-]. run_lengths. }
    rewrite rulesL_cons.
    change (rule EIGHT_UNDER_MEAN (Count d) m sdv)
      with (rule EIGHT_UNDER_MEAN (Count d) m None).
    rewrite (breaks_eight EIGHT_UNDER_MEAN _ _ _ _ _ _ d) by done.
    rewrite length_app, lookup_total_insert_ne by done. cbn [length]. fold u el.
    replace (u + 1)%nat with (S u) by lia.
    destruct (rule EIGHT_UNDER_MEAN (Count d) m None) eqn:Eu; cbn [andb].
    + destruct ((S u =? 8)%nat && el) eqn:Eb2.
      { intros [= <- <- <-]. run_lengths. }
      intros H. apply (rulesL_others _ _ _ _ _ _ _ _ _ _ _ _ _ Hothers) in H as (-> & -> & ->).
      run_lengths.
    + intros H. apply (rulesL_others _ _ _ _ _ _ _ _ _ _ _ _ _ Hothers) in H as (-> & -> & ->).
      run_lengths.
  - rewrite rulesL_cons.
    change (rule EIGHT_UNDER_MEAN (Count d) m sdv)
      with (rule EIGHT_UNDER_MEAN (Count d) m None).
    rewrite (breaks_eight EIGHT_UNDER_MEAN _ _ _ _ _ _ d) by done.
    rewrite length_app, lookup_total_insert_ne by done. cbn [length]. fold u el.
    replace (u + 1)%nat with (S u) by lia.
    destruct (rule EIGHT_UNDER_MEAN (Count d) m None) eqn:Eu; cbn [andb].
    + destruct ((S u =? 8)%nat && el) eqn:Eb2.
      { intros [= <- <- <-]. run_lengths. }
      intros H. apply (rulesL_others _ _ _ _ _ _ _ _ _ _ _ _ _ Hothers) in H as (-> & -> & ->).
      run_lengths.
    + intros H. apply (rulesL_others _ _ _ _ _ _ _ _ _ _ _ _ _ Hothers) in H as (-> & -> & ->).
      run_lengths.
Qed.

Lemma scanL_find_break data auto until excl s m sdv cnt j sg tr sg' tr' brk :
  scanL data auto until excl s m sdv cnt j sg tr = Ok (sg', tr', brk) ->
  brk = find_break data auto until excl s m cnt j
          (length (tr !!! EIGHT_OVER_MEAN)) (length (tr !!! EIGHT_UNDER_MEAN)).
Proof.
  revert j sg tr. induction cnt as [|cnt IH]; intros j sg tr; cbn [scanL find_break].
  - by intros [= <- <- <-].
  - destruct (get data j) as [d|]; [|done]. case_bool_decide; [apply IH|].
    destruct (rulesL _ _ _ _ _ _ _ _ _ _) as [[sg1 tr1] found] eqn:Er.
    apply rulesL_step8 in Er. rewrite Er.
    destruct found; [by intros [= <- <- <-]|apply IH].
Qed.

Lemma fresh_tracker_lengths :
  length (fresh_tracker !!! EIGHT_OVER_MEAN) = 0%nat ∧
  length (fresh_tracker !!! EIGHT_UNDER_MEAN) = 0%nat.
Proof. by vm_compute. Qed.

(** ** One iteration of the [while] loop *)

Lemma iteration_local data auto until excl pIndex ps p :
  ps !! pIndex = Some p ->
  iteration data auto until excl pIndex ps =
    let e := endIndex p + 1 in
    st ← summaryStatistics data excl (startIndex p) e;
    '(sg', tr', brk) ←
      scanL data auto until excl (startIndex p) (stats_mean st) (stats_sd st)
        (Z.to_nat (e - startIndex p + 1)) e ∅ fresh_tracker;
    let p' := Process (startIndex p) e (cap p) (stats_mean st) (stats_sd st) sg'
                (startDate p) (endDate p) in
    match brk with
    | None => Ok (<[pIndex := p']> ps, tr', false)
    | Some j =>
        let ps' := createProcess (<[pIndex := p']> ps) j (-1) in
        q ← the_process ps' pIndex;
        st2 ← summaryStatistics data excl (startIndex q) (endIndex q);
        Ok (modify pIndex (set_stats st2) ps', tr', true)
    end.
Proof.
  intros Hp. unfold iteration.
  rewrite (modify_lookup _ _ _ _ Hp).
  rewrite (the_process_lookup _ _ (set_signals ∅ (set_endIndex (endIndex p + 1) p)))
    by eauto using insert_lookup_same.
  cbn [mbind result_bind startIndex endIndex set_signals set_endIndex].
  destruct (summaryStatistics _ _ _ _) as [st| |]; [|done|done].
  cbn [mbind result_bind].
  erewrite modify_lookup by eauto using insert_lookup_same.
  rewrite list_insert_insert_eq.
  erewrite scan_local; [|apply tracker_full_fresh|eauto using insert_lookup_same].
  cbn [mbind result_bind startIndex endIndex set_signals set_endIndex set_stats
       pmean psd signals cap startDate endDate].
  destruct (scanL _ _ _ _ _ _ _ _ _ _ _) as [[[sg' tr'] brk]| |]; [|done|done].
  cbn [mbind result_bind]. unfold settle. rewrite list_insert_insert_eq.
  destruct brk as [j|]; simpl; done.
Qed.

(** ** [createProcess] *)

Lemma lookup_snoc_last (done : list process) (p : process) :
  (done ++ [p]) !! length done = Some p.
Proof. by apply list_lookup_middle. Qed.

Lemma insert_snoc_last (done : list process) (p q : process) :
  <[length done := q]> (done ++ [p]) = done ++ [q].
Proof.
  replace (length done) with (length done + 0)%nat by lia.
  by rewrite insert_app_r.
Qed.

Lemma createProcess_nil (index cap : Z) :
  createProcess [] index cap = [new_process index cap].
Proof. done. Qed.

Lemma createProcess_snoc (done : list process) (p : process) (index cap : Z) :
  createProcess (done ++ [p]) index cap =
    done ++ [set_endIndex (index - 1) p; new_process index cap].
Proof.
  unfold createProcess. fold (new_process index cap).
  rewrite !length_app. simpl.
  replace (1 <? length done + 1 + 1)%nat with true
    by (symmetry; apply Nat.ltb_lt; lia).
  replace (length done + 1 + 1 - 2)%nat with (length done) by lia.
  rewrite <- app_assoc. simpl. unfold modify.
  rewrite (list_lookup_middle done [new_process index cap] p (length done) eq_refl).
  replace (length done) with (length done + 0)%nat at 1 by lia.
  by rewrite insert_app_r.
Qed.

(** ** The [while] loop on the last process of the array *)

Lemma lookup_snoc2 (done : list process) (q r : process) :
  (done ++ [q; r]) !! length done = Some q.
Proof. by apply list_lookup_middle. Qed.

Lemma insert_snoc2 (done : list process) (q q' r : process) :
  <[length done := q']> (done ++ [q; r]) = done ++ [q'; r].
Proof.
  replace (length done) with (length done + 0)%nat by lia.
  by rewrite insert_app_r.
Qed.

Lemma loop_last data auto until excl done fuel p tr :
  let n := Z.of_nat (length data) in
  cap p = -1 -> 0 <= startIndex p -> endIndex p <= n - 1 ->
  (Z.to_nat (n - 1 - endIndex p) <= fuel)%nat ->
  ∃ p' tr',
    startIndex p' = startIndex p ∧ cap p' = -1 ∧
    (endIndex p < n - 1 -> last_scan data auto until excl (signals p') tr' p') ∧
    (endIndex p = n - 1 -> p' = p ∧ tr' = tr) ∧
    ((seek data auto until excl (startIndex p) fuel (endIndex p) = None ∧
      loop data auto until excl (length done) fuel (done ++ [p]) tr false
        = Ok (done ++ [p'], tr', false) ∧ endIndex p' = n - 1)
     ∨ (∃ j, seek data auto until excl (startIndex p) fuel (endIndex p) = Some j ∧
          startIndex p < j <= n - 1 ∧ endIndex p' = j - 1 ∧ auto = true ∧
          loop data auto until excl (length done) fuel (done ++ [p]) tr false
            = Ok (done ++ [p'; new_process j (-1)], tr', true))).
Proof.
  intros n. revert p tr. induction fuel as [|fuel IH]; intros p tr Hcap Hs He Hfuel.
  - assert (endIndex p = n - 1) as Hlast by lia.
    exists p, tr. repeat split; try done; try lia. left.
    cbn [loop seek]. rewrite (the_process_lookup _ _ _ (lookup_snoc_last done p)).
    cbn [mbind result_bind]. unfold continue. fold n.
    replace (endIndex p <? n - 1) with false by (symmetry; apply Z.ltb_ge; lia).
    by rewrite andb_false_r.
  - cbn [loop seek]. rewrite (the_process_lookup _ _ _ (lookup_snoc_last done p)).
    cbn [mbind result_bind]. unfold continue. fold n. rewrite Hcap. simpl.
    destruct (endIndex p <? n - 1) eqn:Elt.
    2:{ apply Z.ltb_ge in Elt. exists p, tr. repeat split; try done; try lia.
        left. split; [done|]. split; [done|lia]. }
    apply Z.ltb_lt in Elt. cbn [andb].
    rewrite (iteration_local _ _ _ _ _ _ _ (lookup_snoc_last done p)).
    cbv zeta.
    destruct (summaryStatistics_ok data excl (startIndex p) (endIndex p + 1))
      as [st Est]; [lia|fold n; lia|].
    rewrite Est. cbn [mbind result_bind].
    destruct (scanL_ok data auto until excl (startIndex p) (stats_mean st) (stats_sd st)
                (Z.to_nat (endIndex p + 1 - startIndex p + 1)) (endIndex p + 1)
                ∅ fresh_tracker) as [[[sg1 tr1] brk] Esc]; [fold n; lia|].
    rewrite Esc. cbn [mbind result_bind].
    rewrite insert_snoc_last.
    pose proof (scanL_find_break _ _ _ _ _ _ _ _ _ _ _ _ _ _ Esc) as Hfb.
    destruct fresh_tracker_lengths as [Hfo Hfu]. rewrite Hfo, Hfu in Hfb.
    rewrite <- Hfb.
    set (p1 := Process (startIndex p) (endIndex p + 1) (cap p) (stats_mean st)
                 (stats_sd st) sg1 (startDate p) (endDate p)).
    destruct brk as [j|].
    + pose proof Esc as Hbrk. apply scanL_break in Hbrk as [Hj (Hne & Hauto & _)].
      rewrite createProcess_snoc.
      rewrite (the_process_lookup _ _ _ (lookup_snoc2 done _ _)).
      cbn [mbind result_bind startIndex endIndex set_endIndex p1].
      destruct (summaryStatistics_ok data excl (startIndex p) (j - 1))
        as [st2 Est2]; [lia|fold n; lia|].
      rewrite Est2. cbn [mbind result_bind].
      rewrite (modify_lookup _ _ _ _ (lookup_snoc2 done _ _)), insert_snoc2.
      exists (set_stats st2 (set_endIndex (j - 1) p1)), tr1.
      split; [done|]. split; [done|]. split.
      { intros _. exists (stats_mean st), (stats_sd st), (endIndex p + 1), (Some j).
        split; [exact Esc|done]. }
      split; [lia|]. right. exists j. split; [done|]. split; [lia|].
      split; [done|]. split; [done|].
      destruct fuel; cbn [loop];
        rewrite (the_process_lookup _ _ _ (lookup_snoc2 done _ _)); done.
    + destruct (IH p1 tr1) as (p' & tr' & Hs' & Hc' & Hsc & Hid & Hres);
        try done; try (simpl; lia).
      exists p', tr'. split; [done|]. split; [done|]. split.
      { intros _. destruct (decide (endIndex p1 < n - 1)) as [Hl|Hl].
        - by apply Hsc.
        - destruct Hid as [-> ->]; [simpl in *; lia|].
          exists (stats_mean st), (stats_sd st), (endIndex p + 1), None.
          split; [exact Esc|done]. }
      split; [lia|]. done.
Qed.

(** ** One call of [calculateSignals] on the last process *)

Lemma detect_last data auto until excl done fuel p :
  let n := Z.of_nat (length data) in
  let e := if endIndex p >=? n then n - 2 else endIndex p - 1 in
  cap p = -1 -> 0 <= startIndex p -> 0 <= endIndex p ->
  (length data + 1 <= fuel)%nat ->
  ∃ p',
    startIndex p' = startIndex p ∧ settled data auto until excl p' ∧
    ((seek data auto until excl (startIndex p) fuel e = None ∧
      detect data auto until excl (length done) fuel (done ++ [p])
        = Ok (done ++ [p'], false) ∧ endIndex p' = n - 1)
     ∨ (∃ j, seek data auto until excl (startIndex p) fuel e = Some j ∧
          startIndex p < j <= n - 1 ∧ endIndex p' = j - 1 ∧ auto = true ∧
          detect data auto until excl (length done) fuel (done ++ [p])
            = Ok (done ++ [p'; new_process j (-1)], true))).
Proof.
  intros n e Hcap Hs He Hfuel. unfold detect.
  rewrite (the_process_lookup _ _ _ (lookup_snoc_last done p)).
  cbn [mbind result_bind].
  rewrite (modify_lookup _ _ _ _ (lookup_snoc_last done p)), insert_snoc_last.
  rewrite (modify_lookup _ _ _ _ (lookup_snoc_last done _)), insert_snoc_last.
  cbn [endIndex set_signals]. fold n. fold e.
  set (p0 := set_endIndex e (set_signals ∅ p)).
  assert (He' : e <= n - 2) by (unfold e; destruct (endIndex p >=? n) eqn:E; lia).
  assert (He'' : -2 <= e) by (unfold e; destruct (endIndex p >=? n) eqn:E; lia).
  clearbody e.
  destruct (loop_last data auto until excl done fuel p0 ∅)
    as (p1 & tr1 & Hs1 & Hc1 & Hsc & _ & Hres); try done.
  { simpl. lia. }
  { simpl. unfold n in *. lia. }
  specialize (Hsc ltac:(simpl; lia)). simpl in Hs1.
  set (p' := set_signals (flushL SignalEnum (signals p1) tr1) p1).
  exists p'. split; [done|]. split.
  { split; [done|]. exists (signals p1), tr1. split; [|done].
    destruct Hsc as (m & sdv & e1 & brk & Hsc & Hb). exists m, sdv, e1, brk.
    split; [exact Hsc|]. by destruct brk. }
  destruct Hres as [(Hseek & -> & Hend) | (j & Hseek & Hj & Hend & Hauto & ->)];
    cbn [mbind result_bind].
  - left. rewrite (flush_local _ _ _ _ _ (lookup_snoc_last done p1)), insert_snoc_last.
    done.
  - right. exists j. simpl in Hj.
    rewrite (flush_local _ _ _ _ _ (lookup_snoc2 done p1 _)), insert_snoc2.
    done.
Qed.

(** ** A larger budget never changes a result *)

Lemma loop_mono data auto until excl pIndex fuel fuel' ps tr found r :
  loop data auto until excl pIndex fuel ps tr found = r ->
  r ≠ OutOfFuel -> (fuel <= fuel')%nat ->
  loop data auto until excl pIndex fuel' ps tr found = r.
Proof.
  revert fuel' ps tr found. induction fuel as [|fuel IH]; intros fuel' ps tr found Hr Hne Hle.
  - destruct fuel'; [done|]. cbn [loop] in *.
    destruct (the_process ps pIndex) as [p| |]; cbn [mbind result_bind] in *; try done.
    destruct (continue data found p); [congruence|done].
  - destruct fuel' as [|fuel']; [lia|]. cbn [loop] in *.
    destruct (the_process ps pIndex) as [p| |]; cbn [mbind result_bind] in *; try done.
    destruct (continue data found p); [|done].
    destruct (iteration _ _ _ _ _ _) as [[[ps1 tr1] found1]| |];
      cbn [mbind result_bind] in *; try done.
    apply IH; [done|done|lia].
Qed.

Lemma detect_mono data auto until excl pIndex fuel fuel' ps r :
  detect data auto until excl pIndex fuel ps = r ->
  r ≠ OutOfFuel -> (fuel <= fuel')%nat ->
  detect data auto until excl pIndex fuel' ps = r.
Proof.
  unfold detect. intros Hr Hne Hle.
  destruct (the_process ps pIndex) as [p| |]; cbn [mbind result_bind] in *; try done.
  destruct (loop data auto until excl pIndex fuel _ _ _) as [[[ps1 tr1] found1]| |] eqn:El;
    cbn [mbind result_bind] in Hr.
  - by rewrite (loop_mono _ _ _ _ _ _ fuel' _ _ _ _ El).
  - by rewrite (loop_mono _ _ _ _ _ _ fuel' _ _ _ _ El).
  - congruence.
Qed.

Lemma calculateSignals_mono fuel fuel' data ps pIndex auto until excl r :
  calculateSignals fuel data ps pIndex auto until excl = r ->
  r ≠ OutOfFuel -> (fuel <= fuel')%nat ->
  calculateSignals fuel' data ps pIndex auto until excl = r.
Proof.
  revert fuel' ps pIndex. induction fuel as [|fuel IH]; intros fuel' ps pIndex Hr Hne Hle.
  - simpl in Hr. congruence.
  - destruct fuel' as [|fuel']; [lia|]. cbn [calculateSignals] in *.
    destruct (detect data auto until excl pIndex fuel ps) as [[ps1 found1]| |] eqn:Ed;
      cbn [mbind result_bind] in Hr.
    + rewrite (detect_mono _ _ _ _ _ _ fuel' _ _ Ed) by (done || lia).
      cbn [mbind result_bind]. destruct (_ || _); [|done]. apply IH; [done|done|lia].
    + rewrite (detect_mono _ _ _ _ _ _ fuel' _ _ Ed) by (done || lia). done.
    + congruence.
Qed.

Lemma returns_calculateSignals fuel data ps pIndex auto until excl r :
  calculateSignals fuel data ps pIndex auto until excl = Ok r ->
  returns (fun fuel => calculateSignals fuel data ps pIndex auto until excl) r.
Proof.
  intros H. exists fuel. intros fuel' Hle.
  by apply (calculateSignals_mono fuel fuel').
Qed.

Lemma returns_inj {A : Type} (f : nat -> result A) (r r' : A) :
  returns f r -> returns f r' -> r = r'.
Proof.
  intros [a Ha] [b Hb].
  specialize (Ha (max a b) ltac:(lia)). specialize (Hb (max a b) ltac:(lia)).
  congruence.
Qed.

(** ** The whole recursion, from the last process of the array *)

Lemma calc_last data auto until excl k :
  let n := Z.of_nat (length data) in
  ∀ done p fuel,
  cap p = -1 -> 0 <= startIndex p -> 0 <= endIndex p ->
  (Z.to_nat (n - startIndex p) <= k)%nat ->
  (k + length data + 2 <= fuel)%nat ->
  ∃ tail,
    calculateSignals fuel data (done ++ [p]) (length done) auto until excl
      = Ok (done ++ tail) ∧
    chain (startIndex p) tail (n - 1) ∧
    Forall (settled data auto until excl) tail ∧
    Z.of_nat (length tail) <= Z.max 1 (n - startIndex p) ∧
    (auto = false -> length tail = 1%nat) ∧
    (startIndex p <= n - 1 -> Forall (fun q => startIndex q <= n - 1) tail).
Proof.
  intros n. induction k as [k IH] using lt_wf_ind.
  intros done p fuel Hcap Hs He Hk Hfuel.
  destruct fuel as [|fuel]; [lia|]. cbn [calculateSignals].
  destruct (detect_last data auto until excl done fuel p Hcap Hs He ltac:(lia))
    as (p' & Hs' & Hset & [(_ & -> & Hend) | (j & _ & Hj & Hend & Hauto & ->)]);
    cbn [mbind result_bind].
  - rewrite length_app. simpl.
    replace (Z.of_nat (length done) <? Z.of_nat (length done + 1) - 1) with false
      by (symmetry; apply Z.ltb_ge; lia).
    exists [p']. split; [done|]. split; [done|]. split; [by apply Forall_singleton|].
    split; [simpl length; lia|]. split; [done|].
    intros Hle. apply Forall_singleton. lia.
  - simpl.
    replace (done ++ [p'; new_process j (-1)])
      with ((done ++ [p']) ++ [new_process j (-1)]) by (by rewrite <- app_assoc).
    replace (length done + 1)%nat with (length (done ++ [p']))
      by (rewrite length_app; simpl; lia).
    destruct (IH (Z.to_nat (n - j)) ltac:(unfold n in *; lia) (done ++ [p'])
                (new_process j (-1)) fuel)
      as (tail & Hrun & Hch & Hall & Hlen & Hone & Hup);
      try done; try (simpl; unfold n in *; lia).
    rewrite Hrun. exists (p' :: tail). rewrite <- app_assoc. split; [done|].
    simpl in Hch. split.
    { simpl. split; [done|]. destruct tail as [|q tail]; [done|].
      split; [lia|]. replace (endIndex p' + 1) with j by lia. done. }
    split; [by constructor|]. split.
    { simpl length. simpl in Hlen. unfold n in *. lia. }
    split; [congruence|].
    intros Hle. constructor; [lia|]. apply Hup. simpl. unfold n in *. lia.
Qed.

(** ** Chains of processes are partitions *)

Lemma chain_head from ps to :
  chain from ps to -> ∃ p, head ps = Some p ∧ startIndex p = from.
Proof. destruct ps as [|p ps]; simpl; [done|]. intros [? _]. eauto. Qed.

Lemma chain_last from ps to :
  chain from ps to -> ∃ p, last ps = Some p ∧ endIndex p = to.
Proof.
  revert from. induction ps as [|p ps IH]; intros from; simpl; [done|].
  intros [_ H]. destruct ps as [|q ps]; [eauto|].
  destruct H as [_ H]. apply IH in H as (r & Hr & ?). exists r. by rewrite last_cons, Hr.
Qed.

Lemma chain_adjacent from ps to i p q :
  chain from ps to -> ps !! i = Some p -> ps !! S i = Some q ->
  startIndex p <= endIndex p ∧ startIndex q = endIndex p + 1.
Proof.
  revert from i. induction ps as [|r ps IH]; intros from i; simpl; [done|].
  intros [Hr H] Hp Hq. destruct ps as [|r' ps]; [done|]. destruct H as [Hle H].
  destruct i as [|i].
  - simpl in Hp, Hq. injection Hp as ->. injection Hq as ->.
    simpl in H. destruct H as [? _]. lia.
  - by apply (IH _ i H).
Qed.

Lemma chain_lower from ps to i p :
  chain from ps to -> ps !! i = Some p -> from <= startIndex p.
Proof.
  revert from i. induction ps as [|r ps IH]; intros from i; simpl; [done|].
  intros [Hr H] Hp. destruct i as [|i].
  - simpl in Hp. injection Hp as ->. lia.
  - simpl in Hp. destruct ps as [|r' ps]; [done|]. destruct H as [Hle H].
    pose proof (IH _ _ H Hp). lia.
Qed.

Lemma chain_cover from ps to k :
  chain from ps to -> from <= k <= to ->
  ∃ i p, ps !! i = Some p ∧ startIndex p <= k <= endIndex p ∧
         ∀ i' p', ps !! i' = Some p' -> startIndex p' <= k <= endIndex p' -> i' = i.
Proof.
  revert from. induction ps as [|r ps IH]; intros from; simpl; [done|].
  intros [Hr H] Hk. destruct ps as [|r' ps].
  - exists 0%nat, r. split; [done|]. split; [lia|].
    intros [|i'] p' Hp' _; [done|]. done.
  - destruct H as [Hle H]. destruct (decide (k <= endIndex r)) as [Hin|Hout].
    + exists 0%nat, r. split; [done|]. split; [lia|].
      intros [|i'] p' Hp' Hk'; [done|]. simpl in Hp'.
      pose proof (chain_lower _ _ _ _ _ H Hp'). lia.
    + destruct (IH _ H ltac:(lia)) as (i & p & Hp & Hkp & Huniq).
      exists (S i), p. split; [done|]. split; [done|].
      intros [|i'] p' Hp' Hk'.
      * simpl in Hp'. injection Hp' as <-. lia.
      * f_equal. by apply (Huniq i' p').
Qed.

Lemma chain_partitions n ps : chain 0 ps (n - 1) -> partitions n ps.
Proof.
  intros H. split; [by apply (chain_head _ _ _ H)|].
  split; [intros i p q; by apply (chain_adjacent _ _ _ _ _ _ H)|].
  split; [by apply (chain_last _ _ _ H)|].
  intros k Hk. apply (chain_cover _ _ _ _ H). lia.
Qed.

(** ** [getSignals] *)

Lemma getSignals_last data props :
  ∃ ps,
    returns (fun fuel => getSignals fuel data props) ps ∧
    chain 0 ps (Z.of_nat (length data) - 1) ∧
    Forall (settled data (autoDetectProcess props)
              (autoDetectUntil (configureProperties props data))
              (datesToExclude props)) ps ∧
    Z.of_nat (length ps) <= Z.max 1 (Z.of_nat (length data)) ∧
    (autoDetectProcess props = false -> length ps = 1%nat).
Proof.
  unfold getSignals. rewrite createProcess_nil.
  set (k := length data).
  destruct (calc_last data (autoDetectProcess props)
              (autoDetectUntil (configureProperties props data))
              (datesToExclude props) k [] (new_process 0 (-1)) (k + length data + 2))
    as (ps & Hrun & Hch & Hall & Hlen & Hone & _); try done; try (simpl; lia).
  exists ps. split; [by apply (returns_calculateSignals _ _ _ _ _ _ _ _ Hrun)|].
  simpl in *. rewrite Z.sub_0_r in Hlen. done.
Qed.


(** ** Frame of one call: what any scan may change in the array *)

Lemma createProcess_app (ps : list process) (index cap : Z) :
  createProcess ps index cap =
    modify (length ps - 1) (set_endIndex (index - 1)) ps ++ [new_process index cap].
Proof.
  destruct ps as [|p ps _] using rev_ind; [done|].
  rewrite createProcess_snoc, length_app. simpl.
  replace (length ps + 1 - 1)%nat with (length ps) by lia.
  rewrite (modify_lookup _ _ _ _ (lookup_snoc_last ps p)), insert_snoc_last.
  by rewrite <- app_assoc.
Qed.

Lemma length_modify (i : nat) (f : process -> process) (ps : list process) :
  length (modify i f ps) = length ps.
Proof. unfold modify. case_match; [apply length_insert|done]. Qed.

Lemma starts_modify (i : nat) (f : process -> process) (ps : list process) :
  (∀ p, startIndex (f p) = startIndex p) ->
  map startIndex (modify i f ps) = map startIndex ps.
Proof.
  intros Hf. unfold modify. destruct (ps !! i) as [p|] eqn:E; [|done].
  change (map startIndex) with (fmap (M:=list) startIndex).
  rewrite list_fmap_insert, Hf. apply list_insert_id. by rewrite list_lookup_fmap, E.
Qed.

Lemma starts_insert (i : nat) (p q : process) (ps : list process) :
  ps !! i = Some p -> startIndex q = startIndex p ->
  map startIndex (<[i := q]> ps) = map startIndex ps.
Proof.
  intros Hp Hq.
  change (map startIndex) with (fmap (M:=list) startIndex).
  rewrite list_fmap_insert, Hq. apply list_insert_id. by rewrite list_lookup_fmap, Hp.
Qed.

Lemma starts_createProcess (ps : list process) (index cap : Z) :
  map startIndex (createProcess ps index cap) = map startIndex ps ++ [index].
Proof.
  rewrite createProcess_app, map_app. f_equal. by apply starts_modify.
Qed.

Lemma lookup_modify (i k : nat) (f : process -> process) (ps : list process) (p : process) :
  ps !! k = Some p ->
  modify i f ps !! k = Some (if decide (i = k) then f p else p).
Proof.
  intros Hp. unfold modify. destruct (ps !! i) as [q|] eqn:E.
  - rewrite list_lookup_insert. case_decide as Hd.
    + destruct Hd as [-> _]. rewrite decide_True by done. congruence.
    + destruct (decide (i = k)) as [->|]; [|done].
      exfalso. apply Hd. split; [done|]. by eapply lookup_lt_Some.
  - destruct (decide (i = k)) as [->|]; [congruence|done].
Qed.

Lemma lookup_createProcess (ps : list process) (index cap : Z) (k : nat) (p : process) :
  ps !! k = Some p ->
  createProcess ps index cap !! k =
    Some (if decide ((length ps - 1)%nat = k) then set_endIndex (index - 1) p else p).
Proof.
  intros Hp. rewrite createProcess_app.
  rewrite lookup_app_l by (rewrite length_modify; by eapply lookup_lt_Some).
  by apply lookup_modify.
Qed.

Lemma lookup_createProcess_new (ps : list process) (index cap : Z) :
  createProcess ps index cap !! length ps = Some (new_process index cap).
Proof.
  rewrite createProcess_app.
  pose proof (lookup_snoc_last (modify (length ps - 1) (set_endIndex (index - 1)) ps)
                (new_process index cap)) as H.
  by rewrite length_modify in H.
Qed.

Lemma break_at_eligible data auto until excl s m sdv tr j :
  break_at data auto until excl s m sdv tr j -> eligible data auto until excl j.
Proof.
  intros (_ & Ha & d & sig & run & Hd & Hx & Hl & _). split; [done|]. eauto.
Qed.

Lemma iteration_frame data auto until excl pIndex ps p ps' tr' found :
  ps !! pIndex = Some p ->
  iteration data auto until excl pIndex ps = Ok (ps', tr', found) ->
  ∃ p', ps' !! pIndex = Some p' ∧ startIndex p' = startIndex p ∧ cap p' = cap p ∧
    ((found = false ∧ endIndex p' = endIndex p + 1 ∧ length ps' = length ps ∧
      map startIndex ps' = map startIndex ps)
     ∨ (found = true ∧ length ps' = S (length ps) ∧
        ∃ j st,
          summaryStatistics data excl (startIndex p) (endIndex p + 1) = Ok st ∧
          break_at data auto until excl (startIndex p)
            (stats_mean st) (stats_sd st) tr' j ∧
          startIndex p < j <= endIndex p + 1 ∧
          map startIndex ps' = map startIndex ps ++ [j] ∧
          ps' !! length ps = Some (new_process j (-1)))).
Proof.
  intros Hp. rewrite (iteration_local _ _ _ _ _ _ _ Hp). cbv zeta.
  destruct (summaryStatistics _ _ _ _) as [st| |] eqn:Est; cbn [mbind result_bind]; try done.
  destruct (scanL _ _ _ _ _ _ _ _ _ _ _) as [[[sg1 tr1] brk]| |] eqn:Esc;
    cbn [mbind result_bind]; try done.
  set (p1 := Process _ _ _ _ _ _ _ _).
  assert (Hlt : (pIndex < length ps)%nat) by (by eapply lookup_lt_Some).
  destruct brk as [j|].
  - pose proof (lookup_createProcess (<[pIndex := p1]> ps) j (-1) pIndex p1
                  (insert_lookup_same _ _ _ _ Hp)) as Hq.
    unfold the_process. rewrite Hq. cbn [mbind result_bind].
    set (q := if decide _ then _ else _) in *.
    assert (Hq1 : startIndex q = startIndex p ∧ cap q = cap p)
      by (unfold q; case_decide; done).
    destruct (summaryStatistics data excl (startIndex q) (endIndex q)) as [st2| |];
      cbn [mbind result_bind]; try done.
    intros [= <- <- <-].
    exists (set_stats st2 q). split.
    { rewrite (lookup_modify _ _ _ _ _ Hq). by rewrite decide_True. }
    split; [apply Hq1|]. split; [apply Hq1|]. right. split; [done|].
    rewrite length_modify, length_createProcess, length_insert. split; [done|].
    apply scanL_break in Esc as [Hj Hb].
    exists j, st. split; [done|]. split; [done|]. split.
    { destruct Hb as (Hne & _). lia. }
    split.
    { rewrite starts_modify by done. rewrite starts_createProcess.
      by rewrite (starts_insert _ p). }
    pose proof (lookup_createProcess_new (<[pIndex := p1]> ps) j (-1)) as Hn.
    rewrite length_insert in Hn.
    rewrite (lookup_modify _ _ _ _ _ Hn). by rewrite decide_False by lia.
  - intros [= <- <- <-]. exists p1.
    split; [by eapply insert_lookup_same|]. split; [done|]. split; [done|].
    left. rewrite length_insert. repeat split; try done.
    by apply (starts_insert _ p).
Qed.

Lemma the_process_Ok (ps : list process) (i : nat) (p : process) :
  the_process ps i = Ok p -> ps !! i = Some p.
Proof. unfold the_process. by destruct (ps !! i); intros [= ->]. Qed.

Lemma loop_frame data auto until excl pIndex fuel ps tr found ps' tr' found' :
  loop data auto until excl pIndex fuel ps tr found = Ok (ps', tr', found') ->
  is_Some (ps' !! pIndex) ∧
  ∃ js, map startIndex ps' = map startIndex ps ++ js ∧
        Forall (eligible data auto until excl) js.
Proof.
  revert ps tr found. induction fuel as [|fuel IH]; intros ps tr found; cbn [loop];
    destruct (the_process ps pIndex) as [p| |] eqn:Ep; cbn [mbind result_bind]; try done;
    apply the_process_Ok in Ep; destruct (continue data found p); try done.
  - intros [= <- <- <-]. split; [eauto|]. exists []. by rewrite app_nil_r.
  - destruct (iteration _ _ _ _ _ _) as [[[ps1 tr1] found1]| |] eqn:Eit;
      cbn [mbind result_bind]; try done.
    intros Hl. apply IH in Hl as (Hsome & js & Hjs & Hall). split; [done|].
    destruct (iteration_frame _ _ _ _ _ _ _ _ _ _ Ep Eit)
      as (p' & _ & _ & _ & [(_ & _ & _ & Hst) | (_ & _ & j & st & _ & Hb & _ & Hst & _)]).
    + exists js. by rewrite Hjs, Hst.
    + exists (j :: js). rewrite Hjs, Hst, <- app_assoc. split; [done|].
      constructor; [by eapply break_at_eligible|done].
  - intros [= <- <- <-]. split; [eauto|]. exists []. by rewrite app_nil_r.
Qed.

Lemma detect_frame data auto until excl pIndex fuel ps ps' found :
  detect data auto until excl pIndex fuel ps = Ok (ps', found) ->
  ∃ js, map startIndex ps' = map startIndex ps ++ js ∧
        Forall (eligible data auto until excl) js.
Proof.
  unfold detect.
  destruct (the_process ps pIndex) as [p| |]; cbn [mbind result_bind]; try done.
  destruct (loop _ _ _ _ _ _ _ _ _) as [[[ps1 tr1] found1]| |] eqn:El;
    cbn [mbind result_bind]; try done.
  apply loop_frame in El as ([p1 Hp1] & js & Hjs & Hall).
  rewrite (flush_local _ _ _ _ _ Hp1). cbn [mbind result_bind].
  intros [= <- <-]. exists js. split; [|done].
  rewrite (starts_insert _ p1) by done. rewrite Hjs.
  by rewrite !starts_modify.
Qed.

Lemma calculateSignals_frame fuel data ps pIndex auto until excl ps' :
  calculateSignals fuel data ps pIndex auto until excl = Ok ps' ->
  ∃ js, map startIndex ps' = map startIndex ps ++ js ∧
        Forall (eligible data auto until excl) js.
Proof.
  revert ps pIndex. induction fuel as [|fuel IH]; intros ps pIndex; cbn [calculateSignals];
    [done|].
  destruct (detect _ _ _ _ _ _ _) as [[ps1 found1]| |] eqn:Ed;
    cbn [mbind result_bind]; try done.
  apply detect_frame in Ed as (js & Hjs & Hall).
  destruct (_ || _).
  - intros H. apply IH in H as (js' & Hjs' & Hall').
    exists (js ++ js'). rewrite Hjs', Hjs, <- app_assoc. split; [done|].
    by apply Forall_app.
  - intros [= <-]. eauto.
Qed.

(** ** Termination of the [while] loop *)

Lemma iteration_fuel data auto until excl pIndex ps :
  iteration data auto until excl pIndex ps ≠ OutOfFuel.
Proof.
  destruct (ps !! pIndex) as [p|] eqn:Ep.
  - rewrite (iteration_local _ _ _ _ _ _ _ Ep). cbv zeta.
    pose proof (summaryStatistics_fuel data excl (startIndex p) (endIndex p + 1)).
    destruct (summaryStatistics _ _ _ _) as [st| |]; cbn [mbind result_bind]; try done.
    pose proof (scanL_fuel data auto until excl (startIndex p) (stats_mean st)
                  (stats_sd st) (Z.to_nat (endIndex p + 1 - startIndex p + 1))
                  (endIndex p + 1) ∅ fresh_tracker).
    destruct (scanL _ _ _ _ _ _ _ _ _ _ _) as [[[sg1 tr1] [j|]]| |];
      cbn [mbind result_bind]; try done.
    unfold the_process.
    destruct (createProcess _ _ _ !! pIndex) as [q|]; cbn [mbind result_bind]; try done.
    pose proof (summaryStatistics_fuel data excl (startIndex q) (endIndex q)).
    destruct (summaryStatistics data excl (startIndex q) (endIndex q)) as [st2| |];
      cbn [mbind result_bind]; done.
  - unfold iteration, modify, the_process. by rewrite Ep, Ep.
Qed.

Lemma loop_found data auto until excl pIndex fuel ps tr :
  loop data auto until excl pIndex fuel ps tr true ≠ OutOfFuel.
Proof.
  destruct fuel; cbn [loop]; unfold the_process; destruct (ps !! pIndex); done.
Qed.

(** The loop ends within [length data - 1 - endIndex] iterations. *)
Lemma loop_terminates data auto until excl pIndex fuel ps tr found p :
  ps !! pIndex = Some p ->
  (Z.to_nat (Z.of_nat (length data) - 1 - endIndex p) <= fuel)%nat ->
  loop data auto until excl pIndex fuel ps tr found ≠ OutOfFuel.
Proof.
  revert ps tr found p. induction fuel as [|fuel IH]; intros ps tr found p Hp Hfuel;
    cbn [loop]; rewrite (the_process_lookup _ _ _ Hp); cbn [mbind result_bind];
    destruct (continue data found p) eqn:Ec; try done.
  - unfold continue in Ec. rewrite !andb_true_iff in Ec.
    destruct Ec as [[_ Hlt] _]. apply Z.ltb_lt in Hlt. lia.
  - unfold continue in Ec. rewrite !andb_true_iff in Ec.
    destruct Ec as [[_ Hlt] _]. apply Z.ltb_lt in Hlt.
    pose proof (iteration_fuel data auto until excl pIndex ps) as Hit.
    destruct (iteration _ _ _ _ _ _) as [[[ps1 tr1] found1]| |] eqn:Eit;
      cbn [mbind result_bind]; try done.
    destruct (iteration_frame _ _ _ _ _ _ _ _ _ _ Hp Eit)
      as (p' & Hp' & _ & _ & [(-> & He & _) | (-> & _)]).
    + apply (IH _ _ _ p'); [done|lia].
    + apply loop_found.
Qed.


(** ** Entry points: a larger budget never changes a result *)

Lemma returns_getSignals fuel data props r :
  getSignals fuel data props = Ok r ->
  returns (fun fuel => getSignals fuel data props) r.
Proof. unfold getSignals. apply returns_calculateSignals. Qed.

Lemma displayChart_mono fuel fuel' data props r :
  displayChart fuel data props = r -> r ≠ OutOfFuel -> (fuel <= fuel')%nat ->
  displayChart fuel' data props = r.
Proof.
  unfold displayChart. intros Hr Hne Hle.
  destruct (calculateSignals fuel _ _ _ _ _ _) as [ps| |] eqn:Ec;
    cbn [mbind result_bind] in Hr.
  - by rewrite (calculateSignals_mono _ fuel' _ _ _ _ _ _ _ Ec).
  - by rewrite (calculateSignals_mono _ fuel' _ _ _ _ _ _ _ Ec).
  - congruence.
Qed.

Lemma returns_displayChart fuel data props r :
  displayChart fuel data props = Ok r ->
  returns (fun fuel => displayChart fuel data props) r.
Proof.
  intros H. exists fuel. intros fuel' Hle. by apply (displayChart_mono fuel fuel').
Qed.

Lemma raises_displayChart fuel data props :
  displayChart fuel data props = TypeError ->
  raises (fun fuel => displayChart fuel data props).
Proof.
  intros H. exists fuel. intros fuel' Hle. by apply (displayChart_mono fuel fuel').
Qed.

(** ** Automatic breaks *)

(** C2.  During a run of [calculateSignals] a process is created only when
    a run tracker has just reached the rule's length and the rule is
    EIGHT_OVER_MEAN or EIGHT_UNDER_MEAN, [autoDetectProcess] is true, the
    date of the triggering point is strictly earlier than
    [autoDetectUntil] and the triggering index is not the [startIndex] of
    the segment; every process a run appends starts at such a point, and
    with [autoDetectProcess = false] a run appends no process at all. *)
Theorem auto_break_only_when_eligible :
  (∀ data auto until excl pIndex ps p ps' tr' found,
     ps !! pIndex = Some p ->
     iteration data auto until excl pIndex ps = Ok (ps', tr', found) ->
     length ps' ≠ length ps ->
     ∃ j st d sig run u,
       summaryStatistics data excl (startIndex p) (endIndex p + 1) = Ok st ∧
       length ps' = S (length ps) ∧
       ps' !! length ps = Some (blank j (j + 8) (-1)) ∧
       get data j = Some d ∧
       rule sig (Count d) (stats_mean st) (stats_sd st) = true ∧
       tr' !! sig = Some run ∧ last run = Some (Date d) ∧
       Z.of_nat (length run) = sig_length sig ∧
       (sig = EIGHT_OVER_MEAN ∨ sig = EIGHT_UNDER_MEAN) ∧
       auto = true ∧
       until = Some u ∧ Date d < u ∧
       j ≠ startIndex p) ∧
  (∀ fuel data ps pIndex auto until excl ps',
     calculateSignals fuel data ps pIndex auto until excl = Ok ps' ->
     ∃ js, map startIndex ps' = map startIndex ps ++ js ∧
           Forall (eligible data auto until excl) js) ∧
  (∀ fuel data ps pIndex until excl ps',
     calculateSignals fuel data ps pIndex false until excl = Ok ps' ->
     length ps' = length ps ∧ map startIndex ps' = map startIndex ps).
Proof.
  split; [|split].
  - intros data auto until excl pIndex ps p ps' tr' found Hp Hit Hlen.
    destruct (iteration_frame _ _ _ _ _ _ _ _ _ _ Hp Hit)
      as (p' & _ & _ & _ & [(_ & _ & Hl & _) | (_ & Hl & j & st & Hst & Hb & _ & _ & Hnew)]);
      [done|].
    destruct Hb as (Hne & Hauto & d & sig & run & Hd & _ & Hdl & Hsig & Hr & Htr & Hrl & Hla).
    unfold date_lt in Hdl. destruct until as [u|]; [|done]. apply Z.ltb_lt in Hdl.
    exists j, st, d, sig, run, u. repeat split; done.
  - intros fuel data ps pIndex auto until excl ps'. apply calculateSignals_frame.
  - intros fuel data ps pIndex until excl ps' H.
    apply calculateSignals_frame in H as (js & Hjs & Hall).
    destruct js as [|j js].
    + rewrite app_nil_r in Hjs. split; [|done].
      by rewrite <- (length_map startIndex ps'), Hjs, length_map.
    + apply Forall_cons in Hall as [[? _] _]. done.
Qed.

Lemma auto_break_only_when_eligible_witness :
  (∃ ps' tr',
     iteration step_series true (Some 16) ∅ 0 [blank 0 14 (-1)] = Ok (ps', tr', true) ∧
     ∃ j st d sig run u,
       summaryStatistics step_series ∅ 0 (14 + 1) = Ok st ∧
       length ps' = 2%nat ∧
       ps' !! 1%nat = Some (blank j (j + 8) (-1)) ∧
       get step_series j = Some d ∧
       rule sig (Count d) (stats_mean st) (stats_sd st) = true ∧
       tr' !! sig = Some run ∧ last run = Some (Date d) ∧
       Z.of_nat (length run) = sig_length sig ∧
       (sig = EIGHT_OVER_MEAN ∨ sig = EIGHT_UNDER_MEAN) ∧
       true = true ∧ Some 16 = Some u ∧ Date d < u ∧ j ≠ 0) ∧
  (∃ ps',
     calculateSignals 20 step_series [blank 0 8 (-1)] 0 false (Some 16) ∅ = Ok ps' ∧
     length ps' = 1%nat ∧ map startIndex ps' = [0]).
Proof.
  split.
  - destruct (iteration step_series true (Some 16) ∅ 0 [blank 0 14 (-1)])
      as [[[ps' tr'] found]| |] eqn:E; [| |].
    + assert (found = true ∧ length ps' = 2%nat) as [-> Hl].
      { revert E. vm_compute. by intros [= <- <- <-]. }
      exists ps', tr'. split; [done|].
      apply (proj1 auto_break_only_when_eligible step_series true (Some 16) ∅ 0%nat
               [blank 0 14 (-1)] (blank 0 14 (-1)) ps' tr' true eq_refl E).
      rewrite Hl. simpl. lia.
    + exfalso. revert E. vm_compute. done.
    + exfalso. revert E. vm_compute. done.
  - destruct (calculateSignals 20 step_series [blank 0 8 (-1)] 0 false (Some 16) ∅)
      as [ps'| |] eqn:E.
    + exists ps'. split; [done|].
      apply (proj2 (proj2 auto_break_only_when_eligible) _ _ _ _ _ _ _ E).
    + exfalso. revert E. vm_compute. done.
    + exfalso. revert E. vm_compute. done.
Defined.


(** ** [getSignals] and manual breakpoints *)

(** C10.  [getSignals] starts segmentation from exactly one process, at
    index 0, whatever [manualProcesses] and [autoDetectProcess] are; with
    [autoDetectProcess = false] it returns exactly one process, spanning
    the whole series, even when manual breakpoints are supplied, whereas
    [displayChart] honours them. *)
Theorem getSignals_ignores_manual :
  (∀ fuel data props,
     getSignals fuel data props =
       calculateSignals fuel data [blank 0 8 (-1)] 0
         (autoDetectProcess props)
         (autoDetectUntil (configureProperties props data))
         (datesToExclude props)) ∧
  (∀ data manual until excl,
     ∃ p, returns (fun fuel => getSignals fuel data
                     {| manualProcesses := manual; autoDetectProcess := false;
                        autoDetectUntil := until; datesToExclude := excl |}) [p] ∧
          startIndex p = 0 ∧ endIndex p = Z.of_nat (length data) - 1) ∧
  (∃ ps, returns (fun fuel => displayChart fuel (series [1; 2; 3]%Q)
                     {| manualProcesses := [2]; autoDetectProcess := false;
                        autoDetectUntil := None; datesToExclude := ∅ |}) ps ∧
         bounds ps = [(0, 1); (2, 2)]).
Proof.
  split; [done|]. split.
  - intros data manual until excl.
    destruct (getSignals_last data
                {| manualProcesses := manual; autoDetectProcess := false;
                   autoDetectUntil := until; datesToExclude := excl |})
      as (ps & Hret & Hch & _ & _ & Hone).
    specialize (Hone eq_refl).
    destruct ps as [|p [|q ps]]; try done.
    exists p. split; [done|]. simpl in Hch. done.
  - eexists. split.
    + apply (returns_displayChart 10). vm_compute. reflexivity.
    + vm_compute. reflexivity.
Qed.

(** ** Termination *)





(** ** Exclusions *)

Lemma record_signal_free (excl : gset Z) sig sg d :
  d ∉ excl -> (∀ t, t ∈ excl -> sg !! t = None) ->
  ∀ t, t ∈ excl -> record_signal sig sg d !! t = None.
Proof.
  intros Hd Hsg t Ht. unfold record_signal.
  assert (d ≠ t) by (intros ->; done).
  repeat case_match; rewrite ?lookup_insert_ne by done; by apply Hsg.
Qed.

Lemma record_run_free (excl : gset Z) sig sg (run : list Z) :
  (∀ t, t ∈ run -> t ∉ excl) -> (∀ t, t ∈ excl -> sg !! t = None) ->
  ∀ t, t ∈ excl -> record_run sig sg run !! t = None.
Proof.
  unfold record_run. case_match; [|done]. clear.
  revert sg. induction run as [|d run IH]; intros sg Hrun Hsg; simpl; [done|].
  apply IH.
  - intros t Ht. apply Hrun. by right.
  - apply record_signal_free; [|done]. apply Hrun. by left.
Qed.

Lemma lookup_total_run (tr : gmap SignalId (list Z)) (sig : SignalId) (t : Z) :
  t ∈ tr !!! sig -> ∃ run, tr !! sig = Some run ∧ t ∈ run.
Proof.
  rewrite lookup_total_alt. destruct (tr !! sig) as [run|]; simpl; [eauto|].
  by intros ?%elem_of_nil.
Qed.

Lemma rulesL_free (excl : gset Z) auto until s m sdv sigs d j sg tr sg' tr' found :
  Date d ∉ excl -> excl_free excl sg tr ->
  rulesL auto until s m sdv sigs d j sg tr = (sg', tr', found) ->
  excl_free excl sg' tr'.
Proof.
  intros Hd. revert sg tr. induction sigs as [|sig sigs IH]; intros sg tr [Hsg Htr]; simpl.
  - by intros [= <- <- <-].
  - assert (Hpush : excl_free excl sg (<[sig := tr !!! sig ++ [Date d]]> tr)).
    { split; [done|]. intros sig' run t Hl Ht.
      destruct (decide (sig = sig')) as [<-|Hne].
      - rewrite lookup_insert_eq in Hl. injection Hl as <-.
        apply elem_of_app in Ht as [Ht|Ht].
        + apply lookup_total_run in Ht as (run & Hr & Ht). by eapply Htr.
        + apply list_elem_of_singleton in Ht as ->. done.
      - rewrite lookup_insert_ne in Hl by done. by eapply Htr. }
    assert (Hclear : excl_free excl (record_run sig sg (tr !!! sig)) (<[sig := []]> tr)).
    { split.
      - apply record_run_free; [|done]. intros t Ht.
        apply lookup_total_run in Ht as (run & Hr & Ht). by eapply Htr.
      - intros sig' run t Hl Ht. destruct (decide (sig = sig')) as [<-|Hne].
        + rewrite lookup_insert_eq in Hl. injection Hl as <-. by apply elem_of_nil in Ht.
        + rewrite lookup_insert_ne in Hl by done. by eapply Htr. }
    destruct (rule sig (Count d) m sdv); [|by apply IH].
    destruct (breaks _ _ _ _ _); [by intros [= <- <- <-]|by apply IH].
Qed.

Lemma scanL_free data auto until excl s m sdv cnt j sg tr sg' tr' brk :
  excl_free excl sg tr ->
  scanL data auto until excl s m sdv cnt j sg tr = Ok (sg', tr', brk) ->
  excl_free excl sg' tr'.
Proof.
  revert j sg tr. induction cnt as [|cnt IH]; intros j sg tr Hfree; cbn [scanL].
  - by intros [= <- <- <-].
  - destruct (get data j) as [d|]; [|done]. case_bool_decide as Hx; [by apply IH|].
    destruct (rulesL _ _ _ _ _ _ _ _ _ _) as [[sg1 tr1] found] eqn:Er.
    apply (rulesL_free excl) in Er; [|done|done].
    destruct found; [by intros [= <- <- <-]|by apply IH].
Qed.

Lemma excl_free_fresh (excl : gset Z) : excl_free excl ∅ fresh_tracker.
Proof.
  split; [done|]. intros sig run t Hl Ht.
  assert (run = []) as ->; [|by apply elem_of_nil in Ht].
  destruct sig; vm_compute in Hl; congruence.
Qed.

Lemma flushL_free (excl : gset Z) sigs sg tr :
  excl_free excl sg tr -> ∀ t, t ∈ excl -> flushL sigs sg tr !! t = None.
Proof.
  revert sg. induction sigs as [|sig sigs IH]; intros sg [Hsg Htr]; [done|].
  unfold flushL. simpl. apply IH. split; [|done].
  destruct (tr !! sig) as [run|] eqn:Er; [|done].
  apply record_run_free; [|done]. intros t Ht. by eapply Htr.
Qed.

Lemma settled_free data auto until excl p :
  settled data auto until excl p -> ∀ t, t ∈ excl -> signals p !! t = None.
Proof.
  intros (_ & sg1 & tr1 & (m & sdv & e & brk & Hsc & _) & ->).
  apply flushL_free. eapply scanL_free; [|done]. apply excl_free_fresh.
Qed.

(** A scan over excluded points only is the identity. *)
Lemma scanL_all_excluded data auto until excl s m sdv cnt j sg tr r :
  (∀ d, d ∈ data -> Date d ∈ excl) ->
  scanL data auto until excl s m sdv cnt j sg tr = Ok r -> r = (sg, tr, None).
Proof.
  intros Hall. revert j. induction cnt as [|cnt IH]; intros j; cbn [scanL].
  - by intros [= <-].
  - destruct (get data j) as [d|] eqn:Ed; [|done].
    rewrite bool_decide_eq_true_2; [apply IH|].
    apply Hall. unfold get in Ed. destruct (j <? 0); [done|].
    by eapply list_elem_of_lookup_2.
Qed.

Lemma flushL_fresh : flushL SignalEnum ∅ fresh_tracker = ∅.
Proof. vm_compute. reflexivity. Qed.

Lemma eligible_not_all_excluded data auto until excl j :
  (∀ d, d ∈ data -> Date d ∈ excl) -> ¬ eligible data auto until excl j.
Proof.
  intros Hall (_ & d & Hd & Hx & _). apply Hx, Hall.
  unfold get in Hd. destruct (j <? 0); [done|]. by eapply list_elem_of_lookup_2.
Qed.

Lemma getSignals_all_excluded data props :
  (∀ d, d ∈ data -> Date d ∈ datesToExclude props) ->
  ∃ p, returns (fun fuel => getSignals fuel data props) [p] ∧
       signals p = ∅ ∧ startIndex p = 0 ∧ endIndex p = Z.of_nat (length data) - 1.
Proof.
  intros Hall.
  destruct (getSignals_last data props) as (ps & Hret & Hch & Hset & _).
  destruct Hret as [fuel0 Hrun]. pose proof (Hrun fuel0 (le_n _)) as Hrun0.
  unfold getSignals in Hrun0. apply calculateSignals_frame in Hrun0 as (js & Hjs & Hel).
  destruct js as [|j js].
  2:{ apply Forall_cons in Hel as [Hel _].
      by apply eligible_not_all_excluded in Hel. }
  rewrite app_nil_r in Hjs. simpl in Hjs.
  destruct ps as [|p [|q ps]]; try done.
  exists p. split; [by exists fuel0|].
  apply Forall_singleton in Hset as (_ & sg1 & tr1 & (m & sdv & e & brk & Hsc & _) & Hsig).
  apply (scanL_all_excluded _ _ _ _ _ _ _ _ _ _ _ _ Hall) in Hsc.
  injection Hsc as -> -> ->. rewrite flushL_fresh in Hsig. simpl in Hch. done.
Qed.

(** C7.  A date in the exclusion set never enters a run tracker and never
    becomes a key of a signals map: a scan keeps both free of excluded
    dates, and so does every process that [getSignals] returns.  When every
    point is excluded (in particular on the empty series) [getSignals]
    still returns, with a single process, no break and no signal. *)
Theorem exclusions_never_classified :
  (∀ data auto until excl pIndex cnt j (ps : list process) tr p ps' tr' found,
     ps !! pIndex = Some p -> tracker_full tr ->
     excl_free excl (signals p) tr ->
     scan data auto until excl pIndex cnt j ps tr = Ok (ps', tr', found) ->
     ∃ p', ps' !! pIndex = Some p' ∧ excl_free excl (signals p') tr') ∧
  (∀ data props,
     ∃ ps, returns (fun fuel => getSignals fuel data props) ps ∧
           ∀ p t, p ∈ ps -> t ∈ datesToExclude props -> signals p !! t = None) ∧
  (∀ data props,
     (∀ d, d ∈ data -> Date d ∈ datesToExclude props) ->
     ∃ p, returns (fun fuel => getSignals fuel data props) [p] ∧
          signals p = ∅ ∧ startIndex p = 0 ∧
          endIndex p = Z.of_nat (length data) - 1) ∧
  (∀ props,
     ∃ p, returns (fun fuel => getSignals fuel [] props) [p] ∧ signals p = ∅).
Proof.
  split; [|split; [|split]].
  - intros data auto until excl pIndex cnt j ps tr p ps' tr' found Hp Hfull Hfree.
    rewrite (scan_local _ _ _ _ _ _ _ _ _ p Hfull Hp).
    destruct (scanL _ _ _ _ _ _ _ _ _ _ _) as [[[sg1 tr1] brk]| |] eqn:Esc;
      cbn [mbind result_bind]; try done.
    intros [= <- <- <-]. apply (scanL_free _ _ _ _ _ _ _ _ _ _ _ _ _ _ Hfree) in Esc.
    unfold settle. destruct brk as [k|].
    + rewrite (lookup_createProcess _ _ _ _ _ (insert_lookup_same _ _ _ _ Hp)).
      eexists. split; [done|]. by case_decide.
    + exists (set_signals sg1 p). split; [by eapply insert_lookup_same|done].
  - intros data props.
    destruct (getSignals_last data props) as (ps & Hret & _ & Hset & _).
    exists ps. split; [done|]. intros p t Hp Ht.
    rewrite Forall_forall in Hset. by eapply settled_free; [apply Hset|].
  - apply getSignals_all_excluded.
  - intros props. destruct (getSignals_all_excluded [] props) as (p & Hret & Hs & _).
    { by intros d ?%elem_of_nil. }
    eauto.
Qed.

Lemma exclusions_never_classified_witness :
  let props := {| manualProcesses := []; autoDetectProcess := true;
                  autoDetectUntil := Some 16;
                  datesToExclude := list_to_set (map Date step_series) |} in
  ∃ p, returns (fun fuel => getSignals fuel step_series props) [p] ∧
       signals p = ∅ ∧ startIndex p = 0 ∧ endIndex p = 16 - 1.
Proof.
  intros props.
  apply (proj1 (proj2 (proj2 exclusions_never_classified)) step_series props).
  intros d Hd. apply elem_of_list_to_set, list_elem_of_fmap. eauto.
Defined.


(** ** Manual breakpoints in [displayChart] *)

Lemma chain_bounds from ps ps' to :
  bounds ps' = bounds ps -> chain from ps to -> chain from ps' to.
Proof.
  revert from ps'. induction ps as [|p ps IH]; intros from [|p' ps']; simpl; try done.
  intros [= Hs He Hb] [Hf H]. split; [congruence|].
  destruct ps as [|q ps], ps' as [|q' ps']; try done; [congruence|].
  destruct H as [Hle H]. split; [congruence|]. rewrite He. by apply IH.
Qed.

Lemma bounds_in_series from ps n i p :
  0 <= from -> 0 < n ->
  chain from ps (n - 1) -> Forall (fun q => startIndex q <= n - 1) ps ->
  ps !! i = Some p ->
  0 <= startIndex p < n ∧ 0 <= endIndex p < n.
Proof.
  revert from i. induction ps as [|r ps IH]; intros from i H0 Hn; simpl; [done|].
  intros [Hr H] Hall Hp. apply Forall_cons in Hall as [Hr' Hall].
  destruct ps as [|r' ps].
  - destruct i; [|done]. injection Hp as <-. lia.
  - destruct H as [Hle H]. destruct i as [|i].
    + injection Hp as <-. pose proof H as H'. simpl in H'. destruct H' as [Hs' _].
      apply Forall_cons in Hall as [Hr'' _]. lia.
    + apply (IH (endIndex r + 1) i); [lia|done|done|done|done].
Qed.

Lemma get_in_series {A : Type} (a : list A) (i : Z) :
  0 <= i < Z.of_nat (length a) -> is_Some (get a i).
Proof.
  intros H. unfold get. destruct (i <? 0) eqn:E; [lia|].
  apply lookup_lt_is_Some. lia.
Qed.

Lemma processDates_ok data ps :
  (∀ i p, ps !! i = Some p ->
          0 <= startIndex p < Z.of_nat (length data) ∧
          0 <= endIndex p < Z.of_nat (length data)) ->
  ∃ ps', processDates data ps = Ok ps' ∧ bounds ps' = bounds ps.
Proof.
  induction ps as [|p ps IH]; intros H; simpl; [eauto|].
  destruct (H 0%nat p eq_refl) as [Hs He].
  destruct (get_in_series data _ Hs) as [ds ->].
  destruct (get_in_series data _ He) as [de ->].
  destruct IH as (ps' & -> & Hb); [intros i q Hq; by apply (H (S i))|].
  cbn [mbind result_bind]. eexists. split; [done|]. simpl. by rewrite Hb.
Qed.

Lemma length_merge_sort_by_date (data : list point) :
  length (merge_sort by_date data) = length data.
Proof. apply Permutation_length, merge_sort_Permutation. Qed.

(** C8, as the claim words it: on a three-point series the breakpoint 20,
    with automatic detection off, is neither clamped nor ignored: the
    segmentation yields a second process from index 20, and [displayChart]
    throws on reading [data[20]]. *)
Lemma out_of_range_breakpoint_raises :
  let data := series [1; 2; 3]%Q in
  let props := {| manualProcesses := [20]; autoDetectProcess := false;
                  autoDetectUntil := None; datesToExclude := ∅ |} in
  raises (fun fuel => displayChart fuel data props) ∧
  ∃ ps, returns (fun fuel => calculateSignals fuel data (initialProcesses data props) 0
                               false None ∅) ps ∧
        bounds ps = [(0, 2); (20, 2)].
Proof.
  split.
  - apply (raises_displayChart 10). vm_compute. reflexivity.
  - eexists. split; [apply (returns_calculateSignals 10); vm_compute; reflexivity|].
    vm_compute. reflexivity.
Qed.

(** C8, amended.  Manual breakpoints supplied while automatic detection is
    enabled are ignored: [displayChart] starts from the single process at
    index 0 and, on a non-empty series, returns without throwing a process
    list that partitions the series. *)
Theorem manual_breakpoints_ignored_under_auto (data : list point)
    (manual : list Z) (until : option Z) (excl : gset Z) :
  let props := {| manualProcesses := manual; autoDetectProcess := true;
                  autoDetectUntil := until; datesToExclude := excl |} in
  initialProcesses (merge_sort by_date data) (configureProperties props data)
    = [blank 0 8 (-1)] ∧
  (data ≠ [] ->
   ∃ ps, returns (fun fuel => displayChart fuel data props) ps ∧
         partitions (Z.of_nat (length data)) ps).
Proof.
  intros props.
  assert (Hinit : initialProcesses (merge_sort by_date data) (configureProperties props data)
                  = [blank 0 8 (-1)]).
  { unfold initialProcesses. simpl. by rewrite orb_true_r. }
  split; [done|]. intros Hne.
  set (sorted := merge_sort by_date data).
  assert (Hlen : length sorted = length data) by apply length_merge_sort_by_date.
  assert (Hpos : 0 < Z.of_nat (length sorted)).
  { rewrite Hlen. destruct data; [done|simpl; lia]. }
  set (k := length sorted).
  destruct (calc_last sorted true (autoDetectUntil (configureProperties props data)) excl
              k [] (new_process 0 (-1)) (k + length sorted + 2))
    as (ps & Hrun & Hch & _ & _ & _ & Hup); try done; try (simpl; lia).
  specialize (Hup ltac:(simpl; lia)). simpl in Hch.
  assert (Hrun' : calculateSignals (k + length sorted + 2) sorted [blank 0 8 (-1)] 0
                    (autoDetectProcess (configureProperties props data))
                    (autoDetectUntil (configureProperties props data))
                    (datesToExclude (configureProperties props data)) = Ok ps)
    by exact Hrun.
  destruct (processDates_ok sorted ps) as (ps' & Hd & Hb).
  { intros i p Hp. by apply (bounds_in_series 0 ps _ i). }
  exists ps'. split.
  - apply (returns_displayChart (k + length sorted + 2)).
    unfold displayChart. cbv zeta. fold props. rewrite Hinit. fold sorted.
    rewrite Hrun'. cbn [mbind result_bind]. done.
  - apply chain_partitions. rewrite <- Hlen. by apply (chain_bounds _ ps).
Qed.

Lemma manual_breakpoints_ignored_under_auto_witness :
  ∃ ps, returns (fun fuel => displayChart fuel step_series
                   {| manualProcesses := [20]; autoDetectProcess := true;
                      autoDetectUntil := None; datesToExclude := ∅ |}) ps ∧
        partitions 16 ps.
Proof.
  apply (proj2 (manual_breakpoints_ignored_under_auto step_series [20] None ∅)).
  done.
Defined.


(** ** Summary statistics *)

Lemma collect_spec data excl cnt i tmp :
  0 <= i -> i + Z.of_nat cnt <= Z.of_nat (length data) ->
  collect data excl cnt i tmp =
    Ok (tmp ++ filter (fun d => Date d ∉ excl) (take cnt (drop (Z.to_nat i) data))).
Proof.
  revert i tmp. induction cnt as [|cnt IH]; intros i tmp H0 Hn; simpl.
  - by rewrite app_nil_r.
  - assert (Hi : (Z.to_nat i < length data)%nat) by lia.
    apply lookup_lt_is_Some in Hi as [d Hd].
    unfold get. replace (i <? 0) with false by (symmetry; apply Z.ltb_ge; lia).
    rewrite Hd. rewrite IH by lia.
    rewrite (drop_S _ _ _ Hd). replace (Z.to_nat (i + 1)) with (S (Z.to_nat i)) by lia.
    simpl. rewrite filter_cons. case_bool_decide as Hx.
    + by rewrite decide_False by (intros Hn'; by apply Hn').
    + rewrite decide_True by done. by rewrite <- app_assoc.
Qed.

Lemma slice_in_series {A : Type} (a : list A) (start stop : Z) :
  0 <= start -> start <= stop -> stop <= Z.of_nat (length a) ->
  slice a start stop = take (Z.to_nat (stop - start)) (drop (Z.to_nat start) a).
Proof.
  intros H0 H1 H2. unfold slice.
  replace (start <? 0) with false by (symmetry; apply Z.ltb_ge; lia).
  replace (stop <? 0) with false by (symmetry; apply Z.ltb_ge; lia).
  by rewrite !Z.min_l by lia.
Qed.

Lemma filter_not_in_empty (excl : gset Z) (l : list point) :
  excl = ∅ -> filter (fun d => Date d ∉ excl) l = l.
Proof.
  intros He. induction l as [|d l IH]; [done|].
  rewrite filter_cons, decide_True by set_solver. by rewrite IH.
Qed.

Lemma summaryStatistics_in_range data excl start end_ :
  0 <= start -> start <= end_ -> end_ < Z.of_nat (length data) ->
  summaryStatistics data excl start end_ =
    Ok {| stats_mean := mean (in_range data excl start end_);
          stats_sd := sd (in_range data excl start end_) |}.
Proof.
  intros H0 H1 H2. unfold summaryStatistics, in_range, isEmpty.
  replace (end_ + 1 - start) with (end_ - start + 1) by lia.
  case_bool_decide as He.
  - rewrite (filter_not_in_empty excl _ He), slice_in_series by lia.
    by replace (end_ + 1 - start) with (end_ - start + 1) by lia.
  - replace (start <? end_ + 1) with true by (symmetry; apply Z.ltb_lt; lia).
    rewrite collect_spec by lia. done.
Qed.




(** ** The sixteen-point step scenario *)

Lemma Qdiv_lt_l (a b c : Q) : (0 < c -> a / c < b <-> a < b * c)%Q.
Proof.
  intros Hc.
  assert (E : (a / c * c == a)%Q) by (field; intros E; rewrite E in Hc; inversion Hc).
  rewrite <- (Qmult_lt_r _ _ c Hc). rewrite E. reflexivity.
Qed.

Lemma Qlt_div_r (a b c : Q) : (0 < c -> b < a / c <-> b * c < a)%Q.
Proof.
  intros Hc.
  assert (E : (a / c * c == a)%Q) by (field; intros E; rewrite E in Hc; inversion Hc).
  rewrite <- (Qmult_lt_r _ _ c Hc). rewrite E. reflexivity.
Qed.

Lemma Qltb_ge (x y : Q) : Qltb x y = false <-> (y <= x)%Q.
Proof.
  unfold Qltb. rewrite negb_false_iff. apply Qle_bool_iff.
Qed.

Lemma find_break_empty data auto until s m cnt j j' o u d :
  get data j = Some d -> j' = j - 1 ->
  find_break data auto until ∅ s m (S cnt) j o u =
    let '(found, o', u') :=
      step8 (rule EIGHT_OVER_MEAN (Count d) m None)
            (rule EIGHT_UNDER_MEAN (Count d) m None)
            (allowed auto until s j d) o u in
    if found : bool then Some j
    else find_break data auto until ∅ s m cnt j' o' u'.
Proof.
  intros Hd ->. cbn [find_break]. rewrite Hd.
  by rewrite bool_decide_eq_false_2 by set_solver.
Qed.

Lemma allowed_start auto until s d : allowed auto until s s d = false.
Proof. unfold allowed. by rewrite Z.eqb_refl. Qed.

Lemma allowed_inside until s j d u :
  j ≠ s -> until = Some u -> Date d < u -> allowed true until s j d = true.
Proof.
  intros Hne -> Hlt. unfold allowed, date_lt.
  replace (j =? s) with false by (symmetry; by apply Z.eqb_neq).
  by apply Z.ltb_lt.
Qed.

Lemma step8_bounds ov un el o u found o' u' :
  step8 ov un el o u = (found, o', u') ->
  (o' <= S o)%nat ∧ (u' <= S u)%nat ∧
  (found = true -> el = true ∧ (S o = 8 ∨ S u = 8)%nat).
Proof.
  unfold step8. destruct ov, un, el; cbn [andb];
    repeat match goal with
    | |- context [(S ?n =? 8)%nat] => destruct (Nat.eqb_spec (S n) 8)
    end; cbn [andb]; intros [= <- <- <-]; repeat split; try lia; try done; eauto.
Qed.

(** A scan that ends at the start of the segment and is too short for a
    run of eight to end before it finds no break. *)
Lemma find_break_short data auto until excl s m cnt j o u :
  j - Z.of_nat cnt + 1 = s -> (o + cnt <= 8)%nat -> (u + cnt <= 8)%nat ->
  find_break data auto until excl s m cnt j o u = None.
Proof.
  revert j o u. induction cnt as [|cnt IH]; intros j o u Hj Ho Hu; cbn [find_break];
    [done|].
  destruct (get data j) as [d|]; [|done]. case_bool_decide; [apply IH; lia|].
  destruct (step8 _ _ _ _ _) as [[found o'] u'] eqn:Es.
  apply step8_bounds in Es as (Ho' & Hu' & Hf). destruct found.
  - destruct Hf as [Hel Hlen]; [done|]. exfalso.
    assert (cnt = 0%nat) as -> by lia.
    assert (j = s) as -> by lia. by rewrite allowed_start in Hel.
  - apply IH; lia.
Qed.

Lemma seek_step data auto until excl s fuel e st :
  e < Z.of_nat (length data) - 1 ->
  summaryStatistics data excl s (e + 1) = Ok st ->
  seek data auto until excl s (S fuel) e =
    match find_break data auto until excl s (stats_mean st)
            (Z.to_nat (e + 1 - s + 1)) (e + 1) 0 0 with
    | Some j => Some j
    | None => seek data auto until excl s fuel (e + 1)
    end.
Proof.
  intros He Hst. cbn [seek].
  replace (e <? Z.of_nat (length data) - 1) with true by (symmetry; by apply Z.ltb_lt).
  by rewrite Hst.
Qed.

Lemma seek_end data auto until excl s fuel e :
  Z.of_nat (length data) - 1 <= e -> seek data auto until excl s fuel e = None.
Proof.
  intros He. destruct fuel; cbn [seek];
    by replace (e <? Z.of_nat (length data) - 1) with false
      by (symmetry; by apply Z.ltb_ge).
Qed.

Section Step.
Variables c v8 v9 v10 v11 v12 v13 v14 v15 : Q.
Variables t0 t1 t2 t3 t4 t5 t6 t7 t8 t9 t10 t11 t12 t13 t14 t15 : Z.

Local Abbreviation hi := [v8; v9; v10; v11; v12; v13; v14; v15].
Local Abbreviation data :=
  (points [t0; t1; t2; t3; t4; t5; t6; t7; t8; t9; t10; t11; t12; t13; t14; t15]
          (replicate 8 c ++ hi)).

Hypothesis above : Forall (fun v => (sumQ (replicate 8 c ++ hi) / 16 < v)%Q) hi.
Hypothesis earlier : t8 < t15.

(** The mean [m] of the first [k] points lies strictly between the
    constant and each of the eight high values. *)
Ltac between m :=
  let H := fresh in
  pose proof above as H; repeat (apply Forall_cons in H as [? H]); clear H;
  cbn [replicate app sumQ foldr] in *; unfold inject_Z;
  rewrite Qdiv_lt_l in * by reflexivity;
  repeat split; try (rewrite Qlt_div_r by reflexivity); try (rewrite Qdiv_lt_l by reflexivity);
  Lqa.lra.

(** One scan of the first process, with the mean [m]. *)
Ltac first_scan m_expr :=
  eexists; split; [reflexivity|];
  cbn [stats_mean];
  change (mean (slice _ _ _)) with (Some m_expr);
  let Hm := fresh "Hm" in
  assert (Hm : (c < m_expr ∧ m_expr < v8 ∧ m_expr < v9 ∧ m_expr < v10 ∧ m_expr < v11
                ∧ m_expr < v12 ∧ m_expr < v13 ∧ m_expr < v14 ∧ m_expr < v15)%Q)
    by between m_expr;
  let m := fresh "m" in
  set (m := m_expr) in *; clearbody m;
  destruct Hm as (Hc & H8 & H9 & H10 & H11 & H12 & H13 & H14 & H15);
  assert (Ecu : Qltb c m = true) by (by apply Qltb_lt);
  assert (Eco : Qltb m c = false) by (apply Qltb_ge; Lqa.lra);
  assert (E8o : Qltb m v8 = true) by (by apply Qltb_lt);
  assert (E8u : Qltb v8 m = false) by (apply Qltb_ge; Lqa.lra);
  assert (E9o : Qltb m v9 = true) by (by apply Qltb_lt);
  assert (E9u : Qltb v9 m = false) by (apply Qltb_ge; Lqa.lra);
  assert (E10o : Qltb m v10 = true) by (by apply Qltb_lt);
  assert (E10u : Qltb v10 m = false) by (apply Qltb_ge; Lqa.lra);
  assert (E11o : Qltb m v11 = true) by (by apply Qltb_lt);
  assert (E11u : Qltb v11 m = false) by (apply Qltb_ge; Lqa.lra);
  assert (E12o : Qltb m v12 = true) by (by apply Qltb_lt);
  assert (E12u : Qltb v12 m = false) by (apply Qltb_ge; Lqa.lra);
  assert (E13o : Qltb m v13 = true) by (by apply Qltb_lt);
  assert (E13u : Qltb v13 m = false) by (apply Qltb_ge; Lqa.lra);
  assert (E14o : Qltb m v14 = true) by (by apply Qltb_lt);
  assert (E14u : Qltb v14 m = false) by (apply Qltb_ge; Lqa.lra);
  assert (E15o : Qltb m v15 = true) by (by apply Qltb_lt);
  assert (E15u : Qltb v15 m = false) by (apply Qltb_ge; Lqa.lra);
  repeat (erewrite find_break_empty by (vm_compute; reflexivity);
          cbn [rule Count];
          rewrite ?Ecu, ?Eco, ?E8o, ?E8u, ?E9o, ?E9u, ?E10o, ?E10u, ?E11o, ?E11u,
            ?E12o, ?E12u, ?E13o, ?E13u, ?E14o, ?E14u, ?E15o, ?E15u;
          cbn [step8 andb Nat.eqb];
          rewrite ?allowed_start, ?(allowed_inside (Some t15) 0 8 _ t15) by done);
  reflexivity.

Lemma first_scan_8 :
  ∃ st, summaryStatistics data ∅ 0 8 = Ok st ∧
        find_break data true (Some t15) ∅ 0 (stats_mean st) 9 8 0 0 = None.
Proof. first_scan (sumQ (replicate 8 c ++ [v8]) / inject_Z 9)%Q. Qed.

Lemma first_scan_9 :
  ∃ st, summaryStatistics data ∅ 0 9 = Ok st ∧
        find_break data true (Some t15) ∅ 0 (stats_mean st) 10 9 0 0 = None.
Proof. first_scan (sumQ (replicate 8 c ++ [v8; v9]) / inject_Z 10)%Q. Qed.

Lemma first_scan_10 :
  ∃ st, summaryStatistics data ∅ 0 10 = Ok st ∧
        find_break data true (Some t15) ∅ 0 (stats_mean st) 11 10 0 0 = None.
Proof. first_scan (sumQ (replicate 8 c ++ [v8; v9; v10]) / inject_Z 11)%Q. Qed.

Lemma first_scan_11 :
  ∃ st, summaryStatistics data ∅ 0 11 = Ok st ∧
        find_break data true (Some t15) ∅ 0 (stats_mean st) 12 11 0 0 = None.
Proof. first_scan (sumQ (replicate 8 c ++ [v8; v9; v10; v11]) / inject_Z 12)%Q. Qed.

Lemma first_scan_12 :
  ∃ st, summaryStatistics data ∅ 0 12 = Ok st ∧
        find_break data true (Some t15) ∅ 0 (stats_mean st) 13 12 0 0 = None.
Proof. first_scan (sumQ (replicate 8 c ++ [v8; v9; v10; v11; v12]) / inject_Z 13)%Q. Qed.

Lemma first_scan_13 :
  ∃ st, summaryStatistics data ∅ 0 13 = Ok st ∧
        find_break data true (Some t15) ∅ 0 (stats_mean st) 14 13 0 0 = None.
Proof. first_scan (sumQ (replicate 8 c ++ [v8; v9; v10; v11; v12; v13]) / inject_Z 14)%Q. Qed.

Lemma first_scan_14 :
  ∃ st, summaryStatistics data ∅ 0 14 = Ok st ∧
        find_break data true (Some t15) ∅ 0 (stats_mean st) 15 14 0 0 = None.
Proof. first_scan (sumQ (replicate 8 c ++ [v8; v9; v10; v11; v12; v13; v14]) / inject_Z 15)%Q. Qed.

Lemma first_scan_15 :
  ∃ st, summaryStatistics data ∅ 0 15 = Ok st ∧
        find_break data true (Some t15) ∅ 0 (stats_mean st) 16 15 0 0 = Some 8.
Proof. first_scan (sumQ (replicate 8 c ++ [v8; v9; v10; v11; v12; v13; v14; v15]) / inject_Z 16)%Q. Qed.

(** The [while] loop on the first process breaks at index 8. *)
Lemma seek_first (fuel : nat) :
  seek data true (Some t15) ∅ 0 (8 + fuel) 7 = Some 8.
Proof.
  destruct first_scan_8 as (s8 & E8 & F8). destruct first_scan_9 as (s9 & E9 & F9).
  destruct first_scan_10 as (s10 & E10 & F10). destruct first_scan_11 as (s11 & E11 & F11).
  destruct first_scan_12 as (s12 & E12 & F12). destruct first_scan_13 as (s13 & E13 & F13).
  destruct first_scan_14 as (s14 & E14 & F14). destruct first_scan_15 as (s15 & E15 & F15).
  cbn [Nat.add].
  rewrite (seek_step _ _ _ _ _ _ 7 s8) by (done || (simpl; lia)).
  change (Z.to_nat (7 + 1 - 0 + 1)) with 9%nat. change (7 + 1) with 8. rewrite F8.
  rewrite (seek_step _ _ _ _ _ _ 8 s9) by (done || (simpl; lia)).
  change (Z.to_nat (8 + 1 - 0 + 1)) with 10%nat. change (8 + 1) with 9. rewrite F9.
  rewrite (seek_step _ _ _ _ _ _ 9 s10) by (done || (simpl; lia)).
  change (Z.to_nat (9 + 1 - 0 + 1)) with 11%nat. change (9 + 1) with 10. rewrite F10.
  rewrite (seek_step _ _ _ _ _ _ 10 s11) by (done || (simpl; lia)).
  change (Z.to_nat (10 + 1 - 0 + 1)) with 12%nat. change (10 + 1) with 11. rewrite F11.
  rewrite (seek_step _ _ _ _ _ _ 11 s12) by (done || (simpl; lia)).
  change (Z.to_nat (11 + 1 - 0 + 1)) with 13%nat. change (11 + 1) with 12. rewrite F12.
  rewrite (seek_step _ _ _ _ _ _ 12 s13) by (done || (simpl; lia)).
  change (Z.to_nat (12 + 1 - 0 + 1)) with 14%nat. change (12 + 1) with 13. rewrite F13.
  rewrite (seek_step _ _ _ _ _ _ 13 s14) by (done || (simpl; lia)).
  change (Z.to_nat (13 + 1 - 0 + 1)) with 15%nat. change (13 + 1) with 14. rewrite F14.
  rewrite (seek_step _ _ _ _ _ _ 14 s15) by (done || (simpl; lia)).
  change (Z.to_nat (14 + 1 - 0 + 1)) with 16%nat. change (14 + 1) with 15. by rewrite F15.
Qed.

(** The [while] loop on the second process, from index 8, finds no break. *)
Lemma seek_second (fuel : nat) :
  seek data true (Some t15) ∅ 8 (S fuel) 14 = None.
Proof.
  erewrite seek_step; [|simpl; lia|reflexivity].
  rewrite find_break_short by (simpl; lia). by apply seek_end.
Qed.

Lemma step_run :
  ∃ ps, calculateSignals 40 data [blank 0 8 (-1)] 0 true (Some t15) ∅ = Ok ps ∧
        bounds ps = [(0, 7); (8, 15)].
Proof.
  change 40%nat with (S 39). cbn [calculateSignals].
  destruct (detect_last data true (Some t15) ∅ [] 39 (blank 0 8 (-1)))
    as (p0 & Hs0 & _ & [(Hseek & _) | (j & Hseek & _ & He0 & _ & Hrun)]);
    try done; try (simpl; lia).
  { exfalso. revert Hseek. change 39%nat with (8 + 31)%nat.
    cbn [endIndex blank length points zip_with replicate app]. simpl Z.of_nat.
    change (if 8 >=? 16 then 16 - 2 else 8 - 1) with 7. by rewrite seek_first. }
  assert (j = 8) as ->.
  { revert Hseek. change 39%nat with (8 + 31)%nat.
    cbn [endIndex blank length points zip_with replicate app]. simpl Z.of_nat.
    change (if 8 >=? 16 then 16 - 2 else 8 - 1) with 7. rewrite seek_first. congruence. }
  change (detect data true (Some t15) ∅ 0 39 [blank 0 8 (-1)]
          = Ok ([p0; new_process 8 (-1)], true)) in Hrun.
  rewrite Hrun. cbn [mbind result_bind orb]. change 39%nat with (S 38).
  cbn [calculateSignals Nat.add].
  destruct (detect_last data true (Some t15) ∅ [p0] 38 (new_process 8 (-1)))
    as (p1 & Hs1 & _ & [(_ & Hrun1 & He1) | (j & Hseek1 & _)]);
    try done; try (simpl; lia).
  2:{ exfalso. revert Hseek1.
      cbn [endIndex startIndex new_process length points zip_with replicate app].
      simpl Z.of_nat.
      change (if 8 + sig_length EIGHT_OVER_MEAN >=? 16 then 16 - 2 else _) with 14.
      change 38%nat with (S 37). by rewrite seek_second. }
  change (detect data true (Some t15) ∅ 1 38 [p0; new_process 8 (-1)]
          = Ok ([p0; p1], false)) in Hrun1.
  rewrite Hrun1. cbn [mbind result_bind orb]. simpl.
  eexists. split; [reflexivity|]. unfold bounds. simpl.
  rewrite Hs0, Hs1, He0, He1. done.
Qed.
End Step.

(** C4, as the claim words it: on [uneven_series] points 9 to 16 are all
    strictly above the constant 0, yet the break comes from
    EIGHT_UNDER_MEAN and the second process starts at index 1. *)
Lemma uneven_series_breaks_at_1 :
  ∃ ps, returns (fun fuel => getSignals fuel uneven_series
                   {| manualProcesses := []; autoDetectProcess := true;
                      autoDetectUntil := Some 16; datesToExclude := ∅ |}) ps ∧
        bounds ps = [(0, 0); (1, 15)] ∧
        Forall (fun d => (0 < Count d)%Q) (drop 8 uneven_series) ∧
        Forall (fun d => Count d = 0%Q) (take 8 uneven_series).
Proof.
  eexists. split; [apply (returns_getSignals 40); vm_compute; reflexivity|].
  split; [vm_compute; reflexivity|].
  split; repeat constructor.
Qed.




(** * Further properties of the code *)

(** ** Direction and nesting of the rules *)

Lemma gt_sigma_above v m s k : gt_sigma v m s k = true -> (m < v)%Q.
Proof.
  unfold gt_sigma. rewrite andb_true_iff, Qltb_lt. intros [H _]. Lqa.lra.
Qed.

Lemma lt_sigma_below v m s k : lt_sigma v m s k = true -> (v < m)%Q.
Proof.
  unfold lt_sigma. rewrite andb_true_iff, Qltb_lt. intros [H _]. Lqa.lra.
Qed.

(** [signalIsBelow] tells the direction of a rule: a rule it flags fires
    only on values strictly under the mean, any other rule only on values
    strictly over it; so no value fires a flagged and an unflagged rule
    at once. *)
Theorem signalIsBelow_direction (sig : SignalId) (v : Q) (m : option Q)
    (sdv : option sigma) :
  rule sig v m sdv = true ->
  ∃ mu, m = Some mu ∧
        (if signalIsBelow sig then (v < mu)%Q else (mu < v)%Q) ∧
        ∀ sig', signalIsBelow sig' ≠ signalIsBelow sig -> rule sig' v m sdv = false.
Proof.
  assert (Hdir : ∀ sig', rule sig' v m sdv = true ->
            ∃ mu, m = Some mu ∧ if signalIsBelow sig' then (v < mu)%Q else (mu < v)%Q).
  { intros sig' H. destruct m as [mu|]; [|by destruct sig'].
    exists mu. split; [done|].
    destruct sig'; simpl in H; unfold over, under in H;
      try (destruct sdv as [s|]; [|done]);
      first [ by apply Qltb_lt in H
            | by apply gt_sigma_above in H
            | by apply lt_sigma_below in H ]. }
  intros H. destruct (Hdir sig H) as (mu & -> & Hmu). exists mu.
  split; [done|]. split; [done|]. intros sig' Hne.
  destruct (rule sig' v (Some mu) sdv) eqn:E; [|done]. exfalso.
  destruct (Hdir sig' E) as (mu' & [= <-] & Hmu').
  destruct (signalIsBelow sig), (signalIsBelow sig'); try done;
    eapply Qlt_irrefl, Qlt_trans; eauto.
Qed.

Lemma signalIsBelow_direction_witness :
  ∃ mu, Some 10%Q = Some mu ∧
        (if signalIsBelow TWO_UNDER_TWO then (3 < mu)%Q else (mu < 3)%Q) ∧
        ∀ sig', signalIsBelow sig' ≠ signalIsBelow TWO_UNDER_TWO ->
                rule sig' 3 (Some 10%Q) (Some (Sqrt 4)) = false.
Proof.
  apply (signalIsBelow_direction TWO_UNDER_TWO 3 (Some 10%Q) (Some (Sqrt 4))).
  reflexivity.
Defined.


Lemma sumQ_nonneg (l : list Q) : Forall (fun x => (0 <= x)%Q) l -> (0 <= sumQ l)%Q.
Proof.
  induction 1 as [|x l Hx _ IH]; simpl; [Lqa.lra|]. Lqa.lra.
Qed.

Lemma square_nonneg (x : Q) : (0 <= x * x)%Q.
Proof.
  destruct (Qlt_le_dec x 0) as [H|H].
  - assert (E : (x * x == (- x) * (- x))%Q) by ring. rewrite E.
    apply Qmult_le_0_compat; Lqa.lra.
  - by apply Qmult_le_0_compat.
Qed.

(** [d3.deviation] is the root of a non-negative number. *)
Lemma sd_radicand (data : list point) (s : sigma) :
  sd data = Some s -> (0 <= radicand s)%Q.
Proof.
  unfold sd. destruct (mean data) as [m|]; [|done].
  destruct (length data <? 2)%nat eqn:E; [done|]. intros [= <-]. simpl.
  apply Nat.ltb_ge in E. unfold variance.
  apply Qle_shift_div_l.
  - unfold Qlt, inject_Z. simpl. lia.
  - rewrite Qmult_0_l. apply sumQ_nonneg, Forall_forall.
    intros x Hx. apply list_elem_of_In, in_map_iff in Hx as (d & <- & _).
    apply square_nonneg.
Qed.

Lemma gt_sigma_weaken v m s k k' :
  (0 <= radicand s)%Q -> (k * k <= k' * k')%Q ->
  gt_sigma v m s k' = true -> gt_sigma v m s k = true.
Proof.
  intros Hr Hk. unfold gt_sigma. rewrite !andb_true_iff, !Qltb_lt.
  intros [H1 H2]. split; [done|].
  eapply Qle_lt_trans; [|exact H2]. by apply Qmult_le_compat_r.
Qed.

Lemma lt_sigma_weaken v m s k k' :
  (0 <= radicand s)%Q -> (k * k <= k' * k')%Q ->
  lt_sigma v m s k' = true -> lt_sigma v m s k = true.
Proof.
  intros Hr Hk. unfold lt_sigma. rewrite !andb_true_iff, !Qltb_lt.
  intros [H1 H2]. split; [done|].
  eapply Qle_lt_trans; [|exact H2]. by apply Qmult_le_compat_r.
Qed.

(** Against the mean and deviation of any sample the rules nest: a value
    beyond three deviations is beyond two, a value beyond two is beyond
    one and a half, and a value beyond one and a half is beyond the mean,
    on either side. *)
Theorem rules_nest (pts : list point) (s : sigma) (m v : Q) :
  sd pts = Some s ->
  (rule ONE_OVER_THREE v (Some m) (Some s) = true ->
   rule TWO_OVER_TWO v (Some m) (Some s) = true) ∧
  (rule TWO_OVER_TWO v (Some m) (Some s) = true ->
   rule THREE_OVER_ONE_FIVE v (Some m) (Some s) = true) ∧
  (rule THREE_OVER_ONE_FIVE v (Some m) (Some s) = true ->
   rule EIGHT_OVER_MEAN v (Some m) (Some s) = true) ∧
  (rule ONE_UNDER_THREE v (Some m) (Some s) = true ->
   rule TWO_UNDER_TWO v (Some m) (Some s) = true) ∧
  (rule TWO_UNDER_TWO v (Some m) (Some s) = true ->
   rule THREE_UNDER_ONE_FIVE v (Some m) (Some s) = true) ∧
  (rule THREE_UNDER_ONE_FIVE v (Some m) (Some s) = true ->
   rule EIGHT_UNDER_MEAN v (Some m) (Some s) = true).
Proof.
  intros Hs. apply sd_radicand in Hs. simpl. unfold over, under.
  repeat split.
  - apply gt_sigma_weaken; [done|]. unfold Qle. simpl. lia.
  - apply gt_sigma_weaken; [done|]. unfold Qle. simpl. lia.
  - intros H. apply Qltb_lt. by eapply gt_sigma_above.
  - apply lt_sigma_weaken; [done|]. unfold Qle. simpl. lia.
  - apply lt_sigma_weaken; [done|]. unfold Qle. simpl. lia.
  - intros H. apply Qltb_lt. by eapply lt_sigma_below.
Qed.

Lemma rules_nest_witness :
  ∃ s, sd (drop 4 step_series) = Some s ∧
       (rule ONE_OVER_THREE 40 (Some 11%Q) (Some s) = true ->
        rule TWO_OVER_TWO 40 (Some 11%Q) (Some s) = true).
Proof.
  eexists. split; [vm_compute; reflexivity|].
  apply (rules_nest (drop 4 step_series) _ 11 40). vm_compute. reflexivity.
Defined.


(** ** The click handlers and [configureProperties] *)

Lemma getSignals_free data props :
  ∃ ps, returns (fun fuel => getSignals fuel data props) ps ∧
        ∀ p t, p ∈ ps -> t ∈ datesToExclude props -> signals p !! t = None.
Proof.
  destruct (getSignals_last data props) as (ps & Hret & _ & Hset & _).
  exists ps. split; [done|]. intros p t Hp Ht.
  rewrite Forall_forall in Hset. by eapply settled_free; [apply Hset|].
Qed.

(** Clicking a data point twice restores the exclusion set, hence the
    chart; and after one click on a point that was not excluded, no process
    of the segmentation classifies its date. *)
Theorem clickPoint_twice (props : properties) (d1 : Z) :
  clickPoint (clickPoint props d1) d1 = props ∧
  (∀ fuel data,
     displayChart fuel data (clickPoint (clickPoint props d1) d1)
       = displayChart fuel data props) ∧
  (d1 ∉ datesToExclude props ->
   ∀ data, ∃ ps, returns (fun fuel => getSignals fuel data (clickPoint props d1)) ps ∧
                 ∀ p, p ∈ ps -> signals p !! d1 = None).
Proof.
  assert (E : clickPoint (clickPoint props d1) d1 = props).
  { destruct props as [manual auto until excl]. unfold clickPoint. simpl.
    destruct (decide (d1 ∈ excl)) as [Hin|Hout].
    - rewrite (bool_decide_eq_true_2 _ Hin). simpl.
      rewrite bool_decide_eq_false_2 by set_solver.
      unfold set_datesToExclude. simpl. f_equal.
      apply set_eq. intros x. destruct (decide (x = d1)) as [->|]; set_solver.
    - rewrite (bool_decide_eq_false_2 _ Hout). simpl.
      rewrite bool_decide_eq_true_2 by set_solver.
      unfold set_datesToExclude. simpl. f_equal. set_solver. }
  split; [done|]. split; [intros; by rewrite E|].
  intros Hout data.
  destruct (getSignals_free data (clickPoint props d1)) as (ps & Hret & Hfree).
  exists ps. split; [done|]. intros p Hp. apply Hfree; [done|].
  unfold clickPoint. rewrite (bool_decide_eq_false_2 _ Hout). simpl. set_solver.
Qed.

Lemma clickPoint_twice_witness :
  let props := {| manualProcesses := []; autoDetectProcess := true;
                  autoDetectUntil := None; datesToExclude := {[ 3 ]} |} in
  ∃ ps, returns (fun fuel => getSignals fuel step_series (clickPoint props 12)) ps ∧
        ∀ p, p ∈ ps -> signals p !! 12 = None.
Proof.
  intros props. apply (proj2 (proj2 (clickPoint_twice props 12))).
  simpl. intros H. apply elem_of_singleton in H. done.
Defined.

(** The chart click handler keeps the manual breakpoints valid (distinct
    indices between 1 and the last index), given that the bisector returns
    an index from 1 on; under automatic detection it changes nothing. *)
Theorem clickChart_valid (props : properties) (dates : list Z) (xDate : Z) :
  valid_breaks (Z.of_nat (length dates)) (manualProcesses props) ->
  1 <= xDate ->
  valid_breaks (Z.of_nat (length dates))
    (manualProcesses (clickChart props dates xDate)) ∧
  (autoDetectProcess props = true -> clickChart props dates xDate = props) ∧
  (autoDetectProcess props = false -> xDate < Z.of_nat (length dates) ->
   xDate ∈ manualProcesses (clickChart props dates xDate)).
Proof.
  intros [Hnd Hall] Hx. unfold clickChart.
  destruct (autoDetectProcess props) eqn:Ea.
  { split; [done|]. split; done. }
  destruct (decide (xDate ∈ manualProcesses props)) as [Hin|Hout].
  - rewrite bool_decide_eq_false_2 by (intros H; by apply H). simpl.
    split; [done|]. split; done.
  - rewrite (bool_decide_eq_true_2 _ Hout). simpl.
    destruct (xDate <? Z.of_nat (length dates)) eqn:El.
    + apply Z.ltb_lt in El. simpl. split; [|split; [done|]].
      * split.
        -- apply NoDup_app. split; [done|]. split; [|apply NoDup_singleton].
           intros x Hx1 Hx2. apply list_elem_of_singleton in Hx2 as ->. done.
        -- apply Forall_app. split; [done|]. apply Forall_singleton. lia.
      * intros _ _. apply elem_of_app. right. by apply list_elem_of_singleton.
    + apply Z.ltb_ge in El. split; [done|]. split; [done|]. intros _ ?. lia.
Qed.

Lemma clickChart_valid_witness :
  let props := {| manualProcesses := [4]; autoDetectProcess := false;
                  autoDetectUntil := None; datesToExclude := ∅ |} in
  valid_breaks 16 (manualProcesses (clickChart props (map Date step_series) 9)).
Proof.
  intros props.
  apply (clickChart_valid props (map Date step_series) 9); [|lia].
  split; [apply NoDup_singleton|]. apply Forall_singleton. simpl. lia.
Defined.

Lemma d3_max_spec (l : list Z) (mx : Z) :
  d3_max l = Some mx -> mx ∈ l ∧ ∀ x, x ∈ l -> x <= mx.
Proof.
  destruct l as [|x l]; [done|]. simpl. intros [= <-].
  revert x. induction l as [|y l IH]; intros x; simpl.
  - split; [by left|]. intros z Hz. apply list_elem_of_singleton in Hz as ->. lia.
  - destruct (IH (Z.max x y)) as [Hin Hle]. split.
    + apply elem_of_cons in Hin as [E|Hin]; [|by do 2 right].
      rewrite E. destruct (Z.max_spec x y) as [[_ ->]|[_ ->]];
        [right; by left|by left].
    + intros z Hz. apply elem_of_cons in Hz as [->|Hz].
      * pose proof (Hle (Z.max x y) ltac:(by left)). lia.
      * apply elem_of_cons in Hz as [->|Hz].
        -- pose proof (Hle (Z.max x y) ltac:(by left)). lia.
        -- apply Hle. by right.
Qed.



(** ** Error and edge behaviour of [summaryStatistics] *)

Lemma collect_raises data excl cnt i tmp :
  (0 < cnt)%nat -> i < 0 ∨ Z.of_nat (length data) < i + Z.of_nat cnt ->
  collect data excl cnt i tmp = TypeError.
Proof.
  revert i tmp. induction cnt as [|cnt IH]; intros i tmp Hc Hr; [lia|].
  cbn [collect]. destruct (get data i) as [d|] eqn:Eg; [|done].
  unfold get in Eg. destruct (i <? 0) eqn:Ei; [done|]. apply Z.ltb_ge in Ei.
  apply lookup_lt_Some in Eg. apply IH; lia.
Qed.

Lemma mean_singleton (d : point) : ∃ m, mean [d] = Some m ∧ (m == Count d)%Q.
Proof.
  eexists. split; [reflexivity|]. simpl. field.
Qed.

(** What [summaryStatistics] does outside the well-behaved case.  Without
    exclusions it never throws, whatever the bounds, since [slice] clamps
    them.  With exclusions it reads [data[i]] for every [i] of
    [start .. end_]: on an empty range it returns its initial
    [{mean: 0, sd: 0}], on a non-empty one it throws exactly when the range
    leaves the series.  On a range inside the series that keeps one single
    point the mean is that point's count and the deviation is
    [undefined]. *)
Theorem summaryStatistics_edges (data : list point) (excl : gset Z) (start end_ : Z) :
  (excl = ∅ -> ∃ st, summaryStatistics data excl start end_ = Ok st) ∧
  (excl ≠ ∅ -> end_ < start ->
   summaryStatistics data excl start end_
     = Ok {| stats_mean := Some 0%Q; stats_sd := Some (Sqrt 0) |}) ∧
  (excl ≠ ∅ -> start <= end_ ->
   (summaryStatistics data excl start end_ = TypeError
    <-> start < 0 ∨ Z.of_nat (length data) <= end_)) ∧
  (0 <= start -> start <= end_ -> end_ < Z.of_nat (length data) ->
   ∀ d, in_range data excl start end_ = [d] ->
        ∃ m, summaryStatistics data excl start end_
               = Ok {| stats_mean := Some m; stats_sd := None |} ∧ (m == Count d)%Q).
Proof.
  repeat split.
  - intros ->. unfold summaryStatistics, isEmpty. rewrite bool_decide_eq_true_2 by done.
    eauto.
  - intros Hne Hlt. unfold summaryStatistics, isEmpty.
    rewrite bool_decide_eq_false_2 by done.
    by replace (start <? end_ + 1) with false by (symmetry; apply Z.ltb_ge; lia).
  - intros Hthrow. destruct (decide (start < 0 ∨ Z.of_nat (length data) <= end_)) as [|Hin];
      [done|]. exfalso.
    destruct (summaryStatistics_ok data excl start end_) as [st Hst]; [lia|lia|].
    congruence.
  - intros Hout. unfold summaryStatistics, isEmpty.
    rewrite bool_decide_eq_false_2 by done.
    replace (start <? end_ + 1) with true by (symmetry; apply Z.ltb_lt; lia).
    rewrite collect_raises; [done|lia|lia].
  - intros H0 H1 H2 d Hd. destruct (mean_singleton d) as (m & Hm & Hq).
    exists m. split; [|done].
    rewrite summaryStatistics_in_range by lia. rewrite Hd.
    by rewrite Hm.
Qed.

Lemma summaryStatistics_edges_witness :
  summaryStatistics step_series {[ 3 ]} 14 16 = TypeError.
Proof.
  apply (summaryStatistics_edges step_series {[ 3 ]} 14 16).
  - intros H. assert (H3 : 3 ∈ ({[ 3 ]} : gset Z)) by (by apply elem_of_singleton).
    rewrite H in H3. by apply not_elem_of_empty in H3.
  - lia.
  - right. simpl. lia.
Defined.

(** ** The default detection window *)

(** With [autoDetectUntil] absent, [configureProperties] sets it to the
    latest date of the series and [incrementSignal] compares strictly: no
    process that [getSignals] appends starts at a point carrying the latest
    date. *)
Theorem default_window_spares_latest (data : list point) (props : properties) :
  autoDetectUntil props = None ->
  ∃ ps, returns (fun fuel => getSignals fuel data props) ps ∧
        ∀ i p, ps !! S i = Some p ->
               ∃ d d', get data (startIndex p) = Some d ∧ d' ∈ data ∧
                       Date d < Date d' ∧ ∀ x, x ∈ data -> Date x <= Date d'.
Proof.
  intros Hu. destruct (getSignals_last data props) as (ps & Hret & _).
  exists ps. split; [done|]. intros i p Hp.
  destruct Hret as [fuel0 Hret]. specialize (Hret fuel0 ltac:(lia)).
  unfold getSignals in Hret. apply calculateSignals_frame in Hret as (js & Hjs & Hall).
  rewrite createProcess_nil in Hjs. simpl in Hjs.
  assert (Hj : js !! i = Some (startIndex p)).
  { assert (H : map startIndex ps !! S i = Some (startIndex p))
      by (by rewrite list_lookup_fmap, Hp).
    by rewrite Hjs in H. }
  rewrite Forall_lookup in Hall. destruct (Hall _ _ Hj) as (_ & d & Hd & _ & Hlt).
  unfold configureProperties in Hlt. cbn [autoDetectUntil] in Hlt.
  rewrite Hu in Hlt. unfold date_lt in Hlt.
  destruct (d3_max (map Date data)) as [mx|] eqn:Emx; [|done].
  apply Z.ltb_lt in Hlt. apply d3_max_spec in Emx as [Hin Hle].
  apply list_elem_of_fmap in Hin as (d' & -> & Hd').
  exists d, d'. repeat split; try done.
  intros x Hx. apply Hle. apply list_elem_of_fmap. eauto.
Qed.

Lemma default_window_spares_latest_witness :
  ∃ ps, returns (fun fuel => getSignals fuel step_series
                   {| manualProcesses := []; autoDetectProcess := true;
                      autoDetectUntil := None; datesToExclude := ∅ |}) ps ∧
        ∀ i p, ps !! S i = Some p ->
               ∃ d d', get step_series (startIndex p) = Some d ∧ d' ∈ step_series ∧
                       Date d < Date d' ∧ ∀ x, x ∈ step_series -> Date x <= Date d'.
Proof.
  apply (default_window_spares_latest step_series). reflexivity.
Defined.

(** ** What the signals of a process say *)

Lemma sig_length_pos (sig : SignalId) : 1 <= sig_length sig.
Proof. destruct sig; simpl; lia. Qed.

Lemma record_signal_cases sig sg d t s' :
  record_signal sig sg d !! t = Some s' -> sg !! t = Some s' ∨ (s' = sig ∧ t = d).
Proof.
  unfold record_signal. destruct (decide (t = d)) as [->|Hne].
  - destruct (sg !! d) as [old|] eqn:E; [destruct (_ <? _)|];
      rewrite ?lookup_insert_eq, ?E; intros [= <-]; eauto.
  - destruct (sg !! d) as [old|]; [destruct (_ <? _)|];
      rewrite ?lookup_insert_ne by done; eauto.
Qed.

Lemma record_signal_mono sig sg d t s0 :
  sg !! t = Some s0 ->
  ∃ s', record_signal sig sg d !! t = Some s' ∧ sig_length s' <= sig_length s0.
Proof.
  intros Hs. unfold record_signal. destruct (decide (t = d)) as [->|Hne].
  - rewrite Hs. destruct (_ <? _) eqn:E.
    + apply Z.ltb_lt in E. rewrite lookup_insert_eq. exists sig. split; [done|lia].
    + exists s0. split; [done|lia].
  - destruct (sg !! d) as [old|]; [destruct (_ <? _)|];
      rewrite ?lookup_insert_ne by done; exists s0; split; done || lia.
Qed.

Lemma record_signal_hit sig sg d :
  ∃ s', record_signal sig sg d !! d = Some s' ∧ sig_length s' <= sig_length sig.
Proof.
  unfold record_signal. destruct (sg !! d) as [old|] eqn:E; [destruct (_ <? _) eqn:E2|];
    rewrite ?lookup_insert_eq.
  - exists sig. split; [done|lia].
  - apply Z.ltb_ge in E2. exists old. split; [done|lia].
  - exists sig. split; [done|lia].
Qed.

Lemma foldl_record_cases sig (run : list Z) sg t s' :
  foldl (record_signal sig) sg run !! t = Some s' ->
  sg !! t = Some s' ∨ (s' = sig ∧ t ∈ run).
Proof.
  revert sg. induction run as [|d run IH]; simpl; intros sg H; [by left|].
  apply IH in H as [H|[-> H]].
  - apply record_signal_cases in H as [H|[-> ->]]; [by left|].
    right. split; [done|]. by left.
  - right. split; [done|]. by right.
Qed.

Lemma foldl_record_mono sig (run : list Z) sg t s0 :
  sg !! t = Some s0 ->
  ∃ s', foldl (record_signal sig) sg run !! t = Some s' ∧ sig_length s' <= sig_length s0.
Proof.
  revert sg s0. induction run as [|d run IH]; simpl; intros sg s0 H.
  - exists s0. split; [done|lia].
  - destruct (record_signal_mono sig sg d t s0 H) as (s1 & H1 & Hle1).
    destruct (IH _ _ H1) as (s2 & H2 & Hle2). exists s2. split; [done|lia].
Qed.

Lemma foldl_record_hit sig (run : list Z) sg t :
  t ∈ run ->
  ∃ s', foldl (record_signal sig) sg run !! t = Some s' ∧ sig_length s' <= sig_length sig.
Proof.
  revert sg. induction run as [|d run IH]; simpl; intros sg H.
  - by apply elem_of_nil in H.
  - apply elem_of_cons in H as [->|H]; [|by apply IH].
    destruct (record_signal_hit sig sg d) as (s1 & H1 & Hle1).
    destruct (foldl_record_mono sig run _ _ _ H1) as (s2 & H2 & Hle2).
    exists s2. split; [done|lia].
Qed.

Lemma record_run_cases sig sg (run : list Z) t s' :
  record_run sig sg run !! t = Some s' ->
  sg !! t = Some s' ∨ (s' = sig ∧ t ∈ run ∧ sig_length sig <= Z.of_nat (length run)).
Proof.
  unfold record_run. destruct (_ <=? _) eqn:E; [|by left].
  apply Z.leb_le in E. intros H. apply foldl_record_cases in H as [H|[-> H]]; eauto.
Qed.

Lemma record_run_mono sig sg (run : list Z) t s0 :
  sg !! t = Some s0 ->
  ∃ s', record_run sig sg run !! t = Some s' ∧ sig_length s' <= sig_length s0.
Proof.
  unfold record_run. destruct (_ <=? _); [apply foldl_record_mono|].
  intros H. exists s0. split; [done|lia].
Qed.

Lemma record_run_hit sig sg (run : list Z) t :
  sig_length sig <= Z.of_nat (length run) -> t ∈ run ->
  ∃ s', record_run sig sg run !! t = Some s' ∧ sig_length s' <= sig_length sig.
Proof.
  intros Hl Ht. unfold record_run.
  replace (_ <=? _) with true by (symmetry; by apply Z.leb_le).
  by apply foldl_record_hit.
Qed.

Lemma cur_snoc m sdv sig l d :
  cur m sdv sig (l ++ [d]) =
    if rule sig (Count d) m sdv then cur m sdv sig l ++ [d] else [].
Proof. unfold cur. by rewrite foldl_app. Qed.

Lemma cur_suffix m sdv sig l :
  ∃ l1, l = l1 ++ cur m sdv sig l ∧ Forall (sat m sdv sig) (cur m sdv sig l).
Proof.
  induction l as [|d l IH] using rev_ind.
  - exists []. split; [done|]. constructor.
  - rewrite cur_snoc. destruct IH as (l1 & Hl & Hall).
    destruct (rule sig (Count d) m sdv) eqn:E.
    + exists l1. split.
      * rewrite app_assoc. by rewrite <- Hl.
      * apply Forall_app. split; [done|]. by apply Forall_singleton.
    + exists (l ++ [d]). split; [by rewrite app_nil_r|]. constructor.
Qed.

Lemma cur_app_sat m sdv sig l1 b :
  Forall (sat m sdv sig) b -> cur m sdv sig (l1 ++ b) = cur m sdv sig l1 ++ b.
Proof.
  induction b as [|d b IH] using rev_ind; intros Hall.
  - by rewrite !app_nil_r.
  - apply Forall_app in Hall as [Hb Hd]. apply Forall_inv in Hd.
    rewrite app_assoc, cur_snoc. unfold sat in Hd. rewrite Hd. rewrite IH by done.
    by rewrite app_assoc.
Qed.

Lemma in_run_snoc m sdv sig l d t :
  in_run m sdv sig l t -> in_run m sdv sig (l ++ [d]) t.
Proof.
  intros (l1 & b & l2 & -> & Ht & Hl & Hall). exists l1, b, (l2 ++ [d]).
  split; [by rewrite <- !app_assoc|]. done.
Qed.

Lemma classified_ext m sdv P P' sg tr :
  (∀ s, P s = P' s) -> classified m sdv P sg tr -> classified m sdv P' sg tr.
Proof.
  intros He (HT & HS & HC). split; [|split].
  - intros sig. rewrite <- He. apply HT.
  - intros t sig H. rewrite <- He. by apply HS.
  - intros sig l1 b l2 t. rewrite <- He. apply HC.
Qed.

Lemma classified_run m sdv P sg tr sig :
  classified m sdv P sg tr -> tr !!! sig = map Date (cur m sdv sig (P sig)).
Proof. intros (HT & _). by rewrite lookup_total_alt, HT. Qed.

Lemma classified_push m sdv P sg tr sig d :
  classified m sdv P sg tr -> rule sig (Count d) m sdv = true ->
  classified m sdv (upd P sig d) sg (<[sig := tr !!! sig ++ [Date d]]> tr).
Proof.
  intros Hc Hr. pose proof (classified_run _ _ _ _ _ sig Hc) as Hrun.
  destruct Hc as (HT & HS & HC). unfold upd. split; [|split].
  - intros s. destruct (decide (s = sig)) as [->|Hne].
    + rewrite lookup_insert_eq, cur_snoc, Hr, Hrun, map_app. done.
    + rewrite lookup_insert_ne by done. apply HT.
  - intros t s Hs. destruct (decide (s = sig)) as [->|Hne]; [|by apply HS].
    apply in_run_snoc. by apply HS.
  - intros s l1 b l2 t. destruct (decide (s = sig)) as [->|Hne]; [|apply HC].
    destruct l2 as [|x l2 _] using rev_ind.
    { intros _ _ _ _. left. constructor. }
    rewrite !app_assoc. intros [Hp ->]%app_inj_tail Hb Hl Ht.
    rewrite <- app_assoc in Hp.
    destruct (HC _ _ _ _ _ Hp Hb Hl Ht) as [Hall|Hrec]; [left|by right].
    apply Forall_app. split; [done|]. by apply Forall_singleton.
Qed.

Lemma classified_clear m sdv P sg tr sig d :
  classified m sdv P sg tr -> rule sig (Count d) m sdv = false ->
  classified m sdv (upd P sig d) (record_run sig sg (tr !!! sig)) (<[sig := []]> tr).
Proof.
  intros Hc Hr. pose proof (classified_run _ _ _ _ _ sig Hc) as Hrun.
  destruct Hc as (HT & HS & HC). unfold upd. split; [|split].
  - intros s. destruct (decide (s = sig)) as [->|Hne].
    + by rewrite lookup_insert_eq, cur_snoc, Hr.
    + rewrite lookup_insert_ne by done. apply HT.
  - intros t s Hs. apply record_run_cases in Hs as [Hs|(-> & Ht & Hl)].
    + destruct (decide (s = sig)) as [->|Hne]; [|by apply HS].
      apply in_run_snoc. by apply HS.
    + rewrite decide_True by done. rewrite Hrun in Ht, Hl.
      destruct (cur_suffix m sdv sig (P sig)) as (l1 & Hp & Hall).
      exists l1, (cur m sdv sig (P sig)), [d]. split; [|split; [done|split; [|done]]].
      * rewrite app_assoc. by rewrite <- Hp.
      * by rewrite length_map in Hl.
  - intros s l1 b l2 t. destruct (decide (s = sig)) as [->|Hne].
    2:{ intros Hp Hb Hl Ht. destruct (HC _ _ _ _ _ Hp Hb Hl Ht) as [Hall|Hrec]; [by left|].
        right. destruct Hrec as (s1 & Hs1 & Hle1).
        destruct (record_run_mono sig sg (tr !!! sig) _ _ Hs1) as (s2 & Hs2 & Hle2).
        exists s2. split; [done|lia]. }
    destruct l2 as [|x l2 _] using rev_ind.
    { rewrite app_nil_r. intros Hp Hb Hl _. exfalso.
      destruct b as [|y b _] using rev_ind.
      { pose proof (sig_length_pos sig). simpl in Hl. lia. }
      rewrite app_assoc in Hp. apply app_inj_tail in Hp as [_ ->].
      apply Forall_app in Hb as [_ Hy]. apply Forall_inv in Hy.
      unfold sat in Hy. congruence. }
    rewrite !app_assoc. intros [Hp ->]%app_inj_tail Hb Hl Ht.
    rewrite <- app_assoc in Hp. right.
    destruct (HC _ _ _ _ _ Hp Hb Hl Ht) as [Hall|(s1 & Hs1 & Hle1)].
    + apply record_run_hit.
      * rewrite Hrun, length_map, Hp, cur_app_sat by (by apply Forall_app).
        rewrite !length_app. lia.
      * rewrite Hrun, Hp, cur_app_sat by (by apply Forall_app).
        rewrite map_app, map_app. apply elem_of_app. right. apply elem_of_app. by left.
    + destruct (record_run_mono sig sg (tr !!! sig) _ _ Hs1) as (s2 & Hs2 & Hle2).
      exists s2. split; [done|lia].
Qed.

Lemma rulesL_classified m sdv auto until s sigs d j P sg tr sg' tr' :
  NoDup sigs -> classified m sdv P sg tr ->
  rulesL auto until s m sdv sigs d j sg tr = (sg', tr', false) ->
  classified m sdv (fun x => if decide (x ∈ sigs) then P x ++ [d] else P x) sg' tr'.
Proof.
  revert P sg tr. induction sigs as [|sig sigs IH]; intros P sg tr Hnd Hc.
  - cbn [rulesL]. intros [= <- <-]. eapply classified_ext; [|exact Hc].
    intros x. cbv beta. by destruct (decide (x ∈ [])) as [?%elem_of_nil|].
  - apply NoDup_cons in Hnd as [Hnin Hnd]. rewrite rulesL_cons.
    assert (Hext : ∀ x, (if decide (x ∈ sigs) then upd P sig d x ++ [d] else upd P sig d x)
                        = if decide (x ∈ sig :: sigs) then P x ++ [d] else P x).
    { intros x. unfold upd. destruct (decide (x = sig)) as [->|Hne].
      - rewrite decide_False by done. rewrite decide_True; [done|]. by left.
      - destruct (decide (x ∈ sigs)) as [Hin|Hout].
        + rewrite decide_True; [done|]. by right.
        + rewrite decide_False; [done|]. intros [?|?]%elem_of_cons; done. }
    destruct (rule sig (Count d) m sdv) eqn:Er.
    + destruct (breaks _ _ _ _ _); [done|]. intros H.
      eapply classified_ext; [exact Hext|].
      eapply IH; [done| |exact H]. by apply classified_push.
    + intros H. eapply classified_ext; [exact Hext|].
      eapply IH; [done| |exact H]. by apply classified_clear.
Qed.

Lemma NoDup_SignalEnum : NoDup SignalEnum.
Proof. compute_done. Qed.

Lemma elem_of_SignalEnum (sig : SignalId) : sig ∈ SignalEnum.
Proof. destruct sig; compute_done. Qed.

Lemma scanL_classified data auto until excl s m sdv cnt j l sg tr sg' tr' :
  classified m sdv (fun _ => l) sg tr ->
  scanL data auto until excl s m sdv cnt j sg tr = Ok (sg', tr', None) ->
  classified m sdv (fun _ => l ++ visited data excl cnt j) sg' tr'.
Proof.
  revert j l sg tr. induction cnt as [|cnt IH]; intros j l sg tr Hc; cbn [scanL visited].
  - intros [= <- <-]. by rewrite app_nil_r.
  - destruct (get data j) as [d|]; [|done]. case_bool_decide as Hx; [by apply IH|].
    destruct (rulesL _ _ _ _ _ _ _ _ _ _) as [[sg1 tr1] found] eqn:Er.
    destruct found; [done|]. intros H.
    apply (rulesL_classified _ _ _ _ _ _ _ _ (fun _ => l)) in Er;
      [|apply NoDup_SignalEnum|done].
    assert (Hc1 : classified m sdv (fun _ => l ++ [d]) sg1 tr1).
    { eapply classified_ext; [|exact Er]. intros x. cbv beta.
      rewrite decide_True; [done|apply elem_of_SignalEnum]. }
    apply (IH _ _ _ _ Hc1) in H. eapply classified_ext; [|exact H].
    intros x. cbv beta. by rewrite <- app_assoc.
Qed.

Lemma classified_fresh m sdv : classified m sdv (fun _ => []) ∅ fresh_tracker.
Proof.
  split; [|split].
  - intros sig. by destruct sig.
  - intros t sig H. by rewrite lookup_empty in H.
  - intros sig l1 b l2 t Hp _ Hl _. exfalso.
    symmetry in Hp. apply app_eq_nil in Hp as [_ Hp]. apply app_eq_nil in Hp as [-> _].
    pose proof (sig_length_pos sig). simpl in Hl. lia.
Qed.

Lemma flushL_cons sig sigs sg tr :
  flushL (sig :: sigs) sg tr =
    flushL sigs (match tr !! sig with Some run => record_run sig sg run | None => sg end) tr.
Proof. done. Qed.

Lemma flushL_cases sigs sg tr t s' :
  flushL sigs sg tr !! t = Some s' ->
  sg !! t = Some s'
  ∨ ∃ run, tr !! s' = Some run ∧ t ∈ run ∧ sig_length s' <= Z.of_nat (length run).
Proof.
  revert sg. induction sigs as [|sig sigs IH]; intros sg; [by left|].
  rewrite flushL_cons. intros H. apply IH in H as [H|H]; [|by right].
  destruct (tr !! sig) as [run|] eqn:Er; [|by left].
  apply record_run_cases in H as [H|(-> & Ht & Hl)]; [by left|]. right. eauto.
Qed.

Lemma flushL_mono sigs sg tr t s0 :
  sg !! t = Some s0 ->
  ∃ s', flushL sigs sg tr !! t = Some s' ∧ sig_length s' <= sig_length s0.
Proof.
  revert sg s0. induction sigs as [|sig sigs IH]; intros sg s0 H.
  - exists s0. split; [done|lia].
  - rewrite flushL_cons.
    assert (∃ s1, (match tr !! sig with Some run => record_run sig sg run | None => sg end)
                    !! t = Some s1 ∧ sig_length s1 <= sig_length s0)
      as (s1 & H1 & Hle1).
    { destruct (tr !! sig) as [run|]; [by apply record_run_mono|].
      exists s0. split; [done|lia]. }
    destruct (IH _ _ H1) as (s2 & H2 & Hle2). exists s2. split; [done|lia].
Qed.

Lemma flushL_hit sigs sg tr sig (run : list Z) t :
  sig ∈ sigs -> tr !! sig = Some run ->
  sig_length sig <= Z.of_nat (length run) -> t ∈ run ->
  ∃ s', flushL sigs sg tr !! t = Some s' ∧ sig_length s' <= sig_length sig.
Proof.
  revert sg. induction sigs as [|s0 sigs IH]; intros sg Hin Hr Hl Ht.
  - by apply elem_of_nil in Hin.
  - rewrite flushL_cons. apply elem_of_cons in Hin as [<-|Hin]; [|by apply IH].
    rewrite Hr. destruct (record_run_hit sig sg run t Hl Ht) as (s1 & H1 & Hle1).
    destruct (flushL_mono sigs _ tr _ _ H1) as (s2 & H2 & Hle2).
    exists s2. split; [done|lia].
Qed.

(** A scan that finds no break, followed by the flush, enters a date under
    a rule only inside a long enough run of that rule, and enters every
    point of every long enough run, under a rule at most as long. *)
Lemma scan_classifies data auto until excl s m sdv cnt j sg tr :
  scanL data auto until excl s m sdv cnt j ∅ fresh_tracker = Ok (sg, tr, None) ->
  let pts := visited data excl cnt j in
  (∀ t sig, flushL SignalEnum sg tr !! t = Some sig -> in_run m sdv sig pts t) ∧
  (∀ t sig, in_run m sdv sig pts t ->
            ∃ sig', flushL SignalEnum sg tr !! t = Some sig' ∧
                    sig_length sig' <= sig_length sig).
Proof.
  intros Hsc pts.
  apply (scanL_classified _ _ _ _ _ _ _ _ _ []) in Hsc; [|apply classified_fresh].
  simpl in Hsc. fold pts in Hsc. destruct Hsc as (HT & HS & HC). split.
  - intros t sig H. apply flushL_cases in H as [H|(run & Hr & Ht & Hl)]; [by apply HS|].
    rewrite HT in Hr. injection Hr as <-. rewrite length_map in Hl.
    destruct (cur_suffix m sdv sig pts) as (l1 & Hp & Hall).
    exists l1, (cur m sdv sig pts), []. by rewrite app_nil_r.
  - intros t sig (l1 & b & l2 & Hp & Ht & Hl & Hb).
    destruct (HC _ _ _ _ _ Hp Hb Hl Ht) as [Hall|(s1 & Hs1 & Hle1)].
    + apply (flushL_hit _ _ _ sig (map Date (cur m sdv sig pts))).
      * apply elem_of_SignalEnum.
      * apply HT.
      * rewrite length_map, Hp, cur_app_sat by (by apply Forall_app).
        rewrite !length_app. lia.
      * rewrite Hp, cur_app_sat by (by apply Forall_app).
        rewrite map_app, map_app. apply elem_of_app. right. apply elem_of_app. by left.
    + destruct (flushL_mono SignalEnum _ tr _ _ Hs1) as (s2 & Hs2 & Hle2).
      exists s2. split; [done|lia].
Qed.

(** ** The points a scan visits *)

Lemma in_run_reverse m sdv sig pts t :
  in_run m sdv sig (reverse pts) t -> in_run m sdv sig pts t.
Proof.
  intros (l1 & b & l2 & Hp & Ht & Hl & Hall).
  exists (reverse l2), (reverse b), (reverse l1). split; [|split; [|split]].
  - apply (f_equal reverse) in Hp. rewrite reverse_involutive in Hp.
    by rewrite Hp, !reverse_app, <- app_assoc.
  - change (t ∈ Date <$> reverse b). rewrite fmap_reverse. by apply elem_of_reverse.
  - by rewrite length_reverse.
  - by apply Forall_reverse.
Qed.

Lemma visited_spec data excl (s : Z) (cnt : nat) :
  0 <= s -> s + Z.of_nat cnt <= Z.of_nat (length data) ->
  visited data excl cnt (s + Z.of_nat cnt - 1)
    = reverse (filter (fun d => Date d ∉ excl) (take cnt (drop (Z.to_nat s) data))).
Proof.
  intros H0. induction cnt as [|cnt IH]; intros Hn; [done|].
  cbn [visited].
  assert (Hi : (Z.to_nat s + cnt < length data)%nat) by lia.
  apply lookup_lt_is_Some in Hi as [d Hd].
  unfold get. replace (s + Z.of_nat (S cnt) - 1 <? 0) with false
    by (symmetry; apply Z.ltb_ge; lia).
  replace (Z.to_nat (s + Z.of_nat (S cnt) - 1)) with (Z.to_nat s + cnt)%nat by lia.
  rewrite Hd.
  replace (s + Z.of_nat (S cnt) - 1 - 1) with (s + Z.of_nat cnt - 1) by lia.
  rewrite IH by lia.
  rewrite (take_S_r _ _ d) by (by rewrite lookup_drop).
  rewrite filter_app, reverse_app. f_equal.
  rewrite filter_cons, filter_nil. case_bool_decide as Hx.
  - by rewrite decide_False by (intros Hc; by apply Hc).
  - by rewrite decide_True by done.
Qed.

Lemma visited_in_range data excl (s e : Z) :
  0 <= s -> e < Z.of_nat (length data) ->
  visited data excl (Z.to_nat (e - s + 1)) e = reverse (in_range data excl s e).
Proof.
  intros H0 Hn. unfold in_range.
  destruct (decide (0 < e - s + 1)) as [Hpos|Hneg].
  - rewrite <- (visited_spec data excl s) by lia. f_equal. lia.
  - replace (Z.to_nat (e - s + 1)) with 0%nat by lia. done.
Qed.

(** ** Where the dates of a scan come from *)

Lemma record_run_dated (P : Z -> Prop) sig sg (run : list Z) :
  (∀ t s0, sg !! t = Some s0 -> P t) -> (∀ t, t ∈ run -> P t) ->
  ∀ t s0, record_run sig sg run !! t = Some s0 -> P t.
Proof.
  intros Hsg Hrun t s0 H. apply record_run_cases in H as [H|(_ & H & _)]; eauto.
Qed.

Lemma rulesL_dated (P : Z -> Prop) auto until s m sdv sigs d j sg tr sg' tr' found :
  P (Date d) -> all_dated P sg tr ->
  rulesL auto until s m sdv sigs d j sg tr = (sg', tr', found) ->
  all_dated P sg' tr'.
Proof.
  intros Hd. revert sg tr. induction sigs as [|sig sigs IH]; intros sg tr [Hsg Htr].
  - cbn [rulesL]. by intros [= <- <- <-].
  - rewrite rulesL_cons.
    assert (Hpush : all_dated P sg (<[sig := tr !!! sig ++ [Date d]]> tr)).
    { split; [done|]. intros sig' run t Hl Ht.
      destruct (decide (sig = sig')) as [<-|Hne].
      - rewrite lookup_insert_eq in Hl. injection Hl as <-.
        apply elem_of_app in Ht as [Ht|Ht].
        + apply lookup_total_run in Ht as (run & Hr & Ht). by eapply Htr.
        + apply list_elem_of_singleton in Ht as ->. done.
      - rewrite lookup_insert_ne in Hl by done. by eapply Htr. }
    assert (Hclear : all_dated P (record_run sig sg (tr !!! sig)) (<[sig := []]> tr)).
    { split.
      - apply record_run_dated; [done|]. intros t Ht.
        apply lookup_total_run in Ht as (run & Hr & Ht). by eapply Htr.
      - intros sig' run t Hl Ht. destruct (decide (sig = sig')) as [<-|Hne].
        + rewrite lookup_insert_eq in Hl. injection Hl as <-. by apply elem_of_nil in Ht.
        + rewrite lookup_insert_ne in Hl by done. by eapply Htr. }
    destruct (rule sig (Count d) m sdv); [|by apply IH].
    destruct (breaks _ _ _ _ _); [by intros [= <- <- <-]|by apply IH].
Qed.

Lemma scanL_dated (P : Z -> Prop) data auto until excl s m sdv (lo : Z) cnt j sg tr
    sg' tr' brk :
  (∀ k d, lo <= k <= j -> get data k = Some d -> Date d ∉ excl -> P (Date d)) ->
  all_dated P sg tr ->
  scanL data auto until excl s m sdv cnt j sg tr = Ok (sg', tr', brk) ->
  lo <= match brk with Some j' => j' | None => j - Z.of_nat cnt + 1 end ->
  all_dated P sg' tr'.
Proof.
  revert j sg tr. induction cnt as [|cnt IH]; intros j sg tr HP Hd; cbn [scanL].
  - by intros [= <- <- <-].
  - destruct (get data j) as [d|] eqn:Eg; [|done]. case_bool_decide as Hx.
    + intros H Hlo. apply (IH (j - 1) sg tr); try done.
      * intros k d' Hk. apply HP. lia.
      * destruct brk; lia.
    + destruct (rulesL _ _ _ _ _ _ _ _ _ _) as [[sg1 tr1] found] eqn:Er.
      destruct found.
      * intros [= <- <- <-] Hlo.
        apply (rulesL_dated P) in Er; [done| |done]. apply (HP j); [lia|done|done].
      * intros H Hlo.
        assert (Hj : lo <= j).
        { destruct brk as [j'|]; [|lia]. apply scanL_break in H as [? _]. lia. }
        apply (rulesL_dated P) in Er; [| |done].
        2:{ apply (HP j); [lia|done|done]. }
        apply (IH (j - 1) sg1 tr1); try done.
        -- intros k d' Hk. apply HP. lia.
        -- destruct brk; lia.
Qed.

Lemma all_dated_fresh (P : Z -> Prop) : all_dated P ∅ fresh_tracker.
Proof.
  split; [intros t sig H; by rewrite lookup_empty in H|].
  intros sig run t Hl Ht.
  assert (run = []) as ->; [|by apply elem_of_nil in Ht].
  destruct sig; vm_compute in Hl; congruence.
Qed.

Lemma flushL_dated (P : Z -> Prop) sigs sg tr t sig :
  all_dated P sg tr -> flushL sigs sg tr !! t = Some sig -> P t.
Proof.
  intros [Hsg Htr] H. apply flushL_cases in H as [H|(run & Hr & Ht & _)]; eauto.
Qed.

(** ** What the [while] loop returns *)

Lemma loop_stop data auto until excl pIndex fuel ps tr found p :
  ps !! pIndex = Some p -> continue data found p = false ->
  loop data auto until excl pIndex fuel ps tr found = Ok (ps, tr, found).
Proof.
  intros Hp Hc. destruct fuel; cbn [loop]; rewrite (the_process_lookup _ _ _ Hp);
    cbn [mbind result_bind]; by rewrite Hc.
Qed.

Lemma loop_run data auto until excl pIndex fuel ps tr p ps' tr' found' :
  ps !! pIndex = Some p ->
  continue data false p = true ->
  loop data auto until excl pIndex fuel ps tr false = Ok (ps', tr', found') ->
  ∃ st e sg brk,
    endIndex p < e ∧ e <= Z.of_nat (length data) - 1 ∧ (cap p = -1 ∨ e <= cap p) ∧
    summaryStatistics data excl (startIndex p) e = Ok st ∧
    scanL data auto until excl (startIndex p) (stats_mean st) (stats_sd st)
      (Z.to_nat (e - startIndex p + 1)) e ∅ fresh_tracker = Ok (sg, tr', brk) ∧
    let p1 := Process (startIndex p) e (cap p) (stats_mean st) (stats_sd st) sg
                (startDate p) (endDate p) in
    match brk with
    | None => found' = false ∧ ps' = <[pIndex := p1]> ps ∧ continue data false p1 = false
    | Some j =>
        found' = true ∧
        ∃ q st2,
          createProcess (<[pIndex := p1]> ps) j (-1) !! pIndex = Some q ∧
          summaryStatistics data excl (startIndex q) (endIndex q) = Ok st2 ∧
          ps' = <[pIndex := set_stats st2 q]> (createProcess (<[pIndex := p1]> ps) j (-1))
    end.
Proof.
  revert ps tr p. induction fuel as [|fuel IH]; intros ps tr p Hp Hc; cbn [loop];
    rewrite (the_process_lookup _ _ _ Hp); cbn [mbind result_bind]; rewrite Hc; [done|].
  assert (Hb : endIndex p < Z.of_nat (length data) - 1 ∧
               (cap p = -1 ∨ endIndex p < cap p)).
  { unfold continue in Hc. rewrite !andb_true_iff, orb_true_iff in Hc.
    destruct Hc as [[_ H1] H2]. apply Z.ltb_lt in H1. split; [done|].
    destruct H2 as [H2|H2]; [left; by apply Z.eqb_eq|right; by apply Z.ltb_lt]. }
  rewrite (iteration_local _ _ _ _ _ _ _ Hp). cbv zeta.
  destruct (summaryStatistics data excl (startIndex p) (endIndex p + 1)) as [st| |] eqn:Est;
    cbn [mbind result_bind]; [|done|done].
  destruct (scanL _ _ _ _ _ _ _ _ _ _ _) as [[[sg1 tr1] brk]| |] eqn:Esc;
    cbn [mbind result_bind]; [|done|done].
  set (p1 := Process (startIndex p) (endIndex p + 1) (cap p) (stats_mean st)
               (stats_sd st) sg1 (startDate p) (endDate p)).
  assert (Hp1 : <[pIndex := p1]> ps !! pIndex = Some p1)
    by (by eapply insert_lookup_same).
  destruct brk as [j|].
  - destruct (the_process _ pIndex) as [q| |] eqn:Eq; cbn [mbind result_bind]; [|done|done].
    apply the_process_Ok in Eq.
    destruct (summaryStatistics data excl (startIndex q) (endIndex q)) as [st2| |] eqn:Est2;
      cbn [mbind result_bind]; [|done|done].
    rewrite (modify_lookup _ _ _ _ Eq).
    rewrite (loop_stop _ _ _ _ _ _ _ _ _ (set_stats st2 q));
      [|by eapply insert_lookup_same|done].
    intros [= <- <- <-]. exists st, (endIndex p + 1), sg1, (Some j).
    split; [lia|]. split; [lia|]. split; [lia|]. split; [done|]. split; [done|].
    fold p1. split; [done|]. exists q, st2. done.
  - destruct (continue data false p1) eqn:Ec1.
    + intros Hl. apply (IH _ _ p1 Hp1 Ec1) in Hl
        as (st' & e & sg & brk & He & Hen & Hcap & Hst' & Hsc' & Hres).
      exists st', e, sg, brk. cbn [startIndex endIndex cap startDate endDate p1] in *.
      split; [lia|]. split; [done|]. split; [done|]. split; [done|]. split; [done|].
      rewrite list_insert_insert_eq in Hres. exact Hres.
    + intros Hl.
      change (loop data auto until excl pIndex fuel (<[pIndex := p1]> ps) tr1 false
              = Ok (ps', tr', found')) in Hl.
      rewrite (loop_stop _ _ _ _ _ _ _ _ _ p1 Hp1 Ec1) in Hl.
      injection Hl as <- <- <-. exists st, (endIndex p + 1), sg1, None.
      split; [lia|]. split; [lia|]. split; [lia|]. split; [done|]. split; [done|].
      fold p1. done.
Qed.

(** ** What one call of [calculateSignals] leaves in the last process *)

Lemma stats_eta (st : stats) : {| stats_mean := stats_mean st; stats_sd := stats_sd st |} = st.
Proof. by destruct st. Qed.

Lemma detect_scanned data auto until excl done fuel p ps' found :
  cap p = -1 ->
  detect data auto until excl (length done) fuel (done ++ [p]) = Ok (ps', found) ->
  ∃ p', startIndex p' = startIndex p ∧ cap p' = -1 ∧
    ((found = false ∧ ps' = done ++ [p'] ∧ scanned_by data auto until excl p' None)
     ∨ (∃ j, found = true ∧ ps' = done ++ [p'; new_process j (-1)] ∧
             scanned_by data auto until excl p' (Some j))).
Proof.
  intros Hcap. unfold detect.
  rewrite (the_process_lookup _ _ _ (lookup_snoc_last done p)).
  cbn [mbind result_bind].
  rewrite (modify_lookup _ _ _ _ (lookup_snoc_last done p)), insert_snoc_last.
  rewrite (modify_lookup _ _ _ _ (lookup_snoc_last done _)), insert_snoc_last.
  cbn [endIndex set_signals].
  set (e0 := if endIndex p >=? Z.of_nat (length data)
             then Z.of_nat (length data) - 2 else endIndex p - 1).
  set (p0 := set_endIndex e0 (set_signals ∅ p)).
  assert (Hc0 : continue data false p0 = true).
  { unfold continue, p0. cbn [endIndex cap set_endIndex set_signals]. rewrite Hcap.
    replace (e0 <? Z.of_nat (length data) - 1) with true; [done|].
    symmetry. apply Z.ltb_lt. unfold e0. destruct (endIndex p >=? _) eqn:E; lia. }
  destruct (loop _ _ _ _ _ _ _ _ _) as [[[ps1 tr1] found1]| |] eqn:El;
    cbn [mbind result_bind]; [|done|done].
  apply (loop_run _ _ _ _ _ _ _ _ p0 _ _ _ (lookup_snoc_last done p0) Hc0) in El
    as (st & e & sg & brk & He & Hen & Hcp & Hst & Hsc & Hres).
  cbn [startIndex endIndex cap startDate endDate p0 set_endIndex set_signals] in *.
  set (p1 := Process (startIndex p) e (cap p) (stats_mean st) (stats_sd st) sg
               (startDate p) (endDate p)) in *.
  rewrite insert_snoc_last in Hres.
  destruct brk as [j|].
  - destruct Hres as (-> & q & st2 & Hq & Hst2 & ->).
    rewrite createProcess_snoc in Hq |- *. rewrite lookup_snoc2 in Hq.
    injection Hq as <-. rewrite insert_snoc2.
    rewrite (flush_local _ _ _ _ _ (lookup_snoc2 done _ _)), insert_snoc2.
    cbn [mbind result_bind]. intros [= <- <-].
    eexists. split; [|split; [|right; exists j; split; [done|split; [done|]]]];
      [done|done|].
    split.
    + unfold stats_of. cbn [startIndex endIndex pmean psd set_signals set_stats set_endIndex p1]
        in *. by rewrite stats_eta.
    + exists st, e, sg, tr1. cbn [startIndex endIndex cap signals set_signals set_stats
                                  set_endIndex p1]. repeat split; try done.
  - destruct Hres as (-> & -> & _).
    rewrite (flush_local _ _ _ _ _ (lookup_snoc_last done _)), insert_snoc_last.
    cbn [mbind result_bind]. intros [= <- <-].
    eexists. split; [|split; [|left; split; [done|split; [done|]]]]; [done|done|].
    split.
    + unfold stats_of. cbn [startIndex endIndex pmean psd set_signals p1].
      by rewrite stats_eta.
    + exists st, e, sg, tr1. cbn [startIndex endIndex cap signals set_signals p1].
      repeat split; try done.
Qed.

Lemma calc_scanned data auto until excl fuel :
  ∀ pre p ps',
  cap p = -1 ->
  calculateSignals fuel data (pre ++ [p]) (length pre) auto until excl = Ok ps' ->
  ∃ tail, ps' = pre ++ tail ∧ scanned_chain data auto until excl tail ∧
          ∃ q, head tail = Some q ∧ startIndex q = startIndex p.
Proof.
  induction fuel as [|fuel IH]; intros pre p ps' Hcap; cbn [calculateSignals].
  { intros H. discriminate H. }
  destruct (detect _ _ _ _ _ _ _) as [[ps1 found1]| |] eqn:Ed;
    cbn [mbind result_bind]; [|done|done].
  apply (detect_scanned _ _ _ _ _ _ _ _ _ Hcap) in Ed
    as (p' & Hs' & Hc' & [(-> & -> & Hsc) | (j & -> & -> & Hsc)]).
  - rewrite length_app. simpl.
    replace (Z.of_nat (length pre) <? Z.of_nat (length pre + 1) - 1) with false
      by (symmetry; apply Z.ltb_ge; lia).
    intros [= <-]. exists [p']. split; [done|]. split; [done|]. by exists p'.
  - simpl.
    replace (pre ++ [p'; new_process j (-1)])
      with ((pre ++ [p']) ++ [new_process j (-1)]) by (by rewrite <- app_assoc).
    replace (length pre + 1)%nat with (length (pre ++ [p']))
      by (rewrite length_app; simpl; lia).
    intros H. apply IH in H as (tail & -> & Hch & q & Hq & Hsq); [|done].
    exists (p' :: tail). split; [by rewrite <- app_assoc|]. split; [|by exists p'].
    destruct tail as [|q' tail]; [done|]. simpl in Hq. injection Hq as ->.
    split; [|done]. by rewrite Hsq.
Qed.

Lemma scanned_chain_lookup data auto until excl ps i p :
  scanned_chain data auto until excl ps -> ps !! i = Some p ->
  match ps !! S i with
  | Some q => scanned_by data auto until excl p (Some (startIndex q))
  | None => scanned_by data auto until excl p None
  end.
Proof.
  revert i. induction ps as [|p0 ps IH]; intros i; [done|].
  destruct i as [|i]; simpl.
  - intros H [= ->]. destruct ps as [|q ps]; [done|]. by destruct H.
  - intros H Hp. destruct ps as [|q ps]; [done|]. destruct H as [_ H].
    by apply IH.
Qed.

Lemma getSignals_scanned data props :
  ∃ ps, returns (fun fuel => getSignals fuel data props) ps ∧
        chain 0 ps (Z.of_nat (length data) - 1) ∧
        scanned_chain data (autoDetectProcess props)
          (autoDetectUntil (configureProperties props data)) (datesToExclude props) ps.
Proof.
  destruct (getSignals_last data props) as (ps & Hret & Hch & _).
  exists ps. split; [done|]. split; [done|].
  destruct Hret as [fuel0 Hret]. specialize (Hret fuel0 ltac:(lia)).
  unfold getSignals in Hret. rewrite createProcess_nil in Hret.
  apply (calc_scanned _ _ _ _ _ [] (new_process 0 (-1))) in Hret
    as (tail & -> & Hsc & _); done.
Qed.

(** A break lies after the start of the process it cuts, inside the
    scanned range. *)
Lemma scanned_by_break data auto until excl p j :
  scanned_by data auto until excl p (Some j) ->
  startIndex p < j <= Z.of_nat (length data) - 1 ∧ endIndex p = j - 1.
Proof.
  intros (_ & st & e & sg & tr & _ & Hsc & _ & He & _ & Hend).
  apply scanL_break in Hsc as [Hj (Hne & _)]. lia.
Qed.

Lemma scanned_bounds data auto until excl ps i p :
  chain 0 ps (Z.of_nat (length data) - 1) ->
  scanned_chain data auto until excl ps -> ps !! i = Some p ->
  0 <= startIndex p ∧ endIndex p <= Z.of_nat (length data) - 1 ∧
  (data ≠ [] -> startIndex p <= endIndex p).
Proof.
  intros Hch Hsc Hp. pose proof (chain_lower _ _ _ _ _ Hch Hp) as H0.
  split; [done|].
  assert (Hstart : data ≠ [] -> startIndex p <= Z.of_nat (length data) - 1).
  { intros Hne. destruct i as [|i].
    - destruct (chain_head _ _ _ Hch) as (p0 & Hh & Hs0).
      destruct ps as [|p1 ps]; [done|]. simpl in Hh, Hp.
      assert (p0 = p) as -> by congruence. rewrite Hs0.
      destruct data; [done|]. simpl. lia.
    - destruct (lookup_lt_is_Some_2 ps i) as [r Hr].
      { apply lookup_lt_Some in Hp. lia. }
      pose proof (scanned_chain_lookup _ _ _ _ _ _ _ Hsc Hr) as Hb. rewrite Hp in Hb.
      apply scanned_by_break in Hb. lia. }
  pose proof (scanned_chain_lookup _ _ _ _ _ _ _ Hsc Hp) as Hb.
  destruct (ps !! S i) as [q|] eqn:Eq.
  - apply scanned_by_break in Hb. split; [lia|]. intros _.
    destruct (chain_adjacent _ _ _ _ _ _ Hch Hp Eq). lia.
  - destruct (chain_last _ _ _ Hch) as (r & Hr & Her).
    assert (r = p) as ->.
    { rewrite last_lookup in Hr. apply lookup_ge_None in Eq.
      apply lookup_lt_Some in Hp as Hlt.
      replace (Nat.pred (length ps)) with i in Hr by lia. congruence. }
    split; [lia|]. intros Hne. specialize (Hstart Hne). lia.
Qed.

(** ** The statistics of the processes *)

(** Every process that [getSignals] returns carries the statistics of its
    final range: [mean] and [sd] are what [summaryStatistics] gives on
    [startIndex .. endIndex], so the mean and the deviation of the
    non-excluded points there; a process cut by a break does not keep the
    statistics of the longer range in which the break was found. *)
Theorem getSignals_statistics (data : list point) (props : properties) :
  ∃ ps, returns (fun fuel => getSignals fuel data props) ps ∧
        ∀ p, p ∈ ps ->
             stats_of data (datesToExclude props) p ∧
             (data ≠ [] ->
              let pts := in_range data (datesToExclude props) (startIndex p) (endIndex p) in
              pmean p = mean pts ∧ psd p = sd pts).
Proof.
  destruct (getSignals_scanned data props) as (ps & Hret & Hch & Hsc).
  exists ps. split; [done|]. intros p Hp. apply list_elem_of_lookup in Hp as [i Hp].
  pose proof (scanned_chain_lookup _ _ _ _ _ _ _ Hsc Hp) as Hb.
  assert (Hst : stats_of data (datesToExclude props) p).
  { destruct (ps !! S i); by destruct Hb. }
  split; [done|]. intros Hne pts.
  destruct (scanned_bounds _ _ _ _ _ _ _ Hch Hsc Hp) as (H0 & Hn & Hle).
  specialize (Hle Hne). unfold stats_of in Hst.
  rewrite summaryStatistics_in_range in Hst by lia. injection Hst as H1 H2.
  unfold pts. by rewrite H1, H2.
Qed.

(** ** The signals of a process cut by a break *)

(** A process that an automatic break cut keeps the signals of the scan
    that found the break; that scan ran from the end of the longer range
    down to the break and stopped there.  So every date in its [signals]
    dates a non-excluded point after its final [endIndex], and when the
    dates of the series are distinct none of its own points has a signal. *)
Theorem cut_process_signals (data : list point) (props : properties) :
  ∃ ps, returns (fun fuel => getSignals fuel data props) ps ∧
        ∀ i p q, ps !! i = Some p -> ps !! S i = Some q ->
          (∀ t, is_Some (signals p !! t) ->
                dated data (datesToExclude props) (endIndex p + 1)
                  (Z.of_nat (length data) - 1) t) ∧
          (NoDup (map Date data) ->
           ∀ k d, k <= endIndex p -> get data k = Some d -> signals p !! Date d = None).
Proof.
  destruct (getSignals_scanned data props) as (ps & Hret & Hch & Hsc).
  exists ps. split; [done|]. intros i p q Hp Hq.
  pose proof (scanned_chain_lookup _ _ _ _ _ _ _ Hsc Hp) as Hb. rewrite Hq in Hb.
  pose proof (scanned_by_break _ _ _ _ _ _ Hb) as [Hj Hend].
  assert (Hkeys : ∀ t, is_Some (signals p !! t) ->
            dated data (datesToExclude props) (endIndex p + 1)
              (Z.of_nat (length data) - 1) t).
  { intros t [sig Ht].
    destruct Hb as (_ & st & e & sg & tr & _ & Hscan & Hsg & He & _ & _).
    rewrite Hsg in Ht. eapply flushL_dated; [|exact Ht].
    eapply (scanL_dated _ _ _ _ _ _ _ _ (startIndex q));
      [|apply all_dated_fresh|exact Hscan|simpl; lia].
    intros k d Hk Hg Hx. exists k, d. repeat split; try done; lia. }
  split; [done|]. intros Hnd k d Hk Hg.
  destruct (signals p !! Date d) as [sig|] eqn:Es; [|done]. exfalso.
  destruct (Hkeys (Date d) ltac:(eauto)) as (k' & d' & Hk' & Hg' & Hd' & _).
  unfold get in Hg, Hg'.
  destruct (k <? 0) eqn:E0; [done|]. destruct (k' <? 0) eqn:E0'; [done|].
  apply Z.ltb_ge in E0, E0'.
  assert (Hi : map Date data !! Z.to_nat k = Some (Date d))
    by (by rewrite list_lookup_fmap, Hg).
  assert (Hi' : map Date data !! Z.to_nat k' = Some (Date d))
    by (by rewrite list_lookup_fmap, Hg', <- Hd').
  pose proof (NoDup_lookup _ _ _ _ Hnd Hi Hi'). lia.
Qed.

(** ** The signals of a process that no break cut *)

Lemma rule_side sig v mu sdv :
  rule sig v (Some mu) sdv = true ->
  if signalIsBelow sig then (v < mu)%Q else (mu < v)%Q.
Proof.
  intros H. destruct sig; simpl in H; unfold over, under in H;
    try (destruct sdv as [s|]; [|done]);
    first [ by apply Qltb_lt in H
          | by apply gt_sigma_above in H
          | by apply lt_sigma_below in H ].
Qed.

Lemma rule_same_length sig sig' v m sdv :
  rule sig v m sdv = true -> rule sig' v m sdv = true ->
  sig_length sig = sig_length sig' -> sig = sig'.
Proof.
  intros H H' Hl. destruct m as [mu|]; [|by destruct sig].
  apply rule_side in H, H'.
  destruct sig, sig'; try done; simpl in Hl; try lia; exfalso;
    vm_compute signalIsBelow in H, H'; cbv iota in H, H';
    eapply Qlt_irrefl, Qlt_trans; eauto.
Qed.

Lemma NoDup_map_inj {A B : Type} (f : A -> B) (l : list A) (x y : A) :
  NoDup (map f l) -> x ∈ l -> y ∈ l -> f x = f y -> x = y.
Proof.
  induction l as [|a l IH]; simpl; intros Hnd Hx Hy Hf.
  - by apply elem_of_nil in Hx.
  - apply NoDup_cons in Hnd as [Hnin Hnd].
    apply elem_of_cons in Hx as [->|Hx]; apply elem_of_cons in Hy as [->|Hy];
      try done.
    + exfalso. apply Hnin. rewrite Hf. apply list_elem_of_fmap. eauto.
    + exfalso. apply Hnin. rewrite <- Hf. apply list_elem_of_fmap. eauto.
    + by apply IH.
Qed.

Lemma in_run_sat m sdv sig pts d :
  NoDup (map Date pts) -> d ∈ pts -> in_run m sdv sig pts (Date d) -> sat m sdv sig d.
Proof.
  intros Hnd Hd (l1 & b & l2 & Hp & Ht & _ & Hall).
  apply list_elem_of_fmap in Ht as (d1 & Hd1 & Hin).
  assert (d1 ∈ pts).
  { rewrite Hp. apply elem_of_app. right. apply elem_of_app. by left. }
  assert (d = d1) as -> by (by eapply NoDup_map_inj).
  rewrite Forall_forall in Hall. by apply Hall.
Qed.

(** The last process that [getSignals] returns (the only one when
    detection is off) was cut by no break, and its [signals] are exact
    against its own [mean] and [sd]: a date is entered under a rule only
    if it dates a point inside a run of at least [length] consecutive
    non-excluded points of the process that all meet the rule; every point
    of such a run is entered, under a rule with at most that [length];
    and when dates are distinct a point is entered under the rule with the
    shortest [length] among those it has a run for. *)
Theorem last_process_signals (data : list point) (props : properties) :
  ∃ ps p, returns (fun fuel => getSignals fuel data props) ps ∧ last ps = Some p ∧
    let pts := in_range data (datesToExclude props) (startIndex p) (endIndex p) in
    let m := pmean p in
    let sdv := psd p in
    (∀ t sig, signals p !! t = Some sig -> in_run m sdv sig pts t) ∧
    (∀ t sig, in_run m sdv sig pts t ->
              ∃ sig', signals p !! t = Some sig' ∧ sig_length sig' <= sig_length sig) ∧
    (NoDup (map Date pts) ->
     ∀ d sig, d ∈ pts ->
       (signals p !! Date d = Some sig
        <-> in_run m sdv sig pts (Date d) ∧
            ∀ sig', in_run m sdv sig' pts (Date d) -> sig_length sig <= sig_length sig')).
Proof.
  destruct (getSignals_scanned data props) as (ps & Hret & Hch & Hsc).
  destruct (chain_last _ _ _ Hch) as (p & Hlast & Hend).
  exists ps, p. split; [done|]. split; [done|].
  assert (Hp : ps !! Nat.pred (length ps) = Some p) by (by rewrite <- last_lookup).
  pose proof (scanned_chain_lookup _ _ _ _ _ _ _ Hsc Hp) as Hb.
  assert (Hnone : ps !! S (Nat.pred (length ps)) = None) by (apply lookup_ge_None; lia).
  rewrite Hnone in Hb.
  destruct (scanned_bounds _ _ _ _ _ _ _ Hch Hsc Hp) as (H0 & Hn & _).
  destruct Hb as (Hst & st & e & sg & tr & Hste & Hscan & Hsg & _ & _ & He).
  subst e. unfold stats_of in Hst. rewrite Hste in Hst. injection Hst as ->.
  cbn [stats_mean stats_sd] in Hscan.
  intros pts m sdv.
  destruct (scan_classifies _ _ _ _ _ _ _ _ _ _ _ Hscan) as [HS HC].
  rewrite visited_in_range in HS, HC by lia. fold pts in HS, HC. rewrite <- Hsg in HS, HC.
  assert (HS' : ∀ t sig, signals p !! t = Some sig -> in_run m sdv sig pts t).
  { intros t sig H. by apply in_run_reverse, HS. }
  assert (HC' : ∀ t sig, in_run m sdv sig pts t ->
            ∃ sig', signals p !! t = Some sig' ∧ sig_length sig' <= sig_length sig).
  { intros t sig H. apply HC. apply in_run_reverse. by rewrite reverse_involutive. }
  split; [done|]. split; [done|].
  intros Hnd d sig Hd. split.
  - intros Hs. split; [by apply HS'|]. intros sig' H'.
    destruct (HC' _ _ H') as (s2 & Hs2 & Hle). congruence.
  - intros [Hrun Hmin]. destruct (HC' _ _ Hrun) as (s0 & Hs0 & Hle).
    pose proof (HS' _ _ Hs0) as Hrun0. pose proof (Hmin _ Hrun0) as Hge.
    assert (s0 = sig) as ->; [|done].
    eapply rule_same_length; [| |lia].
    + by apply (in_run_sat m sdv s0 pts d).
    + by apply (in_run_sat m sdv sig pts d).
Qed.

(** ** Exact signals *)

Lemma scanned_exact data auto until excl p :
  0 <= startIndex p ->
  scanned_by data auto until excl p None -> exact_signals data excl p.
Proof.
  intros H0 (Hst & st & e & sg & tr & Hste & Hscan & Hsg & Hn & _ & He).
  subst e. unfold stats_of in Hst. rewrite Hste in Hst. injection Hst as ->.
  cbn [stats_mean stats_sd] in Hscan.
  destruct (scan_classifies _ _ _ _ _ _ _ _ _ _ _ Hscan) as [HS HC].
  rewrite visited_in_range in HS, HC by lia. rewrite <- Hsg in HS, HC.
  split.
  - intros t sig H. by apply in_run_reverse, HS.
  - intros t sig H. apply HC. apply in_run_reverse. by rewrite reverse_involutive.
Qed.

(** ** The [while] loop never throws on a process that starts in the series *)

Lemma iteration_safe data auto until excl pIndex ps p :
  ps !! pIndex = Some p -> 0 <= startIndex p ->
  endIndex p + 1 <= Z.of_nat (length data) - 1 ->
  iteration data auto until excl pIndex ps ≠ TypeError.
Proof.
  intros Hp H0 Hn. rewrite (iteration_local _ _ _ _ _ _ _ Hp). cbv zeta.
  destruct (summaryStatistics_ok data excl (startIndex p) (endIndex p + 1))
    as [st ->]; [lia|lia|]. cbn [mbind result_bind].
  destruct (scanL_ok data auto until excl (startIndex p) (stats_mean st) (stats_sd st)
              (Z.to_nat (endIndex p + 1 - startIndex p + 1)) (endIndex p + 1)
              ∅ fresh_tracker) as [[[sg1 tr1] brk] Esc]; [lia|].
  rewrite Esc. cbn [mbind result_bind].
  destruct brk as [j|]; [|done].
  apply scanL_break in Esc as [Hj _].
  set (p1 := Process _ _ _ _ _ _ _ _).
  rewrite (the_process_lookup _ _ _
             (lookup_createProcess _ j (-1) pIndex p1 (insert_lookup_same _ _ _ _ Hp))).
  cbn [mbind result_bind].
  set (q := if decide _ then _ else _).
  destruct (summaryStatistics_ok data excl (startIndex q) (endIndex q)) as [st2 ->].
  - unfold q. case_decide; simpl; lia.
  - unfold q. case_decide; simpl; lia.
  - done.
Qed.

Lemma loop_safe data auto until excl pIndex fuel ps tr found p :
  ps !! pIndex = Some p -> 0 <= startIndex p ->
  loop data auto until excl pIndex fuel ps tr found ≠ TypeError.
Proof.
  revert ps tr found p. induction fuel as [|fuel IH]; intros ps tr found p Hp H0;
    cbn [loop]; rewrite (the_process_lookup _ _ _ Hp); cbn [mbind result_bind];
    destruct (continue data found p) eqn:Ec; try done.
  assert (Hlt : endIndex p < Z.of_nat (length data) - 1).
  { unfold continue in Ec. rewrite !andb_true_iff in Ec.
    destruct Ec as [[_ Hlt] _]. by apply Z.ltb_lt in Hlt. }
  pose proof (iteration_safe data auto until excl pIndex ps p Hp H0 ltac:(lia)) as Hs.
  destruct (iteration _ _ _ _ _ _) as [[[ps1 tr1] found1]| |] eqn:Eit;
    cbn [mbind result_bind]; try done.
  destruct (iteration_frame _ _ _ _ _ _ _ _ _ _ Hp Eit) as (p' & Hp' & Hs' & _).
  apply (IH _ _ _ p'); [done|lia].
Qed.

(** ** A call of [calculateSignals] without detection on a capped process *)

Lemma detect_manual data until excl pIndex fuel ps p :
  ps !! pIndex = Some p -> capped (Z.of_nat (length data)) p ->
  (length data + 1 <= fuel)%nat ->
  ∃ p', detect data false until excl pIndex fuel ps = Ok (<[pIndex := p']> ps, false) ∧
        finished data until excl p p'.
Proof.
  intros Hp (H0 & Hse & Hec & Hcn) Hfuel. unfold detect.
  rewrite (the_process_lookup _ _ _ Hp). cbn [mbind result_bind].
  rewrite (modify_lookup _ _ _ _ Hp).
  rewrite (modify_lookup _ _ _ _ (insert_lookup_same _ _ _ _ Hp)).
  rewrite list_insert_insert_eq. cbn [endIndex set_signals].
  replace (endIndex p >=? Z.of_nat (length data)) with false
    by (rewrite Z.geb_leb; symmetry; apply Z.leb_gt; lia).
  set (p0 := set_endIndex (endIndex p - 1) (set_signals ∅ p)).
  assert (Hp0 : <[pIndex := p0]> ps !! pIndex = Some p0)
    by (by eapply insert_lookup_same).
  assert (Hc0 : continue data false p0 = true).
  { unfold continue, p0. cbn [endIndex cap set_endIndex set_signals].
    rewrite !andb_true_iff, orb_true_iff. split; [split; [done|]|].
    - apply Z.ltb_lt. lia.
    - right. apply Z.ltb_lt. lia. }
  pose proof (loop_terminates data false until excl pIndex fuel _ ∅ false p0 Hp0
                ltac:(simpl; lia)) as Hterm.
  pose proof (loop_safe data false until excl pIndex fuel _ ∅ false p0 Hp0
                ltac:(simpl; lia)) as Hsafe.
  destruct (loop _ _ _ _ _ _ _ _ _) as [[[ps1 tr1] found1]| |] eqn:El;
    cbn [mbind result_bind]; [|done|done].
  apply (loop_run _ _ _ _ _ _ _ _ p0 _ _ _ Hp0 Hc0) in El
    as (st & e & sg & brk & He & Hen & Hcp & Hst & Hsc & Hres).
  cbn [startIndex endIndex cap startDate endDate p0 set_endIndex set_signals] in *.
  destruct brk as [j|].
  { apply scanL_break in Hsc as [_ (_ & Hauto & _)]. done. }
  destruct Hres as (-> & -> & Hstop). rewrite list_insert_insert_eq.
  set (p1 := Process (startIndex p) e (cap p) (stats_mean st) (stats_sd st) sg
               (startDate p) (endDate p)) in *.
  rewrite (flush_local _ _ _ _ _ (insert_lookup_same _ _ _ _ Hp)).
  rewrite list_insert_insert_eq. cbn [mbind result_bind].
  assert (Hcap : e = cap p).
  { unfold continue, p1 in Hstop. cbn [endIndex cap] in Hstop.
    destruct Hcp as [Hcp|Hcp]; [lia|].
    destruct (e <? Z.of_nat (length data) - 1) eqn:E1; [|apply Z.ltb_ge in E1; lia].
    destruct (cap p =? -1) eqn:E2; [apply Z.eqb_eq in E2; lia|].
    destruct (e <? cap p) eqn:E3; [done|]. apply Z.ltb_ge in E3. lia. }
  eexists. split; [done|].
  unfold finished. cbn [startIndex endIndex cap startDate endDate signals set_signals p1].
  repeat split; try done.
  - unfold stats_of. cbn [startIndex endIndex pmean psd set_signals p1].
    by rewrite stats_eta.
  - exists st, e, sg, tr1. cbn [startIndex endIndex cap signals set_signals p1].
    repeat split; try done.
Qed.

Lemma calc_manual data until excl :
  ∀ k ps pIndex fuel,
  length ps = (pIndex + S k)%nat ->
  (∀ i p, (pIndex <= i)%nat -> ps !! i = Some p -> capped (Z.of_nat (length data)) p) ->
  (S k + length data + 1 <= fuel)%nat ->
  ∃ ps', calculateSignals fuel data ps pIndex false until excl = Ok ps' ∧
         length ps' = length ps ∧
         (∀ i, (i < pIndex)%nat -> ps' !! i = ps !! i) ∧
         (∀ i p, (pIndex <= i)%nat -> ps !! i = Some p ->
                 ∃ p', ps' !! i = Some p' ∧ finished data until excl p p').
Proof.
  induction k as [|k IH]; intros ps pIndex fuel Hlen Hpre Hfuel;
    (destruct fuel as [|fuel]; [lia|]); cbn [calculateSignals];
    (destruct (lookup_lt_is_Some_2 ps pIndex) as [p Hp]; [lia|]);
    (destruct (detect_manual data until excl pIndex fuel ps p Hp
                (Hpre pIndex p ltac:(lia) Hp) ltac:(lia)) as (p' & -> & Hfin));
    cbn [mbind result_bind orb]; rewrite length_insert.
  - replace (Z.of_nat pIndex <? Z.of_nat (length ps) - 1) with false
      by (symmetry; apply Z.ltb_ge; lia).
    eexists. split; [done|]. rewrite length_insert. split; [done|]. split.
    + intros i Hi. apply list_lookup_insert_ne. lia.
    + intros i q Hi Hq. assert (i = pIndex) as ->.
      { apply lookup_lt_Some in Hq. lia. }
      assert (q = p) as -> by congruence.
      exists p'. split; [|done]. by eapply insert_lookup_same.
  - replace (Z.of_nat pIndex <? Z.of_nat (length ps) - 1) with true
      by (symmetry; apply Z.ltb_lt; lia).
    destruct (IH (<[pIndex := p']> ps) (pIndex + 1)%nat fuel)
      as (ps' & Hrun & Hlen' & Hlow & Hup).
    + rewrite length_insert. lia.
    + intros i q Hi Hq. rewrite list_lookup_insert_ne in Hq by lia.
      apply (Hpre i); [lia|done].
    + lia.
    + exists ps'. split; [done|]. rewrite length_insert in Hlen'. split; [done|]. split.
      * intros i Hi. rewrite Hlow by lia. apply list_lookup_insert_ne. lia.
      * intros i q Hi Hq. destruct (decide (i = pIndex)) as [->|Hne].
        -- assert (q = p) as -> by congruence. exists p'. split; [|done].
           rewrite Hlow by lia. by eapply insert_lookup_same.
        -- apply Hup; [lia|]. by rewrite list_lookup_insert_ne by lia.
Qed.

(** ** Manual breakpoints with detection off *)

Lemma close_new_process (prev b : Z) :
  set_endIndex (b - 1) (new_process prev (b - 1)) = blank prev (b - 1) (b - 1).
Proof. done. Qed.

Lemma manualBreaks_snoc data rest :
  ∀ b prev pre p,
  manualBreaks data (b :: rest) prev (pre ++ [p]) =
    pre ++ set_endIndex (prev - 1) p
        :: manual_spec (Z.of_nat (length data)) prev (b :: rest).
Proof.
  induction rest as [|b' rest IH]; intros b prev pre p.
  - cbn [manualBreaks manual_spec]. rewrite createProcess_snoc.
    replace (pre ++ [set_endIndex (prev - 1) p; new_process prev (b - 1)])
      with ((pre ++ [set_endIndex (prev - 1) p]) ++ [new_process prev (b - 1)])
      by (by rewrite <- app_assoc).
    rewrite createProcess_snoc, close_new_process. by rewrite <- app_assoc.
  - change (manualBreaks data (b :: b' :: rest) prev (pre ++ [p]))
      with (manualBreaks data (b' :: rest) b (createProcess (pre ++ [p]) prev (b - 1))).
    rewrite createProcess_snoc.
    replace (pre ++ [set_endIndex (prev - 1) p; new_process prev (b - 1)])
      with ((pre ++ [set_endIndex (prev - 1) p]) ++ [new_process prev (b - 1)])
      by (by rewrite <- app_assoc).
    rewrite IH, close_new_process. by rewrite <- app_assoc.
Qed.

Lemma manualBreaks_nil data b rest prev :
  manualBreaks data (b :: rest) prev []
    = manual_spec (Z.of_nat (length data)) prev (b :: rest).
Proof.
  destruct rest as [|b' rest].
  - cbn [manualBreaks manual_spec]. rewrite createProcess_nil.
    change [new_process prev (b - 1)] with ([] ++ [new_process prev (b - 1)]).
    rewrite (createProcess_snoc [] (new_process prev (b - 1))).
    by rewrite close_new_process.
  - change (manualBreaks data (b :: b' :: rest) prev [])
      with (manualBreaks data (b' :: rest) b (createProcess [] prev (b - 1))).
    rewrite createProcess_nil.
    change [new_process prev (b - 1)] with ([] ++ [new_process prev (b - 1)]).
    rewrite (manualBreaks_snoc data rest b' b [] (new_process prev (b - 1))).
    by rewrite close_new_process.
Qed.

Lemma manual_spec_starts n prev manual :
  map startIndex (manual_spec n prev manual) = prev :: manual.
Proof.
  revert prev. induction manual as [|b rest IH]; intros prev; simpl; [done|].
  by rewrite IH.
Qed.

Lemma manual_spec_capped n prev manual :
  0 <= prev -> prev <= n - 1 -> increasing prev manual ->
  Forall (fun b => b < n) manual ->
  Forall (capped n) (manual_spec n prev manual).
Proof.
  revert prev. induction manual as [|b rest IH]; intros prev H0 Hn Hinc Hall; simpl.
  - apply Forall_singleton. unfold capped, new_process. simpl.
    destruct ((n - 1 >? -1) && (prev + 8 >? n - 1)) eqn:E; simpl; [lia|].
    apply andb_false_iff in E as [E|E]; lia.
  - destruct Hinc as [Hlt Hinc]. apply Forall_cons in Hall as [Hb Hall].
    constructor.
    + unfold capped. simpl. lia.
    + apply IH; try done; lia.
Qed.

Lemma manual_spec_chain data until excl n prev manual ps :
  increasing prev manual ->
  Forall2 (finished data until excl) (manual_spec n prev manual) ps ->
  chain prev ps (n - 1).
Proof.
  revert prev ps. induction manual as [|b rest IH]; intros prev ps Hinc H; simpl in H.
  - apply Forall2_cons_inv_l in H as (p' & ps' & Hf & Hnil & ->).
    apply Forall2_nil_inv_l in Hnil as ->.
    destruct Hf as (Hs & Hc & He & _). simpl in *. unfold new_process in *.
    simpl in *. split; [done|]. lia.
  - destruct Hinc as [Hlt Hinc].
    apply Forall2_cons_inv_l in H as (p' & ps' & Hf & Hrest & ->).
    destruct Hf as (Hs & Hc & He & _). simpl in Hs, Hc, He.
    pose proof (IH _ _ Hinc Hrest) as Hch.
    simpl. split; [done|]. destruct ps' as [|q ps']; [done|].
    split; [lia|]. by replace (endIndex p' + 1) with b by lia.
Qed.

Lemma sorted_increasing (l : list Z) (prev : Z) :
  Sorted Z.le l -> NoDup l -> Forall (fun b => prev < b) l -> increasing prev l.
Proof.
  revert prev. induction l as [|b rest IH]; intros prev Hs Hnd Hall; simpl; [done|].
  apply Forall_cons in Hall as [Hb _]. split; [done|].
  apply NoDup_cons in Hnd as [Hnin Hnd].
  apply Sorted_StronglySorted in Hs; [|intros x y z; lia].
  apply StronglySorted_inv in Hs as [Hs Hle].
  apply IH; [by apply StronglySorted_Sorted|done|].
  rewrite Forall_forall in Hle |- *. intros x Hx.
  assert (x ≠ b) by (intros ->; done). specialize (Hle x Hx). lia.
Qed.

Lemma processDates_spec data ps :
  (∀ p, p ∈ ps ->
        0 <= startIndex p < Z.of_nat (length data) ∧
        0 <= endIndex p < Z.of_nat (length data)) ->
  ∃ ps', processDates data ps = Ok ps' ∧ Forall2 (with_dates data) ps ps'.
Proof.
  induction ps as [|p ps IH]; intros H; simpl; [eauto|].
  destruct (H p ltac:(by left)) as [Hs He].
  destruct (get_in_series data _ Hs) as [ds Hds].
  destruct (get_in_series data _ He) as [de Hde]. rewrite Hds, Hde.
  destruct IH as (ps' & -> & Hall); [intros q Hq; apply H; by right|].
  cbn [mbind result_bind]. eexists. split; [done|].
  constructor; [|done]. by exists ds, de.
Qed.

Lemma with_dates_bounds data ps ps' :
  Forall2 (with_dates data) ps ps' -> bounds ps' = bounds ps.
Proof.
  induction 1 as [|p p' ps ps' (ds & de & _ & _ & ->) _ IH]; [done|].
  simpl. by rewrite IH.
Qed.

(** With detection off and manual breakpoints that are distinct indices
    between 1 and the last index, [displayChart] returns one process per
    breakpoint and one more in front: the processes start at 0 and at the
    breakpoints in ascending order, they partition the date-sorted series,
    and each carries the mean and deviation of the non-excluded points of
    its range, signals that are exact against them, and the dates of its
    two ends. *)
Theorem displayChart_manual (data : list point) (props : properties) :
  let n := Z.of_nat (length data) in
  let sorted := merge_sort by_date data in
  let excl := datesToExclude props in
  autoDetectProcess props = false -> manualProcesses props ≠ [] ->
  valid_breaks n (manualProcesses props) ->
  ∃ ps, returns (fun fuel => displayChart fuel data props) ps ∧
        map startIndex ps = 0 :: merge_sort Z.le (manualProcesses props) ∧
        partitions n ps ∧
        ∀ p, p ∈ ps ->
          pmean p = mean (in_range sorted excl (startIndex p) (endIndex p)) ∧
          psd p = sd (in_range sorted excl (startIndex p) (endIndex p)) ∧
          exact_signals sorted excl p ∧
          ∃ ds de, get sorted (startIndex p) = Some ds ∧
                   get sorted (endIndex p) = Some de ∧
                   startDate p = Some (Date ds) ∧ endDate p = Some (Date de).
Proof.
  intros n sorted excl Hauto Hne [Hnd Hall].
  set (manual := merge_sort Z.le (manualProcesses props)).
  set (until := autoDetectUntil (configureProperties props data)).
  pose proof (merge_sort_Permutation Z.le (manualProcesses props)) as Hperm.
  fold manual in Hperm.
  assert (Hnd' : NoDup manual) by (by rewrite Hperm).
  assert (Hall' : Forall (fun p => 1 <= p < n) manual) by (by rewrite Hperm).
  assert (Hsort : Sorted Z.le manual) by apply (Sorted_merge_sort Z.le).
  assert (Hlen : Z.of_nat (length sorted) = n).
  { unfold sorted, n. by rewrite length_merge_sort_by_date. }
  destruct manual as [|b rest] eqn:Em.
  { apply Permutation_nil_l in Hperm. done. }
  rewrite <- Em in *.
  assert (Hn2 : 2 <= n).
  { rewrite Em in Hall'. apply Forall_cons in Hall' as [? _]. lia. }
  assert (Hinc : increasing 0 manual).
  { apply sorted_increasing; try done.
    eapply Forall_impl; [exact Hall'|]. simpl. intros; lia. }
  assert (Hinit : initialProcesses sorted (configureProperties props data)
                  = manual_spec n 0 manual).
  { unfold initialProcesses. cbn [manualProcesses autoDetectProcess configureProperties].
    rewrite Hauto. fold manual. rewrite Em. cbn [length Nat.eqb orb].
    rewrite manualBreaks_nil. by rewrite Hlen. }
  assert (Hcap : Forall (capped n) (manual_spec n 0 manual)).
  { apply manual_spec_capped; try done; try lia.
    eapply Forall_impl; [exact Hall'|]. simpl. intros; lia. }
  assert (Hl0 : length (manual_spec n 0 manual) = S (length manual)).
  { rewrite <- (length_map startIndex), manual_spec_starts. done. }
  destruct (calc_manual sorted until excl (length manual) (manual_spec n 0 manual) 0
              (S (length manual) + length sorted + 1))
    as (ps1 & Hrun & Hlen1 & _ & Hfin); [done| |lia|].
  { intros i p _ Hp. rewrite Hlen. rewrite Forall_forall in Hcap. apply Hcap.
    by eapply list_elem_of_lookup_2. }
  assert (Hfin2 : Forall2 (finished sorted until excl) (manual_spec n 0 manual) ps1).
  { apply Forall2_same_length_lookup. split; [done|]. intros i p p1 Hp Hp1.
    destruct (Hfin i p ltac:(lia) Hp) as (p1' & Hp1' & Hf). congruence. }
  assert (Hin1 : ∀ p1, p1 ∈ ps1 ->
            0 <= startIndex p1 ∧ startIndex p1 <= endIndex p1 ∧ endIndex p1 < n ∧
            scanned_by sorted false until excl p1 None).
  { intros p1 Hp1. apply list_elem_of_lookup in Hp1 as [i Hp1].
    destruct (Forall2_lookup_r _ _ _ _ _ Hfin2 Hp1) as (p0 & Hp0 & Hf).
    rewrite Forall_forall in Hcap.
    destruct (Hcap p0 (list_elem_of_lookup_2 _ _ _ Hp0)) as (? & ? & ? & ?).
    destruct Hf as (Hs & Hc & He & _ & _ & Hsc).
    split; [lia|]. split; [lia|]. split; [lia|done]. }
  destruct (processDates_spec sorted ps1) as (ps2 & Hdates & Hwd).
  { intros p1 Hp1. destruct (Hin1 p1 Hp1) as (? & ? & ? & _). lia. }
  exists ps2. split; [|split; [|split]].
  - apply (returns_displayChart (S (length manual) + length sorted + 1)).
    unfold displayChart. cbv zeta. fold sorted. rewrite Hinit.
    cbn [autoDetectProcess datesToExclude configureProperties]. rewrite Hauto.
    fold until excl. rewrite Hrun. cbn [mbind result_bind]. exact Hdates.
  - pose proof (with_dates_bounds _ _ _ Hwd) as Hb.
    assert (Hst : map startIndex ps2 = map startIndex ps1).
    { apply (f_equal (map fst)) in Hb. unfold bounds in Hb.
      by rewrite !map_map in Hb. }
    rewrite Hst. rewrite <- (manual_spec_starts n 0 manual).
    clear -Hfin2. induction Hfin2 as [|p p1 l l1 Hf _ IH]; [done|].
    simpl. destruct Hf as (-> & _). by rewrite IH.
  - apply chain_partitions. apply (chain_bounds _ ps1).
    + by apply (with_dates_bounds sorted).
    + by apply (manual_spec_chain sorted until excl n 0 manual).
  - intros p2 Hp2. apply list_elem_of_lookup in Hp2 as [i Hp2].
    destruct (Forall2_lookup_r _ _ _ _ _ Hwd Hp2) as (p1 & Hp1 & ds & de & Hds & Hde & ->).
    destruct (Hin1 p1 (list_elem_of_lookup_2 _ _ _ Hp1)) as (H0 & Hse & Hen & Hsc).
    cbn [startIndex endIndex pmean psd startDate endDate set_dates].
    pose proof Hsc as [Hst _]. unfold stats_of in Hst.
    rewrite summaryStatistics_in_range in Hst by lia. injection Hst as H1 H2.
    split; [done|]. split; [done|]. split.
    + by apply (scanned_exact sorted false until excl p1) in Hsc.
    + by exists ds, de.
Qed.

Lemma displayChart_manual_witness :
  let props := {| manualProcesses := [12; 4]; autoDetectProcess := false;
                  autoDetectUntil := None; datesToExclude := {[ 3 ]} |} in
  ∃ ps, returns (fun fuel => displayChart fuel step_series props) ps ∧
        map startIndex ps = 0 :: merge_sort Z.le [12; 4] ∧
        partitions 16 ps ∧
        ∀ p, p ∈ ps ->
          pmean p = mean (in_range (merge_sort by_date step_series) {[ 3 ]}
                            (startIndex p) (endIndex p)) ∧
          psd p = sd (in_range (merge_sort by_date step_series) {[ 3 ]}
                        (startIndex p) (endIndex p)) ∧
          exact_signals (merge_sort by_date step_series) {[ 3 ]} p ∧
          ∃ ds de, get (merge_sort by_date step_series) (startIndex p) = Some ds ∧
                   get (merge_sort by_date step_series) (endIndex p) = Some de ∧
                   startDate p = Some (Date ds) ∧ endDate p = Some (Date de).
Proof.
  intros props. apply (displayChart_manual step_series props).
  - reflexivity.
  - discriminate.
  - split.
    + apply NoDup_cons. split; [|apply NoDup_singleton].
      intros H. apply list_elem_of_singleton in H. discriminate H.
    + repeat constructor; simpl; lia.
Defined.

(** ** [displayChart] and [getSignals] *)

Lemma d3_max_perm (l l' : list Z) : l ≡ₚ l' -> d3_max l = d3_max l'.
Proof.
  intros Hp. destruct (d3_max l) as [mx|] eqn:E; destruct (d3_max l') as [mx'|] eqn:E'.
  - apply d3_max_spec in E as [Hin Hle]. apply d3_max_spec in E' as [Hin' Hle'].
    f_equal. assert (H1 : mx ∈ l') by (by rewrite <- Hp).
    assert (H2 : mx' ∈ l) by (by rewrite Hp).
    pose proof (Hle _ H2). pose proof (Hle' _ H1). lia.
  - destruct l' as [|x l']; [|done]. apply Permutation_nil_r in Hp. by subst l.
  - destruct l as [|x l]; [|done]. apply Permutation_nil_l in Hp. by subst l'.
  - done.
Qed.

Lemma initialProcesses_single data props :
  manualProcesses props = [] ∨ autoDetectProcess props = true ->
  initialProcesses (merge_sort by_date data) (configureProperties props data)
    = createProcess [] 0 (-1).
Proof.
  intros H. unfold initialProcesses.
  cbn [manualProcesses autoDetectProcess configureProperties].
  destruct H as [-> | ->]; [done|]. by rewrite orb_true_r.
Qed.

Lemma until_sorted data props :
  autoDetectUntil (configureProperties props data)
    = autoDetectUntil (configureProperties props (merge_sort by_date data)).
Proof.
  cbn [autoDetectUntil configureProperties]. destruct (autoDetectUntil props); [done|].
  apply d3_max_perm. symmetry.
  change (Date <$> merge_sort by_date data ≡ₚ Date <$> data).
  apply fmap_Permutation, merge_sort_Permutation.
Qed.

(** When no manual breakpoint is in force (there is none, or detection is
    on), [displayChart] computes what [getSignals] computes on the
    date-sorted series, and then reads the dates of the two ends of each
    process. *)
Theorem displayChart_as_getSignals (fuel : nat) (data : list point) (props : properties) :
  manualProcesses props = [] ∨ autoDetectProcess props = true ->
  displayChart fuel data props =
    (ps ← getSignals fuel (merge_sort by_date data) props;
     processDates (merge_sort by_date data) ps).
Proof.
  intros H. unfold displayChart, getSignals. cbv zeta.
  rewrite (initialProcesses_single data props H).
  by rewrite (until_sorted data props).
Qed.

Lemma displayChart_as_getSignals_witness :
  displayChart 40 step_series
    {| manualProcesses := [20]; autoDetectProcess := true;
       autoDetectUntil := None; datesToExclude := ∅ |} =
    (ps ← getSignals 40 (merge_sort by_date step_series)
            {| manualProcesses := [20]; autoDetectProcess := true;
               autoDetectUntil := None; datesToExclude := ∅ |};
     processDates (merge_sort by_date step_series) ps).
Proof.
  apply (displayChart_as_getSignals 40 step_series). right. reflexivity.
Defined.

(** ** [displayChart] always ends *)

Lemma detect_nodetect data until excl pIndex fuel ps p :
  ps !! pIndex = Some p ->
  (Z.to_nat (Z.of_nat (length data) - endIndex p) + 1 <= fuel)%nat ->
  detect data false until excl pIndex fuel ps = TypeError
  ∨ ∃ p', detect data false until excl pIndex fuel ps = Ok (<[pIndex := p']> ps, false).
Proof.
  intros Hp Hfuel. unfold detect.
  rewrite (the_process_lookup _ _ _ Hp). cbn [mbind result_bind].
  rewrite (modify_lookup _ _ _ _ Hp).
  rewrite (modify_lookup _ _ _ _ (insert_lookup_same _ _ _ _ Hp)).
  rewrite list_insert_insert_eq. cbn [endIndex set_signals].
  set (e0 := if endIndex p >=? Z.of_nat (length data)
             then Z.of_nat (length data) - 2 else endIndex p - 1).
  set (p0 := set_endIndex e0 (set_signals ∅ p)).
  assert (Hp0 : <[pIndex := p0]> ps !! pIndex = Some p0)
    by (by eapply insert_lookup_same).
  assert (He0 : (Z.to_nat (Z.of_nat (length data) - 1 - e0) <= fuel)%nat).
  { unfold e0. destruct (endIndex p >=? _) eqn:E; lia. }
  pose proof (loop_terminates data false until excl pIndex fuel _ ∅ false p0 Hp0 He0)
    as Hterm.
  destruct (continue data false p0) eqn:Hc0.
  - destruct (loop _ _ _ _ _ _ _ _ _) as [[[ps1 tr1] found1]| |] eqn:El;
      cbn [mbind result_bind]; [|by left|done].
    apply (loop_run _ _ _ _ _ _ _ _ p0 _ _ _ Hp0 Hc0) in El
      as (st & e & sg & brk & He & Hen & Hcp & Hst & Hsc & Hres).
    destruct brk as [j|].
    { apply scanL_break in Hsc as [_ (_ & Hauto & _)]. done. }
    destruct Hres as (-> & -> & _). rewrite list_insert_insert_eq.
    rewrite (flush_local _ _ _ _ _ (insert_lookup_same _ _ _ _ Hp)).
    rewrite list_insert_insert_eq. cbn [mbind result_bind]. right. eauto.
  - rewrite (loop_stop _ _ _ _ _ _ _ _ _ p0 Hp0 Hc0). cbn [mbind result_bind].
    rewrite (flush_local _ _ _ _ _ Hp0).
    rewrite list_insert_insert_eq. cbn [mbind result_bind]. right. eauto.
Qed.

Lemma calc_nodetect_terminates data until excl (B : nat) :
  ∀ k ps pIndex fuel,
  (length ps <= pIndex + S k)%nat ->
  (∀ i p, (pIndex <= i)%nat -> ps !! i = Some p ->
          (Z.to_nat (Z.of_nat (length data) - endIndex p) <= B)%nat) ->
  (S k + B + 1 <= fuel)%nat ->
  calculateSignals fuel data ps pIndex false until excl ≠ OutOfFuel.
Proof.
  induction k as [|k IH]; intros ps pIndex fuel Hlen HB Hfuel;
    (destruct fuel as [|fuel]; [lia|]); cbn [calculateSignals];
    (destruct (ps !! pIndex) as [p|] eqn:Hp;
       [|unfold detect, the_process; rewrite Hp; by cbn [mbind result_bind]]);
    pose proof (HB pIndex p ltac:(lia) Hp) as Hb;
    (destruct (detect_nodetect data until excl pIndex fuel ps p Hp ltac:(lia))
       as [-> | (p' & ->)]; cbn [mbind result_bind orb]; [done|]);
    rewrite length_insert; apply lookup_lt_Some in Hp as Hlt.
  - replace (Z.of_nat pIndex <? Z.of_nat (length ps) - 1) with false
      by (symmetry; apply Z.ltb_ge; lia). done.
  - destruct (Z.of_nat pIndex <? Z.of_nat (length ps) - 1); [|done].
    apply IH.
    + rewrite length_insert. lia.
    + intros i q Hi Hq. rewrite list_lookup_insert_ne in Hq by lia.
      apply (HB i); [lia|done].
    + lia.
Qed.

Lemma endIndex_bound (n : Z) (ps : list process) :
  ∃ B : nat, ∀ i p, ps !! i = Some p -> (Z.to_nat (n - endIndex p) <= B)%nat.
Proof.
  induction ps as [|q ps [B HB]].
  - exists 0%nat. intros i p H. by rewrite lookup_nil in H.
  - exists (max B (Z.to_nat (n - endIndex q))). intros [|i] p; simpl.
    + intros [= ->]. lia.
    + intros H. specialize (HB _ _ H). lia.
Qed.

Lemma processDates_fuel data ps : processDates data ps ≠ OutOfFuel.
Proof.
  induction ps as [|p ps IH]; simpl; [done|].
  destruct (get data (startIndex p)); [|done].
  destruct (get data (endIndex p)); [|done].
  destruct (processDates data ps); done.
Qed.

Lemma displayChart_ends (data : list point) (props : properties) :
  ∃ fuel, displayChart fuel data props ≠ OutOfFuel.
Proof.
  destruct (decide (manualProcesses props = [] ∨ autoDetectProcess props = true))
    as [Hmode|Hmode].
  - destruct (getSignals_last (merge_sort by_date data) props) as (ps & [fuel Hret] & _).
    exists fuel. unfold displayChart. cbv zeta.
    rewrite (initialProcesses_single data props Hmode), (until_sorted data props).
    pose proof (Hret fuel ltac:(lia)) as Hr. unfold getSignals in Hr.
    change (calculateSignals fuel (merge_sort by_date data) (createProcess [] 0 (-1)) 0
              (autoDetectProcess (configureProperties props data))
              (autoDetectUntil (configureProperties props (merge_sort by_date data)))
              (datesToExclude (configureProperties props data)) = Ok ps) in Hr.
    rewrite Hr. cbn [mbind result_bind]. apply processDates_fuel.
  - set (sorted := merge_sort by_date data).
    set (ps0 := initialProcesses sorted (configureProperties props data)).
    destruct (endIndex_bound (Z.of_nat (length sorted)) ps0) as [B HB].
    exists (S (length ps0) + B + 1)%nat. unfold displayChart. cbv zeta.
    fold sorted ps0.
    assert (Hauto : autoDetectProcess (configureProperties props data) = false).
    { cbn [autoDetectProcess configureProperties].
      destruct (autoDetectProcess props); [|done]. exfalso. apply Hmode. by right. }
    rewrite Hauto.
    pose proof (calc_nodetect_terminates sorted
                  (autoDetectUntil (configureProperties props data))
                  (datesToExclude (configureProperties props data)) B
                  (length ps0) ps0 0 (S (length ps0) + B + 1)
                  ltac:(lia) ltac:(intros i p _ Hp; by apply (HB i)) ltac:(lia)) as Ht.
    destruct (calculateSignals _ _ _ _ _ _ _) as [ps1| |]; cbn [mbind result_bind];
      [apply processDates_fuel|done|done].
Qed.

(** [displayChart] ends on every series and every configuration, manual
    breakpoints out of range included: it returns a process list or it
    throws. *)
Theorem displayChart_total (data : list point) (props : properties) :
  (∃ ps, returns (fun fuel => displayChart fuel data props) ps)
  ∨ raises (fun fuel => displayChart fuel data props).
Proof.
  destruct (displayChart_ends data props) as [fuel Hend].
  destruct (displayChart fuel data props) as [ps| |] eqn:E; [| |done].
  - left. exists ps. by apply (returns_displayChart fuel).
  - right. by apply (raises_displayChart fuel).
Qed.

Lemma initialProcesses_nonempty data props : initialProcesses data props ≠ [].
Proof.
  unfold initialProcesses. destruct (_ || _) eqn:E; [by rewrite createProcess_nil|].
  destruct (manualProcesses props) as [|b rest]; [done|].
  by rewrite manualBreaks_nil.
Qed.

(** On the empty series [displayChart] throws, whatever the configuration:
    the segmentation always leaves at least one process, and the chart reads
    the date of [data[process.startIndex]]. *)
Theorem displayChart_empty (props : properties) :
  raises (fun fuel => displayChart fuel [] props).
Proof.
  destruct (displayChart_ends [] props) as [fuel Hend].
  apply (raises_displayChart fuel).
  destruct (displayChart fuel [] props) as [ps| |] eqn:E; [exfalso|done|done].
  unfold displayChart in E. cbv zeta in E.
  assert (Hs : merge_sort by_date [] = []).
  { apply nil_length_inv. by rewrite length_merge_sort_by_date. }
  rewrite Hs in E.
  destruct (calculateSignals _ _ _ _ _ _ _) as [ps1| |] eqn:Ec;
    cbn [mbind result_bind] in E; [|done|done].
  apply calculateSignals_frame in Ec as (js & Hjs & _).
  destruct ps1 as [|p1 ps1].
  - symmetry in Hjs. apply app_eq_nil in Hjs as [Hjs _].
    apply map_eq_nil in Hjs. by apply initialProcesses_nonempty in Hjs.
  - simpl in E. unfold get in E. destruct (startIndex p1 <? 0); [done|].
    by rewrite lookup_nil in E.
Qed.

(** ** The counts of excluded points are never read *)

Lemma agree_length excl data data' : agree excl data data' -> length data = length data'.
Proof. apply Forall2_length. Qed.

Lemma agree_get excl data data' j :
  agree excl data data' ->
  match get data j, get data' j with
  | Some d, Some d' => Date d = Date d' ∧ (Date d ∉ excl -> d = d')
  | None, None => True
  | _, _ => False
  end.
Proof.
  intros H. unfold get. destruct (j <? 0); [done|].
  destruct (data !! Z.to_nat j) as [d|] eqn:E.
  - destruct (Forall2_lookup_l _ _ _ _ _ H E) as (d' & -> & Hd). done.
  - apply lookup_ge_None in E. rewrite (agree_length _ _ _ H) in E.
    apply lookup_ge_None in E. by rewrite E.
Qed.

Lemma agree_dates excl data data' :
  agree excl data data' -> map Date data = map Date data'.
Proof.
  induction 1 as [|d d' l l' [Hd _] _ IH]; [done|]. simpl. by rewrite Hd, IH.
Qed.

Lemma agree_empty data data' : agree ∅ data data' -> data = data'.
Proof.
  induction 1 as [|d d' l l' [_ Hd] _ IH]; [done|].
  rewrite IH, Hd; [done|]. apply not_elem_of_empty.
Qed.

Lemma collect_agree excl data data' cnt i tmp :
  agree excl data data' ->
  collect data excl cnt i tmp = collect data' excl cnt i tmp.
Proof.
  intros H. revert i tmp. induction cnt as [|cnt IH]; intros i tmp; [done|].
  cbn [collect]. pose proof (agree_get excl data data' i H) as Hg.
  destruct (get data i) as [d|], (get data' i) as [d'|];
    [|destruct Hg|destruct Hg|reflexivity].
  destruct Hg as [Hd Heq]. rewrite <- Hd. case_bool_decide as Hx; [apply IH|].
  rewrite <- (Heq Hx). apply IH.
Qed.

Lemma summaryStatistics_agree excl data data' start end_ :
  agree excl data data' ->
  summaryStatistics data excl start end_ = summaryStatistics data' excl start end_.
Proof.
  intros H. unfold summaryStatistics, isEmpty. case_bool_decide as He.
  - subst excl. by rewrite (agree_empty _ _ H).
  - destruct (start <? end_ + 1); [|done]. by rewrite (collect_agree _ _ _ _ _ _ H).
Qed.

Lemma scan_agree excl data data' auto until pIndex cnt j ps tr :
  agree excl data data' ->
  scan data auto until excl pIndex cnt j ps tr
    = scan data' auto until excl pIndex cnt j ps tr.
Proof.
  intros H. revert j ps tr. induction cnt as [|cnt IH]; intros j ps tr; [done|].
  cbn [scan]. pose proof (agree_get excl data data' j H) as Hg.
  destruct (get data j) as [d|], (get data' j) as [d'|];
    [|destruct Hg|destruct Hg|reflexivity].
  destruct Hg as [Hd Heq]. rewrite <- Hd. case_bool_decide as Hx; [apply IH|].
  rewrite <- (Heq Hx).
  destruct (scanRules _ _ _ _ _ _ _ _) as [[[ps1 tr1] found]| |];
    cbn [mbind result_bind]; [|reflexivity|reflexivity].
  destruct found; [reflexivity|apply IH].
Qed.

Lemma iteration_agree excl data data' auto until pIndex ps :
  agree excl data data' ->
  iteration data auto until excl pIndex ps = iteration data' auto until excl pIndex ps.
Proof.
  intros H. unfold iteration.
  destruct (the_process _ pIndex) as [p| |]; cbn [mbind result_bind];
    [|reflexivity|reflexivity].
  rewrite (summaryStatistics_agree _ _ _ _ _ H).
  destruct (summaryStatistics data' _ _ _) as [st| |]; cbn [mbind result_bind];
    [|reflexivity|reflexivity].
  rewrite (scan_agree _ _ _ _ _ _ _ _ _ _ H).
  destruct (scan data' _ _ _ _ _ _ _ _) as [[[ps1 tr1] found]| |];
    cbn [mbind result_bind]; [|reflexivity|reflexivity].
  destruct found; [|reflexivity].
  destruct (the_process ps1 pIndex) as [q| |]; cbn [mbind result_bind];
    [|reflexivity|reflexivity].
  by rewrite (summaryStatistics_agree _ _ _ _ _ H).
Qed.

Lemma loop_agree excl data data' auto until pIndex fuel ps tr found :
  agree excl data data' ->
  loop data auto until excl pIndex fuel ps tr found
    = loop data' auto until excl pIndex fuel ps tr found.
Proof.
  intros H. revert ps tr found. induction fuel as [|fuel IH]; intros ps tr found;
    cbn [loop]; (destruct (the_process ps pIndex) as [p| |]; cbn [mbind result_bind];
    [|reflexivity|reflexivity]); unfold continue; rewrite (agree_length _ _ _ H);
    [reflexivity|].
  destruct (_ && _); [|reflexivity]. rewrite (iteration_agree _ _ _ _ _ _ _ H).
  destruct (iteration data' _ _ _ _ _) as [[[ps1 tr1] found1]| |];
    cbn [mbind result_bind]; [apply IH|reflexivity|reflexivity].
Qed.

Lemma calculateSignals_agree excl data data' auto until fuel ps pIndex :
  agree excl data data' ->
  calculateSignals fuel data ps pIndex auto until excl
    = calculateSignals fuel data' ps pIndex auto until excl.
Proof.
  intros H. revert ps pIndex. induction fuel as [|fuel IH]; intros ps pIndex; [done|].
  cbn [calculateSignals]. unfold detect.
  destruct (the_process ps pIndex) as [p| |]; cbn [mbind result_bind];
    [|reflexivity|reflexivity].
  rewrite (agree_length _ _ _ H). rewrite (loop_agree _ _ _ _ _ _ _ _ _ _ H).
  destruct (loop data' _ _ _ _ _ _ _ _) as [[[ps1 tr1] found1]| |];
    cbn [mbind result_bind]; [|reflexivity|reflexivity].
  destruct (flush _ _ _ _) as [ps2| |]; cbn [mbind result_bind];
    [|reflexivity|reflexivity].
  destruct (_ || _); [apply IH|reflexivity].
Qed.

(** An excluded point counts for nothing: two series that differ only in
    the counts of excluded points get the same processes, statistics and
    signals from [getSignals]. *)
Theorem excluded_counts_ignored (fuel : nat) (data data' : list point)
    (props : properties) :
  agree (datesToExclude props) data data' ->
  getSignals fuel data props = getSignals fuel data' props.
Proof.
  intros H. unfold getSignals. cbv zeta.
  assert (Hc : configureProperties props data = configureProperties props data').
  { unfold configureProperties. by rewrite (agree_dates _ _ _ H). }
  rewrite Hc. apply calculateSignals_agree. exact H.
Qed.

Lemma excluded_counts_ignored_witness :
  getSignals 20 (series [10; 50; 12; 11]%Q)
    {| manualProcesses := []; autoDetectProcess := true;
       autoDetectUntil := None; datesToExclude := {[ 2 ]} |}
  = getSignals 20 (series [10; 99; 12; 11]%Q)
      {| manualProcesses := []; autoDetectProcess := true;
         autoDetectUntil := None; datesToExclude := {[ 2 ]} |}.
Proof.
  apply (excluded_counts_ignored 20).
  repeat constructor; simpl; intros Hx; exfalso; apply Hx; by apply elem_of_singleton.
Defined.

(** ** Removing a manual breakpoint *)

Lemma merge_sort_sorted (l : list Z) : Sorted Z.le l -> merge_sort Z.le l = l.
Proof.
  intros Hs. apply (Sorted_unique Z.le); [apply (Sorted_merge_sort Z.le)|done|].
  apply merge_sort_Permutation.
Qed.

Lemma filter_ne_id (val : Z) (l : list Z) :
  val ∉ l -> filter (fun b => b ≠ val) l = l.
Proof.
  induction l as [|b l IH]; intros Hn; [done|].
  rewrite filter_cons, decide_True, IH; [done| |].
  - intros H. apply Hn. by right.
  - intros ->. apply Hn. by left.
Qed.

Lemma filter_ne_delete (val : Z) (l : list Z) (v : nat) :
  NoDup l -> l !! v = Some val -> filter (fun b => b ≠ val) l = delete v l.
Proof.
  revert v. induction l as [|b l IH]; intros v Hnd Hv; [done|].
  apply NoDup_cons in Hnd as [Hnin Hnd]. destruct v as [|v]; simpl in Hv.
  - injection Hv as ->. rewrite filter_cons, decide_False by (intros H; by apply H).
    simpl. by apply filter_ne_id.
  - rewrite filter_cons, decide_True.
    + simpl. f_equal. by apply IH.
    + intros ->. apply Hnin. by eapply list_elem_of_lookup_2.
Qed.

Lemma Sorted_delete (l : list Z) (v : nat) : Sorted Z.le l -> Sorted Z.le (delete v l).
Proof.
  intros Hs. apply Sorted_StronglySorted in Hs; [|intros x y z; lia].
  apply StronglySorted_Sorted. revert v.
  induction Hs as [|b l Hs IH Hall]; intros v; [destruct v; constructor|].
  destruct v as [|v]; simpl; [done|].
  constructor; [apply IH|].
  by apply Forall_delete.
Qed.

Lemma removeLoop_spec (val : Z) (cnt : nat) :
  ∀ v l, Sorted Z.le l -> NoDup l -> val ∉ take v l -> (length l <= cnt + v)%nat ->
         removeLoop val cnt v l = filter (fun b => b ≠ val) l.
Proof.
  induction cnt as [|cnt IH]; intros v l Hs Hnd Hn Hlen; cbn [removeLoop].
  - rewrite take_ge in Hn by lia. by rewrite filter_ne_id.
  - destruct (l !! v) as [b|] eqn:Ev.
    + destruct (b =? val) eqn:Eb.
      * apply Z.eqb_eq in Eb. subst b.
        rewrite (merge_sort_sorted _ (Sorted_delete l v Hs)).
        assert (Hout : val ∉ delete v l).
        { rewrite <- (filter_ne_delete val l v Hnd Ev).
          intros [H _]%list_elem_of_filter. by apply H. }
        rewrite IH.
        -- rewrite (filter_ne_id _ _ Hout). by rewrite (filter_ne_delete val l v).
        -- by apply Sorted_delete.
        -- rewrite <- (filter_ne_delete val l v Hnd Ev). by apply NoDup_filter.
        -- intros H. apply Hout. by apply (subseteq_take (S v)).
        -- rewrite length_delete by eauto. apply lookup_lt_Some in Ev. lia.
      * apply Z.eqb_neq in Eb. apply IH; try done; [|lia].
        rewrite (take_S_r _ _ _ Ev). intros [H|H]%elem_of_app; [done|].
        apply list_elem_of_singleton in H. done.
    + apply lookup_ge_None in Ev. apply IH; try done; [|lia].
      rewrite take_ge in Hn |- * by lia. done.
Qed.

(** On the breakpoints a drawn chart holds (ascending, distinct) the click
    on the circle of breakpoint [val] removes exactly [val]; valid
    breakpoints stay valid; and it undoes a click that added [val]: after
    the click on the chart, the redraw and the click on the new circle, the
    breakpoints are what they were. *)
Theorem clickBreak_spec (props : properties) (val : Z) :
  Sorted Z.le (manualProcesses props) -> NoDup (manualProcesses props) ->
  manualProcesses (clickBreak props val)
    = filter (fun b => b ≠ val) (manualProcesses props) ∧
  (∀ n, valid_breaks n (manualProcesses props) ->
        valid_breaks n (manualProcesses (clickBreak props val))) ∧
  (∀ dates data,
     autoDetectProcess props = false -> val ∉ manualProcesses props ->
     val < Z.of_nat (length dates) ->
     manualProcesses
       (clickBreak (configureProperties (clickChart props dates val) data) val)
       = manualProcesses props).
Proof.
  intros Hs Hnd.
  assert (Hrem : ∀ l, Sorted Z.le l -> NoDup l ->
            removeLoop val (length l) 0 l = filter (fun b => b ≠ val) l).
  { intros l Hl Hn. apply removeLoop_spec; try done; [|lia].
    rewrite take_0. apply not_elem_of_nil. }
  split; [by apply Hrem|]. split.
  - intros n [_ Hall]. unfold clickBreak. cbn [manualProcesses set_manualProcesses].
    rewrite Hrem by done. split; [by apply NoDup_filter|].
    rewrite Forall_forall in Hall |- *. intros x Hx. apply Hall.
    by apply list_elem_of_filter in Hx as [_ Hx].
  - intros dates data Hauto Hout Hlt. unfold clickBreak, clickChart. rewrite Hauto.
    rewrite (bool_decide_eq_true_2 _ Hout).
    replace (val <? Z.of_nat (length dates)) with true by (symmetry; by apply Z.ltb_lt).
    cbn [andb manualProcesses set_manualProcesses configureProperties].
    set (l2 := merge_sort Z.le (manualProcesses props ++ [val])).
    assert (Hp2 : l2 ≡ₚ manualProcesses props ++ [val]) by apply merge_sort_Permutation.
    assert (Hs2 : Sorted Z.le l2) by apply (Sorted_merge_sort Z.le).
    assert (Hn2 : NoDup l2).
    { rewrite Hp2. apply NoDup_app. split; [done|]. split; [|apply NoDup_singleton].
      intros x Hx1 Hx2. apply list_elem_of_singleton in Hx2 as ->. done. }
    rewrite Hrem by done.
    apply (Sorted_unique Z.le); [|done|].
    + destruct (list_elem_of_lookup_1 l2 val) as [v Hv].
      { rewrite Hp2. apply elem_of_app. right. by apply list_elem_of_singleton. }
      rewrite (filter_ne_delete val l2 v Hn2 Hv). by apply Sorted_delete.
    + rewrite Hp2, filter_app, filter_cons, filter_nil.
      rewrite decide_False by (intros H; by apply H).
      by rewrite app_nil_r, filter_ne_id.
Qed.

Lemma clickBreak_spec_witness :
  manualProcesses
    (clickBreak {| manualProcesses := [4; 9; 12]; autoDetectProcess := false;
                   autoDetectUntil := None; datesToExclude := ∅ |} 9)
  = filter (fun b => b ≠ 9) [4; 9; 12].
Proof.
  apply (clickBreak_spec {| manualProcesses := [4; 9; 12]; autoDetectProcess := false;
                            autoDetectUntil := None; datesToExclude := ∅ |} 9).
  - repeat constructor; simpl; lia.
  - apply (bool_decide_unpack (NoDup [4; 9; 12])). vm_compute. exact I.
Defined.

(** ** What an automatic break means *)

Lemma rulesL_break_run m sdv auto until s sigs d j P l sg tr sg' tr' :
  NoDup sigs -> classified m sdv P sg tr -> (∀ x, x ∈ sigs -> P x = l) ->
  rulesL auto until s m sdv sigs d j sg tr = (sg', tr', true) ->
  ∃ sig, (sig = EIGHT_OVER_MEAN ∨ sig = EIGHT_UNDER_MEAN) ∧ sat m sdv sig d ∧
         length (cur m sdv sig l) = 7%nat.
Proof.
  revert P sg tr. induction sigs as [|sig sigs IH]; intros P sg tr Hnd Hc HP.
  - cbn [rulesL]. intros H. discriminate H.
  - apply NoDup_cons in Hnd as [Hnin Hnd]. rewrite rulesL_cons.
    assert (HP' : ∀ x, x ∈ sigs -> upd P sig d x = l).
    { intros x Hx. unfold upd. rewrite decide_False by (intros ->; done).
      apply HP. by right. }
    destruct (rule sig (Count d) m sdv) eqn:Er.
    + destruct (breaks _ _ _ _ _) eqn:Eb.
      * intros _. apply breaks_true in Eb as (He & Hl & _).
        exists sig. split; [done|]. split; [done|].
        rewrite (classified_run _ _ _ _ _ sig Hc), (HP sig) in Hl by (by left).
        rewrite length_app, length_map in Hl. simpl in Hl.
        destruct He as [-> | ->]; simpl in Hl; lia.
      * intros H. eapply IH; [done| |exact HP'|exact H]. by apply classified_push.
    + intros H. eapply IH; [done| |exact HP'|exact H]. by apply classified_clear.
Qed.

Lemma scanL_break_run data auto until excl s m sdv cnt j0 l sg tr sg' tr' j :
  classified m sdv (fun _ => l) sg tr ->
  scanL data auto until excl s m sdv cnt j0 sg tr = Ok (sg', tr', Some j) ->
  ∃ sig l1 b,
    (sig = EIGHT_OVER_MEAN ∨ sig = EIGHT_UNDER_MEAN) ∧
    l ++ visited data excl (Z.to_nat (j0 - j + 1)) j0 = l1 ++ b ∧
    length b = 8%nat ∧ Forall (sat m sdv sig) b.
Proof.
  revert j0 l sg tr. induction cnt as [|cnt IH]; intros j0 l sg tr Hc; cbn [scanL].
  - intros H. discriminate H.
  - destruct (get data j0) as [d|] eqn:Eg; [|intros H; discriminate H].
    case_bool_decide as Hx.
    + intros H. pose proof (scanL_break _ _ _ _ _ _ _ _ _ _ _ _ _ _ H) as [Hj _].
      destruct (IH _ _ _ _ Hc H) as (sig & l1 & b & He & Hv & Hl & Hall).
      exists sig, l1, b. split; [done|]. split; [|done].
      replace (Z.to_nat (j0 - j + 1)) with (S (Z.to_nat (j0 - 1 - j + 1))) by lia.
      cbn [visited]. rewrite Eg. rewrite bool_decide_eq_true_2 by done. exact Hv.
    + destruct (rulesL _ _ _ _ _ _ _ _ _ _) as [[sg1 tr1] found] eqn:Er.
      destruct found.
      * intros [= <- <- <-].
        apply (rulesL_break_run _ _ _ _ _ _ _ _ (fun _ => l) l) in Er
          as (sig & He & Hs & Hl); [|apply NoDup_SignalEnum|done|done].
        destruct (cur_suffix m sdv sig l) as (l1 & Hp & Hall).
        exists sig, l1, (cur m sdv sig l ++ [d]). split; [done|]. split; [|split].
        -- replace (Z.to_nat (j0 - j0 + 1)) with 1%nat by lia.
           cbn [visited]. rewrite Eg. rewrite bool_decide_eq_false_2 by done.
           simpl. rewrite app_assoc. by rewrite <- Hp.
        -- rewrite length_app. simpl. lia.
        -- apply Forall_app. split; [done|]. by apply Forall_singleton.
      * intros H. pose proof (scanL_break _ _ _ _ _ _ _ _ _ _ _ _ _ _ H) as [Hj _].
        apply (rulesL_classified _ _ _ _ _ _ _ _ (fun _ => l)) in Er;
          [|apply NoDup_SignalEnum|done].
        assert (Hc1 : classified m sdv (fun _ => l ++ [d]) sg1 tr1).
        { eapply classified_ext; [|exact Er]. intros x. cbv beta.
          rewrite decide_True; [done|apply elem_of_SignalEnum]. }
        destruct (IH _ _ _ _ Hc1 H) as (sig & l1 & b & He & Hv & Hl & Hall).
        exists sig, l1, b. split; [done|]. split; [|done].
        replace (Z.to_nat (j0 - j + 1)) with (S (Z.to_nat (j0 - 1 - j + 1))) by lia.
        cbn [visited]. rewrite Eg. rewrite bool_decide_eq_false_2 by done.
        rewrite <- Hv. by rewrite <- app_assoc.
Qed.

Lemma sat_eight m sdv sig d :
  sig = EIGHT_OVER_MEAN ∨ sig = EIGHT_UNDER_MEAN -> sat m sdv sig d ->
  ∃ mu, m = Some mu ∧
        if bool_decide (sig = EIGHT_OVER_MEAN) then (mu < Count d)%Q else (Count d < mu)%Q.
Proof.
  unfold sat. intros [-> | ->] H; simpl in H; (destruct m as [mu|]; [|done]);
    exists mu; (split; [done|]); simpl; by apply Qltb_lt.
Qed.


(** ** No break is missed in the last process *)

Lemma rulesL_nobreak m sdv auto until s sigs d j P l sg tr sg' tr' sig :
  NoDup sigs -> classified m sdv P sg tr -> (∀ x, x ∈ sigs -> P x = l) ->
  rulesL auto until s m sdv sigs d j sg tr = (sg', tr', false) ->
  sig ∈ sigs -> sig = EIGHT_OVER_MEAN ∨ sig = EIGHT_UNDER_MEAN ->
  sat m sdv sig d -> length (cur m sdv sig l) = 7%nat ->
  (if j =? s then false else auto) && date_lt (Date d) until = false.
Proof.
  revert P sg tr. induction sigs as [|sig0 sigs IH]; intros P sg tr Hnd Hc HP Hr Hin He Hs Hl.
  - by apply elem_of_nil in Hin.
  - apply NoDup_cons in Hnd as [Hnin Hnd]. rewrite rulesL_cons in Hr.
    assert (HP' : ∀ x, x ∈ sigs -> upd P sig0 d x = l).
    { intros x Hx. unfold upd. rewrite decide_False by (intros ->; done).
      apply HP. by right. }
    apply elem_of_cons in Hin as [->|Hin].
    + unfold sat in Hs. rewrite Hs in Hr.
      destruct (breaks _ _ _ _ _) eqn:Eb; [done|]. clear Hr.
      unfold breaks in Eb.
      rewrite (classified_run _ _ _ _ _ sig0 Hc), (HP sig0) in Eb by (by left).
      rewrite length_app, length_map, Hl in Eb.
      assert (Hi : is_eight sig0 = true) by (by destruct He as [-> | ->]).
      rewrite Hi in Eb. simpl in Eb.
      exact Eb.
    + destruct (rule sig0 (Count d) m sdv) eqn:Er.
      * destruct (breaks _ _ _ _ _); [done|].
        eapply (IH (upd P sig0 d)); try done. by apply classified_push.
      * eapply (IH (upd P sig0 d)); try done. by apply classified_clear.
Qed.

Lemma scanL_nobreak data auto until excl s m sdv cnt j0 l sg tr sg' tr' j d sig :
  classified m sdv (fun _ => l) sg tr ->
  scanL data auto until excl s m sdv cnt j0 sg tr = Ok (sg', tr', None) ->
  j0 - Z.of_nat cnt < j <= j0 -> get data j = Some d -> Date d ∉ excl ->
  sig = EIGHT_OVER_MEAN ∨ sig = EIGHT_UNDER_MEAN -> sat m sdv sig d ->
  length (cur m sdv sig (l ++ visited data excl (Z.to_nat (j0 - j)) j0)) = 7%nat ->
  (if j =? s then false else auto) && date_lt (Date d) until = false.
Proof.
  revert j0 l sg tr. induction cnt as [|cnt IH]; intros j0 l sg tr Hc Hscan Hj Hg Hx He Hs Hl.
  - lia.
  - cbn [scanL] in Hscan. destruct (get data j0) as [d0|] eqn:Eg; [|done].
    destruct (decide (j = j0)) as [->|Hne].
    + assert (d0 = d) as -> by congruence.
      rewrite bool_decide_eq_false_2 in Hscan by done.
      destruct (rulesL _ _ _ _ _ _ _ _ _ _) as [[sg1 tr1] found] eqn:Er.
      destruct found; [done|].
      replace (Z.to_nat (j0 - j0)) with 0%nat in Hl by lia.
      cbn [visited] in Hl. rewrite app_nil_r in Hl.
      eapply (rulesL_nobreak _ _ _ _ _ _ _ _ (fun _ => l) l); try done.
      * apply NoDup_SignalEnum.
      * apply elem_of_SignalEnum.
    + replace (Z.to_nat (j0 - j)) with (S (Z.to_nat (j0 - 1 - j))) in Hl by lia.
      cbn [visited] in Hl. rewrite Eg in Hl.
      case_bool_decide as Hx0.
      * eapply (IH (j0 - 1) l); try done. lia.
      * destruct (rulesL _ _ _ _ _ _ _ _ _ _) as [[sg1 tr1] found] eqn:Er.
        destruct found; [done|].
        apply (rulesL_classified _ _ _ _ _ _ _ _ (fun _ => l)) in Er;
          [|apply NoDup_SignalEnum|done].
        assert (Hc1 : classified m sdv (fun _ => l ++ [d0]) sg1 tr1).
        { eapply classified_ext; [|exact Er]. intros x. cbv beta.
          rewrite decide_True; [done|apply elem_of_SignalEnum]. }
        eapply (IH (j0 - 1) (l ++ [d0])); try done; [lia|].
        by rewrite <- app_assoc.
Qed.

Lemma in_range_cons data excl j e d :
  0 <= j <= e -> get data j = Some d -> Date d ∉ excl ->
  in_range data excl j e = d :: in_range data excl (j + 1) e.
Proof.
  intros Hj Hg Hx. unfold in_range. unfold get in Hg.
  destruct (j <? 0) eqn:E; [apply Z.ltb_lt in E; lia|].
  replace (Z.to_nat (e - j + 1)) with (S (Z.to_nat (e - (j + 1) + 1))) by lia.
  rewrite (drop_S _ _ _ Hg). cbn [take].
  rewrite filter_cons, decide_True by done.
  by replace (Z.to_nat (j + 1)) with (S (Z.to_nat j)) by lia.
Qed.

Lemma cur_closed m sdv sig rest :
  (∀ x, head rest = Some x -> ¬ sat m sdv sig x) ->
  cur m sdv sig (reverse rest) = [].
Proof.
  intros H. destruct rest as [|x rest]; [done|].
  rewrite reverse_cons, cur_snoc.
  destruct (rule sig (Count x) m sdv) eqn:E; [|done].
  exfalso. by apply (H x).
Qed.

(** With detection on, the last process that [getSignals] returns holds no
    run that should have cut it: wherever, after its first point, eight
    consecutive non-excluded points lie all above or all below its mean and
    the next non-excluded point (if any) does not, the first of the eight
    is dated outside the detection window. *)
Theorem last_process_no_missed_break (data : list point) (props : properties) :
  ∃ ps p, returns (fun fuel => getSignals fuel data props) ps ∧ last ps = Some p ∧
    ∀ j d sig run rest,
      startIndex p < j <= endIndex p -> get data j = Some d ->
      Date d ∉ datesToExclude props ->
      in_range data (datesToExclude props) j (endIndex p) = run ++ rest ->
      length run = 8%nat ->
      sig = EIGHT_OVER_MEAN ∨ sig = EIGHT_UNDER_MEAN ->
      Forall (sat (pmean p) (psd p) sig) run ->
      (∀ x, head rest = Some x -> ¬ sat (pmean p) (psd p) sig x) ->
      autoDetectProcess props = true ->
      date_lt (Date d) (autoDetectUntil (configureProperties props data)) = false.
Proof.
  destruct (getSignals_scanned data props) as (ps & Hret & Hch & Hsc).
  destruct (chain_last _ _ _ Hch) as (p & Hlast & Hend).
  exists ps, p. split; [done|]. split; [done|].
  assert (Hp : ps !! Nat.pred (length ps) = Some p) by (by rewrite <- last_lookup).
  pose proof (scanned_chain_lookup _ _ _ _ _ _ _ Hsc Hp) as Hb.
  assert (Hnone : ps !! S (Nat.pred (length ps)) = None) by (apply lookup_ge_None; lia).
  rewrite Hnone in Hb.
  destruct (scanned_bounds _ _ _ _ _ _ _ Hch Hsc Hp) as (H0 & Hn & _).
  destruct Hb as (Hst & st & e & sg & tr & Hste & Hscan & Hsg & _ & _ & He).
  subst e. unfold stats_of in Hst. rewrite Hste in Hst. injection Hst as ->.
  cbn [stats_mean stats_sd] in Hscan.
  intros j d sig run rest Hj Hg Hx Hrun Hlen Hsig Hall Hrest Hauto.
  rewrite (in_range_cons data _ j (endIndex p) d ltac:(lia) Hg Hx) in Hrun.
  destruct run as [|d' run']; [done|]. simpl in Hrun. injection Hrun as <- Hrun.
  apply Forall_cons in Hall as [Hd Hall]. simpl in Hlen.
  assert (Hin : endIndex p - Z.of_nat (Z.to_nat (endIndex p - startIndex p + 1)) < j
                <= endIndex p) by lia.
  pose proof (scanL_nobreak _ _ _ _ _ _ _ _ _ [] _ _ _ _ j d sig
                (classified_fresh _ _) Hscan Hin Hg Hx Hsig Hd) as Hnb.
  rewrite Hauto in Hnb.
  replace (j =? startIndex p) with false in Hnb by (symmetry; apply Z.eqb_neq; lia).
  apply Hnb. rewrite app_nil_l.
  replace (Z.to_nat (endIndex p - j)) with (Z.to_nat (endIndex p - (j + 1) + 1)) by lia.
  rewrite visited_in_range by lia. rewrite Hrun, reverse_app.
  rewrite cur_app_sat by (by apply Forall_reverse).
  rewrite (cur_closed _ _ _ _ Hrest). rewrite app_nil_l, length_reverse. lia.
Qed.
